(** * De Bruijn assembler: a shallow embedding of [debruijn/debruijn.py]

    The Python functions of the assembler are rendered as Rocq functions
    over three small library models:

    - [Py]: the Python built-ins the program uses (exceptions, string and
      list slicing, [max], [list.index], [del l[i]], insertion-ordered
      dictionaries);
    - [Statistics]: [statistics.mean] and the sign of [statistics.stdev],
      over exact rationals, as the [statistics] module computes them;
    - [Nx]: the part of [networkx.DiGraph] the program calls.

    Then come the program's own functions, under the names they have in the
    source, and finally the properties established about them. *)

From Stdlib Require Import List String Ascii ZArith QArith Qreduction Lia Lqa Bool Arith.
Import ListNotations.

Local Open Scope Z_scope.

(* ------------------------------------------------------------------ *)
(** * Python built-ins *)
(* ------------------------------------------------------------------ *)

Module Py.

(** The exceptions that can escape the modelled functions. *)
Inductive exn : Type :=
| StatisticsError   (* statistics.mean / statistics.stdev on too few data *)
| IndexError        (* s[-1] on an empty string, del l[i] out of range   *)
| ValueError        (* max([]) and l.index(x) with x absent              *)
| NodeNotFound.     (* networkx: an endpoint that is not in the graph    *)

(** A call either returns a value or raises. *)
Inductive result (A : Type) : Type :=
| Returns (a : A)
| Raises (e : exn).
Arguments Returns {A} a.
Arguments Raises {A} e.

Definition bind {A B : Type} (r : result A) (k : A -> result B) : result B :=
  match r with
  | Returns a => k a
  | Raises e => Raises e
  end.

(** [for x in xs: acc = body(acc, x)], stopping at the first exception. *)
Fixpoint for_each {A S : Type} (xs : list A) (body : S -> A -> result S) (acc : S)
  : result S :=
  match xs with
  | [] => Returns acc
  | x :: rest => bind (body acc x) (for_each rest body)
  end.

(** [[f(x) for x in xs]] where [f] may raise. *)
Fixpoint comprehension {A B : Type} (f : A -> result B) (xs : list A)
  : result (list B) :=
  match xs with
  | [] => Returns []
  | x :: rest =>
      bind (f x) (fun y => bind (comprehension f rest) (fun ys => Returns (y :: ys)))
  end.

(** ** Strings *)

(** How a slice bound is resolved against a sequence of length [len]:
    a negative bound counts from the end, and the result is clamped to
    [0 .. len]. *)
Definition clamp (len i : Z) : Z :=
  let j := if i <? 0 then i + len else i in
  if j <? 0 then 0 else if len <? j then len else j.

(** [s[lo:hi]] *)
Definition slice (s : string) (lo hi : Z) : string :=
  let chars := list_ascii_of_string s in
  let len := Z.of_nat (List.length chars) in
  let a := clamp len lo in
  let b := clamp len hi in
  string_of_list_ascii (firstn (Z.to_nat (b - a)) (skipn (Z.to_nat a) chars)).

(** [s[lo:]] *)
Definition slice_from (s : string) (lo : Z) : string :=
  slice s lo (Z.of_nat (String.length s)).

(** [s[-1]] *)
Definition last_char (s : string) : result ascii :=
  match rev (list_ascii_of_string s) with
  | [] => Raises IndexError
  | c :: _ => Returns c
  end.

(** [s + c] for a one-character [c]. *)
Definition add_char (s : string) (c : ascii) : string :=
  (s ++ String c EmptyString)%string.

(** ** Lists of numbers *)

(** [max(l)]: the first of the largest elements. *)
Definition max (l : list Q) : result Q :=
  match l with
  | [] => Raises ValueError
  | x :: rest =>
      Returns (fold_left (fun m y => if Qle_bool y m then m else y) rest x)
  end.

(** [l.index(x)]: the first position whose element equals [x]. *)
Fixpoint index (l : list Q) (x : Q) : result nat :=
  match l with
  | [] => Raises ValueError
  | y :: rest =>
      if Qeq_bool y x then Returns O
      else bind (index rest x) (fun i => Returns (S i))
  end.

(** [del l[i]] for [i >= 0]; the list after the deletion. *)
Fixpoint del_item {A : Type} (l : list A) (i : nat) : result (list A) :=
  match l, i with
  | [], _ => Raises IndexError
  | _ :: rest, O => Returns rest
  | x :: rest, S j => bind (del_item rest j) (fun r => Returns (x :: r))
  end.

(** [random.randint(a, b)] returns an integer [r] with [a <= r <= b],
    both ends included.  The generator itself is not modelled: a function
    that draws takes the drawn value as an argument. *)
Definition randint_range (a b r : nat) : Prop := (a <= r <= b)%nat.

(** ** Dictionaries with string keys

    A [dict] keeps its keys in insertion order, and the program iterates
    over one, so it is an association list without repeated keys. *)
Definition dict : Type := list (string * Z).

Fixpoint dict_get (d : dict) (key : string) : option Z :=
  match d with
  | [] => None
  | (k, v) :: rest => if String.eqb k key then Some v else dict_get rest key
  end.

(** [d[key] = v]: an existing key keeps its place, a new one goes last. *)
Fixpoint dict_set (d : dict) (key : string) (v : Z) : dict :=
  match d with
  | [] => [(key, v)]
  | (k, v0) :: rest =>
      if String.eqb k key then (k, v) :: rest else (k, v0) :: dict_set rest key v
  end.

Definition dict_keys (d : dict) : list string := map fst d.

End Py.

Import Py.

Notation "x <- c ;; k" := (Py.bind c (fun x => k))
  (at level 61, c at next level, right associativity).

(* ------------------------------------------------------------------ *)
(** * The [statistics] module *)
(* ------------------------------------------------------------------ *)

Module Statistics.

Local Open Scope Q_scope.

Definition Qsum (data : list Q) : Q := fold_right Qplus 0 data.

Definition count (data : list Q) : Q := inject_Z (Z.of_nat (List.length data)).

(** [statistics.mean(data)]: the exact quotient, in lowest terms. *)
Definition mean (data : list Q) : result Q :=
  match data with
  | [] => Raises StatisticsError
  | _ :: _ => Returns (Qred (Qsum data / count data))
  end.

(** The sum of squared deviations of [data] from [c]. *)
Definition sum_sq_dev (data : list Q) (c : Q) : Q :=
  Qsum (map (fun x => (x - c) * (x - c)) data).

(** The sample variance, [ss / (n - 1)], that [statistics.stdev] takes the
    square root of.  Only meaningful for at least two data points. *)
Definition variance (data : list Q) : Q :=
  sum_sq_dev data (Qsum data / count data) / (count data - 1).

(** The test [statistics.stdev(data) > 0].  [stdev] raises on fewer than
    two data points; otherwise it returns the square root of the exact
    sample variance, which is positive exactly when the variance is. *)
Definition stdev_gt0 (data : list Q) : result bool :=
  if (List.length data <? 2)%nat then Raises StatisticsError
  else Returns (negb (Qle_bool (variance data) 0)).

End Statistics.

(* ------------------------------------------------------------------ *)
(** * The [networkx.DiGraph] operations the program uses *)
(* ------------------------------------------------------------------ *)

Module Nx.

(** A directed graph with a weight on every edge.  Both components are
    kept in insertion order, which is the order networkx iterates in. *)
Record DiGraph : Type := mkDiGraph {
  nodes : list string;
  edges : list (string * string * Z)
}.

Definition empty : DiGraph := mkDiGraph [] [].

Definition mem (n : string) (l : list string) : bool :=
  existsb (String.eqb n) l.

Definition add_node (ns : list string) (n : string) : list string :=
  if mem n ns then ns else ns ++ [n].

Definition same_edge (u v : string) (e : string * string * Z) : bool :=
  let '(a, b, _) := e in String.eqb a u && String.eqb b v.

(** [G.add_edge(u, v, weight=w)]: both endpoints become nodes; the weight
    of an edge that is already there is overwritten. *)
Definition add_edge (g : DiGraph) (u v : string) (w : Z) : DiGraph :=
  mkDiGraph
    (add_node (add_node (nodes g) u) v)
    (if existsb (same_edge u v) (edges g)
     then map (fun e => if same_edge u v e then (u, v, w) else e) (edges g)
     else edges g ++ [(u, v, w)]).

(** [G.remove_node(n)], without the KeyError: the node and every edge
    that touches it go. *)
Definition remove_node (g : DiGraph) (n : string) : DiGraph :=
  mkDiGraph
    (filter (fun m => negb (String.eqb m n)) (nodes g))
    (filter (fun e => let '(a, b, _) := e in
                      negb (String.eqb a n) && negb (String.eqb b n)) (edges g)).

(** [G.remove_nodes_from(ns)]: nodes that are not in the graph are
    skipped silently. *)
Definition remove_nodes_from (g : DiGraph) (ns : list string) : DiGraph :=
  fold_left remove_node ns g.

Definition successors (g : DiGraph) (n : string) : list string :=
  map (fun e => snd (fst e))
      (filter (fun e => String.eqb (fst (fst e)) n) (edges g)).

Definition predecessors (g : DiGraph) (n : string) : list string :=
  map (fun e => fst (fst e))
      (filter (fun e => String.eqb (snd (fst e)) n) (edges g)).

(** [G.subgraph(ns)]: the subgraph induced by the nodes of [ns], that is
    every edge of [G] with both ends in [ns]. *)
Definition subgraph (g : DiGraph) (ns : list string) : DiGraph :=
  mkDiGraph
    (filter (fun m => mem m ns) (nodes g))
    (filter (fun e => let '(a, b, _) := e in mem a ns && mem b ns) (edges g)).

(** The depth-first search of [all_simple_paths] towards one target.
    [visited] is the current path, last node first, and [cur] its head;
    [fuel] is what is left of the cutoff. *)
Fixpoint dfs (g : DiGraph) (target : string) (fuel : nat)
         (visited : list string) (cur : string) : list (list string) :=
  flat_map
    (fun child =>
       if mem child visited then []
       else if String.eqb child target then [rev (child :: visited)]
       else match fuel with
            | O => []
            | S fuel' => dfs g target fuel' (child :: visited) child
            end)
    (successors g cur).

(** The paths [all_simple_paths] generates for two nodes of the graph,
    with the default cutoff [len(G) - 1].  For a source that is its own
    target this is the generator of networkx up to 3.1, which yields
    nothing; from networkx 3.2 on it yields the one-node path [[source]].
    For two different nodes all versions agree. *)
Definition simple_paths (g : DiGraph) (source target : string)
  : list (list string) :=
  if String.eqb source target then []
  else match List.length (nodes g) with
       | O | S O => []
       | S (S fuel) => dfs g target fuel [source] source
       end.

(** [list(nx.all_simple_paths(G, source, target))].  A source outside the
    graph raises NodeNotFound.  This model raises it for a target outside
    the graph as well; networkx would first try to read such a target as
    a collection of target nodes, a use the program never makes. *)
Definition all_simple_paths (g : DiGraph) (source target : string)
  : result (list (list string)) :=
  if negb (mem source (nodes g)) then Raises NodeNotFound
  else if negb (mem target (nodes g)) then Raises NodeNotFound
  else Returns (simple_paths g source target).

End Nx.

Import Nx.

(* ------------------------------------------------------------------ *)
(** * The assembler *)
(* ------------------------------------------------------------------ *)

(** [cut_kmer(read, kmer_size)], the generator run to its end.  The window
    test [i + kmer_size <= len(read)] and the slice are the source's, for
    every integer [kmer_size]. *)
Definition cut_kmer (read : string) (kmer_size : Z) : list string :=
  flat_map
    (fun i : nat =>
       if Z.of_nat i + kmer_size <=? Z.of_nat (String.length read)
       then [slice read (Z.of_nat i) (Z.of_nat i + kmer_size)]
       else [])
    (seq 0 (String.length read)).

(** The body of the inner loop of [build_kmer_dict]. *)
Definition count_kmer (dico : dict) (kmer : string) : dict :=
  match dict_get dico kmer with
  | Some n => dict_set dico kmer (n + 1)
  | None => dict_set dico kmer 1
  end.

(** [build_kmer_dict(fastq_file, kmer_size)], on the reads that
    [read_fastq(fastq_file)] yields. *)
Definition build_kmer_dict (reads : list string) (kmer_size : Z) : dict :=
  fold_left
    (fun dico read => fold_left count_kmer (cut_kmer read kmer_size) dico)
    reads [].

(** [build_graph(kmer_dict)] *)
Definition build_graph (kmer_dict : dict) : DiGraph :=
  fold_left
    (fun graph entry =>
       let '(kmer, n) := entry in
       add_edge graph (slice kmer 0 (-1)) (slice_from kmer 1) n)
    kmer_dict Nx.empty.

(** What [remove_paths] hands to [remove_nodes_from] for one path. *)
Definition trim_path (path : list string) (delete_entry_node delete_sink_node : bool)
  : list string :=
  let path := if delete_entry_node then path else tl path in
  if delete_sink_node then path else removelast path.

(** [remove_paths(graph, path_list, delete_entry_node, delete_sink_node)] *)
Definition remove_paths (graph : DiGraph) (path_list : list (list string))
           (delete_entry_node delete_sink_node : bool) : DiGraph :=
  fold_left
    (fun graph path =>
       remove_nodes_from graph (trim_path path delete_entry_node delete_sink_node))
    path_list graph.

(** The test [std(data) > 0]. *)
Definition std_gt0 (data : list Q) : result bool := Statistics.stdev_gt0 data.

(** [select_best_path].  [draw] is the value of
    [randint(0, len(path_list))]; it is read in the last branch only. *)
Definition select_best_path (graph : DiGraph) (path_list : list (list string))
           (path_length weight_avg_list : list Q)
           (delete_entry_node delete_sink_node : bool) (draw : nat)
  : result DiGraph :=
  by_weight <- std_gt0 weight_avg_list ;;
  path_list <-
    (if by_weight : bool then
       m <- Py.max weight_avg_list ;;
       i <- Py.index weight_avg_list m ;;
       del_item path_list i
     else
       by_length <- std_gt0 path_length ;;
       if by_length : bool then
         m <- Py.max path_length ;;
         i <- Py.index path_length m ;;
         del_item path_list i
       else del_item path_list draw) ;;
  Returns (remove_paths graph path_list delete_entry_node delete_sink_node).

(** [path_average_weight(graph, path)]: the mean of the weights of the
    edges of [graph.subgraph(path)]. *)
Definition path_average_weight (graph : DiGraph) (path : list string) : result Q :=
  Statistics.mean
    (map (fun e : string * string * Z => inject_Z (snd e)) (edges (subgraph graph path))).

Definition len_Q {A : Type} (l : list A) : Q := inject_Z (Z.of_nat (List.length l)).

(** [solve_bubble(graph, ancestor_node, descendant_node)] *)
Definition solve_bubble (graph : DiGraph) (ancestor_node descendant_node : string)
           (draw : nat) : result DiGraph :=
  paths <- all_simple_paths graph ancestor_node descendant_node ;;
  weight_avg_list <- comprehension (path_average_weight graph) paths ;;
  let path_length := map len_Q paths in
  select_best_path graph paths path_length weight_avg_list false false draw.

(** [get_starting_nodes(graph)] *)
Definition get_starting_nodes (graph : DiGraph) : list string :=
  filter (fun i => match predecessors graph i with [] => true | _ => false end)
         (nodes graph).

(** [get_sink_nodes(graph)] *)
Definition get_sink_nodes (graph : DiGraph) : list string :=
  filter (fun i => match successors graph i with [] => true | _ => false end)
         (nodes graph).

(** The contig of one path: [cont = path[0]], then
    [cont = cont + node[-1]] for every [node] of [path[1:]]. *)
Definition contig_of_path (path : list string) : result string :=
  match path with
  | [] => Raises IndexError
  | first :: rest =>
      for_each rest (fun cont node => c <- last_char node ;; Returns (add_char cont c))
               first
  end.

(** [get_contigs(graph, starting_nodes, ending_nodes)] *)
Definition get_contigs (graph : DiGraph) (starting_nodes ending_nodes : list string)
  : result (list (string * nat)) :=
  for_each starting_nodes
    (fun contigs_list start =>
       for_each ending_nodes
         (fun contigs_list end_ =>
            paths <- all_simple_paths graph start end_ ;;
            for_each paths
              (fun contigs_list path =>
                 cont <- contig_of_path path ;;
                 Returns (contigs_list ++ [(cont, String.length cont)]))
              contigs_list)
         contigs_list)
    [].

(** ** Definitions that follow the specification's wording

    They are compared with the functions above; the program does not use
    them. *)

(** The arithmetic mean of the weights of the edges that link consecutive
    nodes of [path]. *)
Fixpoint consecutive_weights (graph : DiGraph) (path : list string) : list Q :=
  match path with
  | u :: ((v :: _) as rest) =>
      map (fun e : string * string * Z => inject_Z (snd e))
          (filter (same_edge u v) (edges graph))
      ++ consecutive_weights graph rest
  | _ => []
  end.

Definition spec_path_weight (graph : DiGraph) (path : list string) : result Q :=
  Statistics.mean (consecutive_weights graph path).

(** The last character of a node as a string, empty for an empty node. *)
Definition last_of (node : string) : string := slice_from node (-1).

(** The first node in full, then the last character of each later node. *)
Definition spec_contig (path : list string) : string :=
  match path with
  | [] => EmptyString
  | first :: rest => (first ++ String.concat EmptyString (map last_of rest))%string
  end.

(** The pair the specification asks [get_contigs] to emit for one path:
    the contig and its length in characters. *)
Definition emitted (path : list string) : string * nat :=
  (spec_contig path, String.length (spec_contig path)).

(** The sum of all counts of a k-mer table. *)
Definition total_count (d : dict) : Z := fold_right Z.add 0 (map snd d).

(** The slices [read[i:i+kmer_size]] taken at every position [i] of every
    read, in the order of the reads and of the positions. *)
Definition position_slices (reads : list string) (kmer_size : Z) : list string :=
  flat_map
    (fun read =>
       map (fun i : nat => slice read (Z.of_nat i) (Z.of_nat i + kmer_size))
           (seq 0 (String.length read)))
    reads.

(** The edge [build_graph] adds for one entry of the table. *)
Definition entry_edge (entry : string * Z) : string * string * Z :=
  (slice (fst entry) 0 (-1), slice_from (fst entry) 1, snd entry).

(** Every k-mer of the table has at least two characters. *)
Definition long_keys (table : dict) : Prop :=
  Forall (fun kmer => (2 <= String.length kmer)%nat) (dict_keys table).

(** [w] is a largest element of [l], and [i] the first position that
    holds a largest element. *)
Definition first_max (l : list Q) (i : nat) (w : Q) : Prop :=
  nth_error l i = Some w
  /\ (forall x, In x l -> (x <= w)%Q)
  /\ (forall j x, (j < i)%nat -> nth_error l j = Some x -> (x < w)%Q).

(** What is left of a list once position [i] is deleted. *)
Definition losers {A : Type} (l : list A) (i : nat) : list A :=
  firstn i l ++ skipn (S i) l.

(** A node is trimmed off some path of [paths], so that [remove_paths]
    deletes it. *)
Definition hit (paths : list (list string)) (entry sink : bool) (n : string) : Prop :=
  exists p, In p paths /\ In n (trim_path p entry sink).

(** The numbers of [l] are all equal, or two of them differ: zero and
    non-zero variance. *)
Definition tied (l : list Q) : Prop := forall x y, In x l -> In y l -> (x == y)%Q.

Definition spread (l : list Q) : Prop := exists x y, In x l /\ In y l /\ ~ (x == y)%Q.

(** The interior of a path: all its nodes but the first and the last. *)
Definition interior (path : list string) : list string := trim_path path false false.

(* ------------------------------------------------------------------ *)
(** * Sample inputs *)
(* ------------------------------------------------------------------ *)

Module Samples.

Definition reads2 : list string := ["AATCGA"; "ATCGAT"]%string.

(** "AAT" -> "ATC" -> "TCG" *)
Definition linear : DiGraph :=
  add_edge (add_edge Nx.empty "AAT" "ATC" 1) "ATC" "TCG" 1.

Definition of_edges (es : list (string * string * Z)) : DiGraph :=
  fold_left (fun g e => let '(u, v, w) := e in add_edge g u v w) es Nx.empty.

(** A bubble from "S" to "T" with an arm of 3 nodes and an arm of 5
    nodes, every edge of weight 1. *)
Definition arm3 : list string := ["S"; "A"; "T"]%string.
Definition arm5 : list string := ["S"; "B1"; "B2"; "B3"; "T"]%string.
Definition bubble_3_5 : DiGraph :=
  of_edges [("S", "A", 1); ("A", "T", 1);
            ("S", "B1", 1); ("B1", "B2", 1); ("B2", "B3", 1); ("B3", "T", 1)]%string.

(** Two paths from "S" to "T" that leave "S" by the same node "B":
    "S" -> "B" -> "C" -> "T" of weight 5 and "S" -> "B" -> "E" -> "T". *)
Definition heavy : list string := ["S"; "B"; "C"; "T"]%string.
Definition light : list string := ["S"; "B"; "E"; "T"]%string.
Definition shared_stem : DiGraph :=
  of_edges [("S", "B", 5); ("B", "C", 5); ("C", "T", 5);
            ("B", "E", 1); ("E", "T", 1)]%string.

(** Two arms of 3 nodes and weight 1 between "S" and "T". *)
Definition twin_a : list string := ["S"; "A"; "T"]%string.
Definition twin_b : list string := ["S"; "B"; "T"]%string.
Definition twins : DiGraph :=
  of_edges [("S", "A", 1); ("A", "T", 1); ("S", "B", 1); ("B", "T", 1)]%string.

(** The graph of the 3-mers of four reads: "CA" -> "AA" -> "AT" with
    weights 1 and 1, and the edge "CA" -> "AT" of weight 3. *)
Definition chord_reads : list string := ["CAAT"; "CAT"; "CAT"; "CAT"]%string.
Definition chord : DiGraph := build_graph (build_kmer_dict chord_reads 3).
Definition chord_path : list string := ["CA"; "AA"; "AT"]%string.

End Samples.


(* ------------------------------------------------------------------ *)
(** * Notions used to state further properties *)
(* ------------------------------------------------------------------ *)

From Stdlib Require Import Permutation.

(** How many of the windows cut from the reads are [kmer]. *)
Definition occurrences (reads : list string) (kmer_size : Z) (kmer : string) : Z :=
  Z.of_nat
    (count_occ string_dec (flat_map (fun read => cut_kmer read kmer_size) reads) kmer).

(** The two nodes [build_graph] links for a k-mer. *)
Definition ends (kmer : string) : string * string :=
  (slice kmer 0 (-1), slice_from kmer 1).

(** A graph as networkx keeps it: no node twice, every edge between two
    nodes, at most one edge from one node to another. *)
Definition wf_graph (g : DiGraph) : Prop :=
  NoDup (nodes g)
  /\ (forall u v w, In (u, v, w) (edges g) -> In u (nodes g) /\ In v (nodes g))
  /\ NoDup (map fst (edges g)).

(** Each node of the path has an edge to the next one. *)
Fixpoint walk (g : DiGraph) (path : list string) : Prop :=
  match path with
  | u :: ((v :: _) as rest) => (exists w, In (u, v, w) (edges g)) /\ walk g rest
  | _ => True
  end.

(** A simple path of [g] from [source] to [target]: a walk without
    repeated node, of at least two nodes. *)
Definition simple_path (g : DiGraph) (source target : string) (path : list string)
  : Prop :=
  source <> target
  /\ (exists rest, path = source :: rest)
  /\ (exists front, path = front ++ [target])
  /\ NoDup path
  /\ walk g path.

(** [b] comes right after [a] on the path. *)
Definition consecutive (path : list string) (a b : string) : Prop :=
  exists before after, path = before ++ a :: b :: after.

(** The only edges of the graph between nodes of the path are those from
    a node of the path to the next one. *)
Definition chord_free (g : DiGraph) (path : list string) : Prop :=
  forall a b w, In (a, b, w) (edges g) -> In a path -> In b path -> consecutive path a b.

(** The edges that link consecutive nodes of the path, in path order. *)
Fixpoint consecutive_edges (g : DiGraph) (path : list string)
  : list (string * string * Z) :=
  match path with
  | u :: ((v :: _) as rest) =>
      filter (same_edge u v) (edges g) ++ consecutive_edges g rest
  | _ => []
  end.

(* ------------------------------------------------------------------ *)
(** * Further functions of the program *)
(* ------------------------------------------------------------------ *)

(** [range(0, stop, step)]: ValueError for a zero step; otherwise the
    multiples of [step] from 0 that stay before [stop]. *)
Definition range0 (stop step : Z) : result (list Z) :=
  if step =? 0 then Raises ValueError
  else
    let count := if 0 <? step then (stop + step - 1) / step
                 else (stop + step + 1) / step in
    Returns (map (fun j : nat => Z.of_nat j * step) (seq 0 (Z.to_nat count))).

(** The lines [fill] joins: [text[i:i+width] for i in range(0, len(text), width)]. *)
Definition fill_lines (text : string) (width : Z) : result (list string) :=
  starts <- range0 (Z.of_nat (String.length text)) width ;;
  Returns (map (fun i => slice text i (i + width)) starts).

(** [fill(text, width)], with [os.linesep] as [linesep]. *)
Definition fill (linesep : string) (text : string) (width : Z) : result string :=
  lines <- fill_lines text width ;;
  Returns (String.concat linesep lines).

(** [c.isspace()] for a character below 256: tab to carriage return, the
    four separators 28 to 31, the space, and the code points 133 and 160. *)
Definition isspace (c : ascii) : bool :=
  let n := nat_of_ascii c in
  ((9 <=? n) && (n <=? 13) || (28 <=? n) && (n <=? 32)
   || (n =? 133) || (n =? 160))%nat.

(** Drop the leading characters that satisfy [p]. *)
Fixpoint lstrip_chars (p : ascii -> bool) (l : list ascii) : list ascii :=
  match l with
  | c :: rest => if p c then lstrip_chars p rest else l
  | [] => []
  end.

(** [s.strip()]: [s] without leading and trailing whitespace. *)
Definition strip (s : string) : string :=
  string_of_list_ascii
    (rev (lstrip_chars isspace (rev (lstrip_chars isspace (list_ascii_of_string s))))).

(** How a run of the generator [read_fastq] ends: the file is exhausted at
    the top of the loop, or one of the three [next(filling)] finds no line,
    and the StopIteration it raises inside the generator surfaces as a
    RuntimeError. *)
Inductive generator_end : Type :=
| Exhausted
| StopIterationInside.

(** [read_fastq(fastq_file)] on the lines of the file: the reads it yields,
    and how it ends.  Each turn of the loop takes a line, yields the next
    one stripped, and skips two more. *)
Fixpoint read_fastq (lines : list string) : list string * generator_end :=
  match lines with
  | [] => ([], Exhausted)
  | _ :: [] => ([], StopIterationInside)
  | _ :: sequence :: rest =>
      let '(reads, e) :=
        match rest with
        | _ :: _ :: rest' => read_fastq rest'
        | _ => ([], StopIterationInside)
        end in
      (strip sequence :: reads, e)
  end.

(** The four lines of a FASTQ record. *)
Definition record_lines (record : string * string * string * string) : list string :=
  let '(header, sequence, plus, quality) := record in
  [header; sequence; plus; quality].

(** ** The bubble simplifier

    [simplify_bubbles] calls [nx.lowest_common_ancestor], whose algorithm
    is networkx's; it is a parameter [lca] here, with the three things a
    call can do. *)
Inductive lca_answer : Type :=
| LcaNode (n : string)   (* the lowest common ancestor *)
| LcaNone                (* None: the two nodes have no common ancestor *)
| LcaError.              (* NetworkXError: the graph is not acyclic *)

(** The two variables the scan of [simplify_bubbles] updates.
    [ancestor_node] is [None] for Python's [None] (and before the first
    assignment, when it is not read). *)
Record scan_state : Type := mkScan {
  bubble : bool;
  ancestor_node : option string
}.

(** [if ancestor_node:] holds for a string that is not empty. *)
Definition truthy (n : string) : bool := negb (String.eqb n EmptyString).

(** The loop [for second_pred in list_second_preds]; [None] when the
    ancestor computation raises. *)
Fixpoint scan_second_preds (lca : DiGraph -> string -> string -> lca_answer)
         (graph : DiGraph) (first_pred : string) (list_second_preds : list string)
         (st : scan_state) : option scan_state :=
  match list_second_preds with
  | [] => Some st
  | second_pred :: rest =>
      match lca graph first_pred second_pred with
      | LcaError => None
      | LcaNone => scan_second_preds lca graph first_pred rest (mkScan (bubble st) None)
      | LcaNode n =>
          if truthy n then Some (mkScan true (Some n))
          else scan_second_preds lca graph first_pred rest (mkScan (bubble st) (Some n))
      end
  end.

(** The loop [for i, first_pred in enumerate(list_preds)], from position
    [i] on: [remaining] is [list_preds[i:]]. *)
Fixpoint scan_first_preds (lca : DiGraph -> string -> string -> lca_answer)
         (graph : DiGraph) (list_preds : list string) (i : nat)
         (remaining : list string) (st : scan_state) : option scan_state :=
  match remaining with
  | [] => Some st
  | first_pred :: rest =>
      let list_second_preds := losers list_preds i in
      match scan_second_preds lca graph first_pred list_second_preds st with
      | None => None
      | Some st' => scan_first_preds lca graph list_preds (S i) rest st'
      end
  end.

(** What the scan of the nodes finds. *)
Inductive scan : Type :=
| NoBubble
| Bubble (ancestor_node : option string) (node : string)
| LcaRaised.

(** The loop [for node in graph] of [simplify_bubbles], up to its
    [break].  A node is reached with [bubble] false, and what the scan of an
    earlier node left in [ancestor_node] is overwritten before it is read. *)
Fixpoint find_bubble (lca : DiGraph -> string -> string -> lca_answer)
         (graph : DiGraph) (ns : list string) : scan :=
  match ns with
  | [] => NoBubble
  | node :: rest =>
      let list_preds := predecessors graph node in
      if (1 <? List.length list_preds)%nat then
        match scan_first_preds lca graph list_preds 0 list_preds
                               (mkScan false None) with
        | None => LcaRaised
        | Some st =>
            if bubble st then Bubble (ancestor_node st) node
            else find_bubble lca graph rest
        end
      else find_bubble lca graph rest
  end.

(** How a call of [simplify_bubbles] ends. *)
Inductive outcome : Type :=
| Done (graph : DiGraph)   (* the graph it returns *)
| Failed (e : exn)         (* [solve_bubble] raised *)
| LcaFailed                (* [nx.lowest_common_ancestor] raised *)
| TooDeep.                 (* the recursion went deeper than [fuel] calls *)

(** [simplify_bubbles(graph)].  [draws level] is what [randint] returns
    if the call at depth [level] of the recursion draws; [fuel] bounds the
    depth, as the interpreter's recursion limit does. *)
Fixpoint simplify_bubbles (lca : DiGraph -> string -> string -> lca_answer)
         (draws : nat -> nat) (fuel level : nat) (graph : DiGraph) : outcome :=
  match find_bubble lca graph (nodes graph) with
  | NoBubble => Done graph
  | LcaRaised => LcaFailed
  | Bubble ancestor node =>
      let solved :=
        match ancestor with
        | Some ancestor_node => solve_bubble graph ancestor_node node (draws level)
        | None => Raises NodeNotFound   (* all_simple_paths(graph, None, node) *)
        end in
      match solved with
      | Raises e => Failed e
      | Returns graph' =>
          match fuel with
          | O => TooDeep
          | S fuel' => simplify_bubbles lca draws fuel' (S level) graph'
          end
      end
  end.

(** A bubble from "S" to "T" through "A" or "B", and a further node "R"
    with an edge to "T"; and the lowest common ancestors in that graph:
    "S" for "A" and "B", none for "R" and another predecessor of "T". *)
Definition tip_at_bubble : DiGraph :=
  Samples.of_edges [("S", "A", 1); ("S", "B", 1); ("A", "T", 1); ("B", "T", 1);
                    ("R", "T", 1)]%string.

Definition tip_at_bubble_lca (_ : DiGraph) (a b : string) : lca_answer :=
  if (String.eqb a "A" && String.eqb b "B") || (String.eqb a "B" && String.eqb b "A")
  then LcaNode "S"
  else LcaNone.

(** A bubble from "S" to "T" whose lighter arm is the edge from "S" to
    "T" itself. *)
Definition edge_bubble : DiGraph :=
  Samples.of_edges [("S", "A", 5); ("A", "T", 5); ("S", "T", 1)]%string.

(* ------------------------------------------------------------------ *)
(** * Properties of the k-mer tabulation *)
(* ------------------------------------------------------------------ *)

Section Tabulation.

Implicit Types (read kmer key : string) (reads : list string) (d : dict).

Lemma flat_map_optional_length {A B : Type} (p : A -> bool) (f : A -> B) (l : list A) :
  List.length (flat_map (fun x => if p x then [f x] else []) l)
  = List.length (filter p l).
Proof.
  induction l as [|x l IH]; simpl; [reflexivity|].
  destruct (p x); simpl; rewrite IH; reflexivity.
Qed.

(** How many of [0 .. n-1] are at most [c]. *)
Lemma count_upto (c : Z) (n : nat) :
  Z.of_nat (List.length (filter (fun i : nat => Z.of_nat i <=? c) (seq 0 n)))
  = Z.min (Z.of_nat n) (Z.max 0 (c + 1)).
Proof.
  induction n as [|n IH].
  - simpl. lia.
  - rewrite seq_S, filter_app, length_app, Nat2Z.inj_add, IH. simpl.
    destruct (Z.leb_spec (Z.of_nat n) c); simpl; lia.
Qed.

(** The number of windows [cut_kmer] yields, for every integer size. *)
Lemma cut_kmer_count read (kmer_size : Z) :
  Z.of_nat (List.length (cut_kmer read kmer_size))
  = Z.min (Z.of_nat (String.length read))
          (Z.max 0 (Z.of_nat (String.length read) - kmer_size + 1)).
Proof.
  unfold cut_kmer.
  rewrite (flat_map_optional_length
             (fun i : nat => Z.of_nat i + kmer_size <=? Z.of_nat (String.length read))
             (fun i : nat => slice read (Z.of_nat i) (Z.of_nat i + kmer_size))).
  rewrite (filter_ext _ (fun i : nat => Z.of_nat i <=? Z.of_nat (String.length read) - kmer_size)).
  - rewrite count_upto. reflexivity.
  - intro i.
    destruct (Z.leb_spec (Z.of_nat i + kmer_size) (Z.of_nat (String.length read)));
      destruct (Z.leb_spec (Z.of_nat i) (Z.of_nat (String.length read) - kmer_size));
      try reflexivity; lia.
Qed.

Lemma total_count_set d key (v : Z) :
  total_count (dict_set d key v)
  = total_count d + v - match dict_get d key with Some n => n | None => 0 end.
Proof.
  unfold total_count.
  induction d as [|[k n] d IH]; simpl.
  - lia.
  - destruct (String.eqb k key); simpl; lia.
Qed.

Lemma total_count_count_kmer d kmer :
  total_count (count_kmer d kmer) = total_count d + 1.
Proof.
  unfold count_kmer.
  destruct (dict_get d kmer) as [n|] eqn:E; rewrite total_count_set, E; lia.
Qed.

Lemma total_count_fold d (kmers : list string) :
  total_count (fold_left count_kmer kmers d)
  = total_count d + Z.of_nat (List.length kmers).
Proof.
  revert d.
  induction kmers as [|kmer kmers IH]; intro d; simpl fold_left.
  - simpl. lia.
  - rewrite IH, total_count_count_kmer. simpl List.length. lia.
Qed.

(** The tabulation adds one count per window, whatever the size. *)
Lemma total_count_build reads (kmer_size : Z) :
  total_count (build_kmer_dict reads kmer_size)
  = fold_right Z.add 0
      (map (fun read => Z.of_nat (List.length (cut_kmer read kmer_size))) reads).
Proof.
  unfold build_kmer_dict.
  assert (G : forall d,
             total_count
               (fold_left
                  (fun dico read => fold_left count_kmer (cut_kmer read kmer_size) dico)
                  reads d)
             = total_count d
               + fold_right Z.add 0
                   (map (fun read => Z.of_nat (List.length (cut_kmer read kmer_size)))
                        reads)).
  { induction reads as [|read reads IH]; intro d; simpl.
    - lia.
    - rewrite IH, total_count_fold. lia. }
  rewrite G. reflexivity.
Qed.

(** ** Keys of the table *)

Lemma dict_keys_set d key (v : Z) k :
  In k (dict_keys (dict_set d key v)) <-> In k (dict_keys d) \/ k = key.
Proof.
  unfold dict_keys.
  induction d as [|[k0 n] d IH]; simpl.
  - intuition congruence.
  - destruct (String.eqb_spec k0 key) as [->|N]; simpl.
    + intuition congruence.
    + rewrite IH. intuition congruence.
Qed.

Lemma dict_keys_count_kmer d kmer k :
  In k (dict_keys (count_kmer d kmer)) <-> In k (dict_keys d) \/ k = kmer.
Proof.
  unfold count_kmer. destruct (dict_get d kmer); apply dict_keys_set.
Qed.

Lemma dict_keys_fold d (kmers : list string) k :
  In k (dict_keys (fold_left count_kmer kmers d)) <-> In k (dict_keys d) \/ In k kmers.
Proof.
  revert d.
  induction kmers as [|kmer kmers IH]; intro d; simpl fold_left.
  - simpl. tauto.
  - rewrite IH, dict_keys_count_kmer. simpl. intuition congruence.
Qed.

(** The keys of the table are the windows of the reads. *)
Lemma dict_keys_build reads (kmer_size : Z) k :
  In k (dict_keys (build_kmer_dict reads kmer_size))
  <-> exists read, In read reads /\ In k (cut_kmer read kmer_size).
Proof.
  unfold build_kmer_dict.
  assert (G : forall d,
             In k (dict_keys
                     (fold_left
                        (fun dico read =>
                           fold_left count_kmer (cut_kmer read kmer_size) dico)
                        reads d))
             <-> In k (dict_keys d)
                 \/ exists read, In read reads /\ In k (cut_kmer read kmer_size)).
  { induction reads as [|read reads IH]; intro d; simpl fold_left.
    - split; [tauto|]. intros [H|[r [[] _]]]. exact H.
    - rewrite IH, dict_keys_fold. split.
      + intros [[H|H]|[r [Hr Hk]]]; [tauto| |].
        * right. exists read. simpl. tauto.
        * right. exists r. simpl. tauto.
      + intros [H|[r [[<-|Hr] Hk]]]; [tauto|tauto|].
        right. exists r. tauto. }
  rewrite G. simpl. tauto.
Qed.

(** A window of size zero is the empty string. *)
Lemma slice_empty_window read (i : Z) : slice read i (i + 0) = EmptyString.
Proof.
  unfold slice. rewrite Z.add_0_r, Z.sub_diag. reflexivity.
Qed.

Lemma cut_kmer_zero read k : In k (cut_kmer read 0) -> k = EmptyString.
Proof.
  unfold cut_kmer. rewrite in_flat_map. intros [i [_ H]].
  destruct (Z.of_nat i + 0 <=? Z.of_nat (String.length read)); simpl in H.
  - destruct H as [<-|[]]. apply slice_empty_window.
  - destruct H.
Qed.

Lemma flat_map_all {A B : Type} (p : A -> bool) (f : A -> B) (l : list A) :
  (forall x, In x l -> p x = true) ->
  flat_map (fun x => if p x then [f x] else []) l = map f l.
Proof.
  induction l as [|x l IH]; intro H; simpl; [reflexivity|].
  rewrite (H x (or_introl eq_refl)), IH by (intros y Hy; apply H; right; exact Hy).
  reflexivity.
Qed.

Lemma fold_left_flat_map {A B S : Type} (f : S -> B -> S) (g : A -> list B)
      (l : list A) (s : S) :
  fold_left (fun acc x => fold_left f (g x) acc) l s = fold_left f (flat_map g l) s.
Proof.
  revert s. induction l as [|x l IH]; intro s; simpl; [reflexivity|].
  rewrite fold_left_app. apply IH.
Qed.

Lemma dict_get_set (d : dict) (key : string) (v : Z) (k : string) :
  dict_get (dict_set d key v) k = if String.eqb key k then Some v else dict_get d k.
Proof.
  induction d as [|[k0 v0] d IH]; simpl.
  - destruct (String.eqb key k); reflexivity.
  - destruct (String.eqb_spec k0 key) as [->|N]; simpl.
    + destruct (String.eqb key k); reflexivity.
    + rewrite IH.
      destruct (String.eqb_spec k0 k) as [->|N2];
        destruct (String.eqb_spec key k) as [->|N3]; congruence.
Qed.

Lemma dict_get_fold (kmers : list string) (d : dict) (k : string) :
  dict_get (fold_left count_kmer kmers d) k
  = match dict_get d k with
    | Some n => Some (n + Z.of_nat (count_occ string_dec kmers k))
    | None => if Z.of_nat (count_occ string_dec kmers k) =? 0 then None
              else Some (Z.of_nat (count_occ string_dec kmers k))
    end.
Proof.
  revert d. induction kmers as [|kmer kmers IH]; intro d.
  - simpl. destruct (dict_get d k); [f_equal; lia | reflexivity].
  - simpl fold_left. rewrite IH. unfold count_kmer. simpl count_occ.
    destruct (string_dec kmer k) as [->|N].
    + destruct (dict_get d k) as [n|] eqn:E; rewrite dict_get_set, String.eqb_refl.
      * f_equal. lia.
      * destruct (Z.eqb_spec (Z.of_nat (S (count_occ string_dec kmers k))) 0); [lia|].
        f_equal. lia.
    + assert (Hneq : String.eqb kmer k = false) by (apply String.eqb_neq; exact N).
      destruct (dict_get d kmer); rewrite dict_get_set, Hneq; reflexivity.
Qed.

(** With a non-positive size every position passes the window test. *)
Lemma cut_kmer_every_position read (kmer_size : Z) :
  kmer_size <= 0 ->
  cut_kmer read kmer_size
  = map (fun i : nat => slice read (Z.of_nat i) (Z.of_nat i + kmer_size))
        (seq 0 (String.length read)).
Proof.
  intro Hk. unfold cut_kmer.
  apply (flat_map_all
           (fun i : nat => Z.of_nat i + kmer_size <=? Z.of_nat (String.length read))).
  intros i Hi. apply in_seq in Hi. apply Z.leb_le. lia.
Qed.

End Tabulation.

(** C7 (as amended).  For the reads ["AATCGA"; "ATCGAT"] and k = 3 the
    table is AAT:1, ATC:2, TCG:2, CGA:2, GAT:1, in this insertion order:
    "TCG" occurs once in each read. *)
Theorem build_kmer_dict_two_reads :
  build_kmer_dict Samples.reads2 3
  = [("AAT", 1); ("ATC", 2); ("TCG", 2); ("CGA", 2); ("GAT", 1)]%string.
Proof. vm_compute. reflexivity. Qed.

(** C7, counterexample.  The count of "TCG" in that table is 2, so the
    table is not the one with "TCG":1. *)
Lemma build_kmer_dict_two_reads_TCG :
  dict_get (build_kmer_dict Samples.reads2 3) "TCG" = Some 2
  /\ dict_get (build_kmer_dict Samples.reads2 3) "TCG" <> Some 1.
Proof. split; vm_compute; [reflexivity | discriminate]. Qed.

(** C5.  For every k-mer size [k >= 1] and every list of reads, the counts
    of the table built by [build_kmer_dict] add up to the sum over the
    reads of [max(0, len(read) - k + 1)], and [cut_kmer] yields exactly
    [max(0, L - k + 1)] substrings for a read of length [L]. *)
Theorem kmer_total_count (reads : list string) (kmer_size : Z) :
  1 <= kmer_size ->
  total_count (build_kmer_dict reads kmer_size)
  = fold_right Z.add 0
      (map (fun read => Z.max 0 (Z.of_nat (String.length read) - kmer_size + 1)) reads)
  /\ forall read,
      Z.of_nat (List.length (cut_kmer read kmer_size))
      = Z.max 0 (Z.of_nat (String.length read) - kmer_size + 1).
Proof.
  intro Hk.
  assert (W : forall read,
             Z.of_nat (List.length (cut_kmer read kmer_size))
             = Z.max 0 (Z.of_nat (String.length read) - kmer_size + 1)).
  { intro read. rewrite cut_kmer_count. lia. }
  split; [|exact W].
  rewrite total_count_build. f_equal.
  apply map_ext. exact W.
Qed.

Lemma kmer_total_count_witness :
  total_count (build_kmer_dict Samples.reads2 3) = 8.
Proof.
  rewrite (proj1 (kmer_total_count Samples.reads2 3 ltac:(lia))).
  reflexivity.
Defined.

(** C8, counterexample.  With a non-positive size the tabulation raises
    nothing and returns a table: size 0 counts the empty string once per
    character, size -1 tabulates the slices [read[i:i-1]]. *)
Lemma build_kmer_dict_nonpositive_size_returns :
  build_kmer_dict ["ACG"%string] 0 = [(EmptyString, 3)]
  /\ build_kmer_dict ["ACG"%string] (-1) = [("AC"%string, 1); (EmptyString, 2)].
Proof. split; vm_compute; reflexivity. Qed.

(** C8 (as amended).  When the k-mer size is non-positive the tabulation
    does not fail.  [cut_kmer] yields, in order, the slice
    [read[i:i+kmer_size]] of every position [i] of the read, one per
    position.  [build_kmer_dict] returns the table of these slices: it is
    what counting them one after the other gives, its keys are exactly the
    slices, each with the number of positions that give it, and its counts
    add up to the total length of the reads.  For size 0 its only possible
    key is the empty string. *)
Theorem build_kmer_dict_nonpositive_size (reads : list string) (kmer_size : Z) :
  kmer_size <= 0 ->
  (forall read,
      cut_kmer read kmer_size
      = map (fun i : nat => slice read (Z.of_nat i) (Z.of_nat i + kmer_size))
            (seq 0 (String.length read)))
  /\ (forall read, List.length (cut_kmer read kmer_size) = String.length read)
  /\ build_kmer_dict reads kmer_size
     = fold_left count_kmer (position_slices reads kmer_size) []
  /\ (forall key,
         In key (dict_keys (build_kmer_dict reads kmer_size))
         <-> exists read i,
               In read reads /\ (i < String.length read)%nat
               /\ key = slice read (Z.of_nat i) (Z.of_nat i + kmer_size))
  /\ (forall key,
         dict_get (build_kmer_dict reads kmer_size) key
         = if Z.of_nat (count_occ string_dec (position_slices reads kmer_size) key) =? 0
           then None
           else Some (Z.of_nat (count_occ string_dec (position_slices reads kmer_size) key)))
  /\ total_count (build_kmer_dict reads kmer_size)
     = fold_right Z.add 0 (map (fun read => Z.of_nat (String.length read)) reads)
  /\ (kmer_size = 0 ->
      forall key, In key (dict_keys (build_kmer_dict reads kmer_size)) ->
                  key = EmptyString).
Proof.
  intro Hk.
  pose proof (fun read => cut_kmer_every_position read kmer_size Hk) as E.
  assert (W : forall read, List.length (cut_kmer read kmer_size) = String.length read).
  { intro read. rewrite E, length_map, length_seq. reflexivity. }
  assert (B : build_kmer_dict reads kmer_size
              = fold_left count_kmer (position_slices reads kmer_size) []).
  { unfold build_kmer_dict, position_slices.
    rewrite (fold_left_flat_map count_kmer (fun read => cut_kmer read kmer_size)).
    f_equal. apply flat_map_ext. intro read. apply E. }
  split; [exact E|]. split; [exact W|]. split; [exact B|]. split; [|split; [|split]].
  - intro key. rewrite dict_keys_build. split.
    + intros [read [Hr Hin]]. rewrite E in Hin.
      apply in_map_iff in Hin. destruct Hin as [i [<- Hi]].
      apply in_seq in Hi. exists read, i.
      split; [exact Hr|]. split; [lia | reflexivity].
    + intros [read [i [Hr [Hi ->]]]]. exists read. split; [exact Hr|].
      rewrite E. apply in_map_iff. exists i. split; [reflexivity|].
      apply in_seq. lia.
  - intro key. rewrite B, dict_get_fold. reflexivity.
  - rewrite total_count_build. f_equal.
    apply map_ext. intro read. rewrite W. reflexivity.
  - intros -> key Hkey.
    apply dict_keys_build in Hkey. destruct Hkey as [read [_ Hin]].
    exact (cut_kmer_zero read key Hin).
Qed.

Lemma build_kmer_dict_nonpositive_size_witness :
  cut_kmer "ACG" (-1) = ["AC"%string; EmptyString; EmptyString]
  /\ dict_get (build_kmer_dict ["ACG"; "TT"]%string (-1)) EmptyString = Some 3
  /\ total_count (build_kmer_dict ["ACG"; "TT"]%string (-2)) = 5.
Proof.
  split; [|split].
  - rewrite (proj1 (build_kmer_dict_nonpositive_size [] (-1) ltac:(lia)) "ACG"%string).
    reflexivity.
  - rewrite (proj1 (proj2 (proj2 (proj2 (proj2
               (build_kmer_dict_nonpositive_size ["ACG"; "TT"]%string (-1) ltac:(lia))))))
               EmptyString).
    reflexivity.
  - rewrite (proj1 (proj2 (proj2 (proj2 (proj2 (proj2
               (build_kmer_dict_nonpositive_size ["ACG"; "TT"]%string (-2) ltac:(lia)))))))).
    reflexivity.
Defined.

(* ------------------------------------------------------------------ *)
(** * Properties of the graph builder *)
(* ------------------------------------------------------------------ *)

Section StringFacts.

Lemma string_length_chars (s : string) :
  String.length s = List.length (list_ascii_of_string s).
Proof. induction s as [|c s IH]; simpl; congruence. Qed.

Lemma string_of_chars_app (l1 l2 : list ascii) :
  string_of_list_ascii (l1 ++ l2)
  = (string_of_list_ascii l1 ++ string_of_list_ascii l2)%string.
Proof. induction l1 as [|c l1 IH]; simpl; congruence. Qed.

Lemma chars_snoc (l : list ascii) :
  l <> [] -> exists front c, l = front ++ [c].
Proof.
  intro H. destruct (exists_last H) as [front [c E]]. eauto.
Qed.

Lemma clamp_inside (len i : Z) : 0 <= i <= len -> clamp len i = i.
Proof.
  intro H. unfold clamp.
  destruct (Z.ltb_spec i 0); [lia|].
  destruct (Z.ltb_spec i 0); [lia|].
  destruct (Z.ltb_spec len i); lia.
Qed.

Lemma clamp_from_end (len i : Z) : i < 0 -> 0 <= i + len -> clamp len i = i + len.
Proof.
  intros H1 H2. unfold clamp.
  destruct (Z.ltb_spec i 0); [|lia].
  destruct (Z.ltb_spec (i + len) 0); [lia|].
  destruct (Z.ltb_spec len (i + len)); lia.
Qed.

(** [kmer[0:-1]] is the k-mer without its last character. *)
Lemma slice_drop_last (front : list ascii) (c : ascii) :
  slice (string_of_list_ascii (front ++ [c])) 0 (-1) = string_of_list_ascii front.
Proof.
  unfold slice. rewrite list_ascii_of_string_of_list_ascii.
  rewrite length_app. simpl List.length.
  rewrite (clamp_inside _ 0) by lia. rewrite (clamp_from_end _ (-1)) by lia.
  simpl skipn.
  replace (Z.to_nat (-1 + Z.of_nat (List.length front + 1) - 0))
    with (List.length front + 0)%nat by lia.
  rewrite firstn_app_2. simpl. rewrite app_nil_r. reflexivity.
Qed.

(** [kmer[1:]] is the k-mer without its first character. *)
Lemma slice_drop_first (a : ascii) (s : string) :
  slice_from (String a s) 1 = s.
Proof.
  unfold slice_from, slice.
  rewrite string_length_chars. simpl list_ascii_of_string.
  set (l := list_ascii_of_string s). simpl List.length.
  rewrite !clamp_inside by lia.
  replace (Z.to_nat 1) with 1%nat by reflexivity. simpl skipn.
  replace (Z.to_nat (Z.of_nat (S (List.length l)) - 1)) with (List.length l) by lia.
  rewrite firstn_all. apply string_of_list_ascii_of_string.
Qed.

(** A k-mer of at least two characters is recovered from its two ends:
    [kmer[0:-1] + kmer[1:][-1] == kmer]. *)
Lemma kmer_of_ends (kmer : string) :
  (2 <= String.length kmer)%nat ->
  exists c, last_char (slice_from kmer 1) = Returns c
            /\ add_char (slice kmer 0 (-1)) c = kmer.
Proof.
  intro H.
  destruct kmer as [|a s]; [simpl in H; lia|].
  destruct (chars_snoc (list_ascii_of_string s)) as [front [c E]].
  { destruct s; [simpl in H; lia | discriminate]. }
  exists c. split.
  - rewrite slice_drop_first. unfold last_char. rewrite E, rev_app_distr. reflexivity.
  - rewrite <- (string_of_list_ascii_of_string (String a s)).
    simpl list_ascii_of_string. rewrite E.
    change (a :: front ++ [c]) with ((a :: front) ++ [c]).
    rewrite slice_drop_last. unfold add_char.
    rewrite string_of_chars_app. reflexivity.
Qed.

End StringFacts.

Section GraphBuilder.

Lemma build_graph_snoc (table : dict) (kmer : string) (n : Z) :
  build_graph (table ++ [(kmer, n)])
  = add_edge (build_graph table) (slice kmer 0 (-1)) (slice_from kmer 1) n.
Proof. unfold build_graph. rewrite fold_left_app. reflexivity. Qed.

Lemma ends_injective (k1 k2 : string) :
  (2 <= String.length k1)%nat -> (2 <= String.length k2)%nat ->
  slice k1 0 (-1) = slice k2 0 (-1) -> slice_from k1 1 = slice_from k2 1 ->
  k1 = k2.
Proof.
  intros H1 H2 Ep Es.
  destruct (kmer_of_ends k1 H1) as [c1 [L1 A1]].
  destruct (kmer_of_ends k2 H2) as [c2 [L2 A2]].
  rewrite Es, L2 in L1. injection L1 as <-.
  rewrite <- A1, <- A2, Ep. reflexivity.
Qed.

(** With distinct keys of at least two characters no edge is ever
    overwritten: the edges are those of the entries, in order. *)
Lemma build_graph_edges (table : dict) :
  NoDup (dict_keys table) -> long_keys table ->
  edges (build_graph table) = map entry_edge table.
Proof.
  induction table as [|[kmer n] table IH] using rev_ind; intros ND LK.
  - reflexivity.
  - unfold dict_keys, long_keys, dict_keys in *.
    rewrite map_app in ND, LK. simpl in ND, LK.
    apply Forall_app in LK. destruct LK as [LK Lk].
    apply Forall_inv in Lk.
    assert (NDt : NoDup (map fst table)) by exact (NoDup_app_remove_r _ _ ND).
    assert (Nk : ~ In kmer (map fst table)).
    { apply NoDup_remove_2 in ND. rewrite app_nil_r in ND. exact ND. }
    rewrite build_graph_snoc. unfold add_edge. simpl edges.
    rewrite (IH NDt LK), map_app.
    replace (existsb (same_edge (slice kmer 0 (-1)) (slice_from kmer 1))
                     (map entry_edge table)) with false; [reflexivity|].
    symmetry. apply not_true_is_false. intro E.
    apply existsb_exists in E. destruct E as [e [He Hs]].
    apply in_map_iff in He. destruct He as [[k' n'] [<- Hin]].
    unfold same_edge, entry_edge in Hs. simpl in Hs.
    apply andb_true_iff in Hs. destruct Hs as [Hp Hs].
    apply String.eqb_eq in Hp, Hs.
    apply Nk.
    assert (Lk' : (2 <= String.length k')%nat).
    { rewrite Forall_forall in LK. apply LK. apply in_map_iff.
      exists (k', n'). split; [reflexivity | exact Hin]. }
    rewrite <- (ends_injective k' kmer Lk' Lk Hp Hs).
    apply in_map_iff. exists (k', n'). split; [reflexivity | exact Hin].
Qed.

Lemma dict_get_in (table : dict) (kmer : string) (n : Z) :
  NoDup (dict_keys table) -> In (kmer, n) table -> dict_get table kmer = Some n.
Proof.
  unfold dict_keys.
  induction table as [|[k v] table IH]; intros ND Hin; [destruct Hin|].
  simpl in *. inversion ND as [|? ? Hk NDt]; subst.
  destruct Hin as [E|Hin].
  - injection E as -> ->. rewrite String.eqb_refl. reflexivity.
  - destruct (String.eqb_spec k kmer) as [->|_].
    + exfalso. apply Hk. apply in_map_iff. exists (kmer, n). tauto.
    + apply IH; assumption.
Qed.

(** ** The tables of [build_kmer_dict] meet these conditions *)

Lemma string_of_chars_length (l : list ascii) :
  String.length (string_of_list_ascii l) = List.length l.
Proof. induction l as [|c l IH]; simpl; congruence. Qed.

(** A window that fits in the read has the size asked for. *)
Lemma window_length (read : string) (i kmer_size : Z) :
  0 <= i -> 0 <= kmer_size -> i + kmer_size <= Z.of_nat (String.length read) ->
  String.length (slice read i (i + kmer_size)) = Z.to_nat kmer_size.
Proof.
  intros Hi Hk Hfit. unfold slice.
  rewrite string_length_chars in Hfit.
  rewrite string_of_chars_length, length_firstn, length_skipn.
  rewrite !clamp_inside by lia. lia.
Qed.

Lemma cut_kmer_lengths (read kmer : string) (kmer_size : Z) :
  0 <= kmer_size -> In kmer (cut_kmer read kmer_size) ->
  String.length kmer = Z.to_nat kmer_size.
Proof.
  intros Hk Hin. unfold cut_kmer in Hin.
  apply in_flat_map in Hin. destruct Hin as [i [_ Hin]].
  destruct (Z.leb_spec (Z.of_nat i + kmer_size) (Z.of_nat (String.length read)));
    [|destruct Hin].
  destruct Hin as [<-|[]]. apply window_length; lia.
Qed.

Lemma dict_set_NoDup (d : dict) (key : string) (v : Z) :
  NoDup (dict_keys d) -> NoDup (dict_keys (dict_set d key v)).
Proof.
  induction d as [|[k n] d IH]; intro ND.
  - simpl. constructor; [intros [] | constructor].
  - simpl. destruct (String.eqb_spec k key) as [->|N]; [exact ND|].
    inversion ND as [|? ? Hk NDd]; subst.
    change (NoDup (k :: dict_keys (dict_set d key v))).
    constructor; [|apply IH, NDd].
    intro Hin. apply dict_keys_set in Hin. destruct Hin as [Hin|E]; [|congruence].
    exact (Hk Hin).
Qed.

Lemma fold_count_kmer_NoDup (kmers : list string) (d : dict) :
  NoDup (dict_keys d) -> NoDup (dict_keys (fold_left count_kmer kmers d)).
Proof.
  revert d. induction kmers as [|kmer kmers IH]; intros d ND; [exact ND|].
  simpl. apply IH. unfold count_kmer.
  destruct (dict_get d kmer); apply dict_set_NoDup, ND.
Qed.

(** The keys of a tabulated table are distinct, and for a size of at least
    2 they all have at least two characters. *)
Lemma build_kmer_dict_well_formed (reads : list string) (kmer_size : Z) :
  NoDup (dict_keys (build_kmer_dict reads kmer_size))
  /\ (2 <= kmer_size -> long_keys (build_kmer_dict reads kmer_size)).
Proof.
  split.
  - unfold build_kmer_dict.
    assert (G : forall d, NoDup (dict_keys d) ->
                          NoDup (dict_keys
                                   (fold_left
                                      (fun dico read =>
                                         fold_left count_kmer (cut_kmer read kmer_size) dico)
                                      reads d))).
    { induction reads as [|read reads IH]; intros d ND; [exact ND|].
      simpl. apply IH, fold_count_kmer_NoDup, ND. }
    apply G. constructor.
  - intro Hk. unfold long_keys. apply Forall_forall. intros kmer Hin.
    apply dict_keys_build in Hin. destruct Hin as [read [_ Hin]].
    rewrite (cut_kmer_lengths read kmer kmer_size) by (try exact Hin; lia). lia.
Qed.

End GraphBuilder.

(** C4, counterexample.  The 1-mer table of the read "AC" has the keys "A"
    and "C"; both become the edge from "" to "", so the graph has this one
    edge, whose target has no last character: no k-mer is reconstructed
    from it. *)
Lemma build_graph_one_mers_collapse :
  let table := build_kmer_dict ["AC"%string] 1 in
  table = [("A"%string, 1); ("C"%string, 1)]
  /\ edges (build_graph table) = [(EmptyString, EmptyString, 1)]
  /\ ~ (forall u v w, In (u, v, w) (edges (build_graph table)) ->
        exists c, last_char v = Returns c /\ dict_get table (add_char u c) = Some w).
Proof.
  split; [vm_compute; reflexivity|].
  split; [vm_compute; reflexivity|].
  intro H.
  destruct (H EmptyString EmptyString 1) as [c [Hc _]].
  - vm_compute. left. reflexivity.
  - vm_compute in Hc. discriminate.
Qed.

(** C4 (as amended).  For a k-mer table whose k-mers have at least two
    characters: every edge (u, v) with weight w of the graph built by
    [build_graph] is such that u followed by the last character of v is a
    key of the table, with count w; and every entry of the table has its
    edge, from the k-mer without its last character to the k-mer without
    its first one, weighted by its count. *)
Theorem build_graph_round_trip (table : dict) :
  NoDup (dict_keys table) -> long_keys table ->
  (forall u v w, In (u, v, w) (edges (build_graph table)) ->
     exists c, last_char v = Returns c /\ dict_get table (add_char u c) = Some w)
  /\ (forall kmer n, In (kmer, n) table ->
        In (slice kmer 0 (-1), slice_from kmer 1, n) (edges (build_graph table))).
Proof.
  intros ND LK. rewrite (build_graph_edges table ND LK). split.
  - intros u v w Hin.
    apply in_map_iff in Hin. destruct Hin as [[kmer n] [E Hin]].
    unfold entry_edge in E. simpl in E. injection E as <- <- <-.
    assert (Lk : (2 <= String.length kmer)%nat).
    { unfold long_keys in LK. rewrite Forall_forall in LK. apply LK.
      apply in_map_iff. exists (kmer, n). split; [reflexivity | exact Hin]. }
    destruct (kmer_of_ends kmer Lk) as [c [Hc Ha]].
    exists c. split; [exact Hc|].
    rewrite Ha. apply dict_get_in; assumption.
  - intros kmer n Hin.
    apply in_map_iff. exists (kmer, n). split; [reflexivity | exact Hin].
Qed.

Lemma build_graph_round_trip_witness :
  exists c, last_char "AT" = Returns c
            /\ dict_get (build_kmer_dict Samples.reads2 3) (add_char "AA" c) = Some 1.
Proof.
  assert (ND : NoDup (dict_keys (build_kmer_dict Samples.reads2 3))).
  { vm_compute. repeat (constructor; [simpl; intuition discriminate|]). constructor. }
  assert (LK : long_keys (build_kmer_dict Samples.reads2 3)).
  { vm_compute. repeat (apply Forall_cons; [lia|]). apply Forall_nil. }
  refine (proj1 (build_graph_round_trip _ ND LK) "AA"%string "AT"%string 1 _).
  vm_compute. left. reflexivity.
Defined.

(* ------------------------------------------------------------------ *)
(** * Properties of the statistics and list primitives *)
(* ------------------------------------------------------------------ *)

Section StatisticsFacts.

Local Open Scope Q_scope.
Import Statistics.

Lemma Qsquare_nonneg (d : Q) : 0 <= d * d.
Proof.
  destruct (Qlt_le_dec d 0) as [N|P].
  - setoid_replace (d * d) with ((- d) * (- d)) by ring.
    apply Qmult_le_0_compat; lra.
  - apply Qmult_le_0_compat; exact P.
Qed.

Lemma sum_sq_dev_nonneg (data : list Q) (c : Q) : 0 <= sum_sq_dev data c.
Proof.
  unfold sum_sq_dev.
  induction data as [|x data IH]; simpl.
  - lra.
  - pose proof (Qsquare_nonneg (x - c)). lra.
Qed.

Lemma sum_sq_dev_zero (data : list Q) (c : Q) :
  sum_sq_dev data c <= 0 -> forall x, In x data -> x == c.
Proof.
  unfold sum_sq_dev.
  induction data as [|y data IH]; simpl; intros H x Hin; [destruct Hin|].
  pose proof (Qsquare_nonneg (y - c)) as Hy.
  pose proof (sum_sq_dev_nonneg data c) as Hs. unfold sum_sq_dev in Hs.
  destruct Hin as [<-|Hin].
  - assert (E : (y - c) * (y - c) == 0) by lra.
    apply Qmult_integral in E. lra.
  - apply IH; [lra | exact Hin].
Qed.

Lemma sum_sq_dev_constant (data : list Q) (c : Q) :
  (forall x, In x data -> x == c) -> sum_sq_dev data c == 0.
Proof.
  unfold sum_sq_dev.
  induction data as [|y data IH]; simpl; intro H.
  - reflexivity.
  - rewrite IH by (intros x Hx; apply H; right; exact Hx).
    rewrite (H y) by (left; reflexivity). ring.
Qed.

Lemma count_cons (x : Q) (data : list Q) : count (x :: data) == count data + 1.
Proof.
  unfold count. simpl List.length.
  rewrite Nat2Z.inj_succ. unfold Z.succ. rewrite inject_Z_plus. reflexivity.
Qed.

Lemma count_nonneg (data : list Q) : 0 <= count data.
Proof.
  unfold count. change 0 with (inject_Z 0). rewrite <- Zle_Qle. lia.
Qed.

Lemma count_ge (data : list Q) (n : nat) :
  (n <= List.length data)%nat -> inject_Z (Z.of_nat n) <= count data.
Proof. intro H. unfold count. rewrite <- Zle_Qle. lia. Qed.

Lemma Qsum_constant (data : list Q) (c : Q) :
  (forall x, In x data -> x == c) -> Qsum data == count data * c.
Proof.
  induction data as [|y data IH]; intro H.
  - unfold count. simpl. ring.
  - rewrite count_cons. simpl Qsum.
    rewrite IH by (intros x Hx; apply H; right; exact Hx).
    rewrite (H y) by (left; reflexivity). ring.
Qed.

(** The variance of at least two data points is positive exactly when
    two of them differ. *)
Lemma variance_pos_iff (data : list Q) :
  (2 <= List.length data)%nat ->
  (0 < variance data <-> exists x y, In x data /\ In y data /\ ~ x == y).
Proof.
  intro Hlen.
  pose proof (count_ge data 2 Hlen) as Hc. change (inject_Z (Z.of_nat 2)) with 2 in Hc.
  set (m := Qsum data / count data).
  assert (Hv : 0 < variance data <-> 0 < sum_sq_dev data m).
  { unfold variance. fold m. split; intro H.
    - apply Qnot_le_lt. intro N.
      pose proof (sum_sq_dev_nonneg data m) as P.
      assert (E : sum_sq_dev data m == 0) by lra.
      rewrite E in H. unfold Qdiv in H. rewrite Qmult_0_l in H. lra.
    - apply Qlt_shift_div_l; lra. }
  rewrite Hv. split.
  - intro Hpos.
    destruct data as [|x0 data]; [simpl in Hlen; lia|].
    destruct (Forall_Exists_dec (fun y => y == x0) (fun y => Qeq_dec y x0) (x0 :: data))
      as [Hall|Hex].
    + exfalso. rewrite Forall_forall in Hall.
      assert (Em : m == x0).
      { unfold m. rewrite (Qsum_constant _ x0 Hall). field. lra. }
      assert (E0 : sum_sq_dev (x0 :: data) m == 0).
      { apply sum_sq_dev_constant. intros x Hx. rewrite Em. apply Hall, Hx. }
      lra.
    + apply Exists_exists in Hex. destruct Hex as [y [Hy Ny]].
      exists y, x0. split; [exact Hy|]. split; [left; reflexivity | exact Ny].
  - intros [x [y [Hx [Hy Nxy]]]].
    apply Qnot_le_lt. intro N. apply Nxy.
    rewrite (sum_sq_dev_zero data m N x Hx), (sum_sq_dev_zero data m N y Hy).
    reflexivity.
Qed.

Lemma stdev_gt0_short (data : list Q) :
  (List.length data < 2)%nat -> stdev_gt0 data = Raises StatisticsError.
Proof.
  intro H. unfold stdev_gt0.
  destruct (Nat.ltb_spec (List.length data) 2); [reflexivity | lia].
Qed.

Lemma stdev_gt0_spread (data : list Q) :
  (2 <= List.length data)%nat ->
  (exists x y, In x data /\ In y data /\ ~ x == y) ->
  stdev_gt0 data = Returns true.
Proof.
  intros Hlen H. unfold stdev_gt0.
  destruct (Nat.ltb_spec (List.length data) 2); [lia|].
  apply (variance_pos_iff data Hlen) in H.
  destruct (Qle_bool (variance data) 0) eqn:E; [|reflexivity].
  apply Qle_bool_iff in E. lra.
Qed.

Lemma stdev_gt0_tied (data : list Q) :
  (2 <= List.length data)%nat ->
  (forall x y, In x data -> In y data -> x == y) ->
  stdev_gt0 data = Returns false.
Proof.
  intros Hlen H. unfold stdev_gt0.
  destruct (Nat.ltb_spec (List.length data) 2); [lia|].
  destruct (Qle_bool (variance data) 0) eqn:E; [reflexivity|].
  exfalso.
  assert (P : 0 < variance data).
  { apply Qnot_le_lt. intro N. apply Qle_bool_iff in N. congruence. }
  apply (variance_pos_iff data Hlen) in P.
  destruct P as [x [y [Hx [Hy N]]]]. apply N, H; assumption.
Qed.

(** ** [max] and [index] *)

Lemma fold_max_spec (rest : list Q) (x : Q) :
  let m := fold_left (fun m y => if Qle_bool y m then m else y) rest x in
  In m (x :: rest) /\ forall y, In y (x :: rest) -> y <= m.
Proof.
  revert x. induction rest as [|z rest IH]; intro x; simpl fold_left.
  - split; [left; reflexivity|]. intros y [<-|[]]. lra.
  - destruct (Qle_bool z x) eqn:E.
    + apply Qle_bool_iff in E.
      destruct (IH x) as [Hin Hmax]. split.
      * destruct Hin as [H|H]; [left; exact H | right; right; exact H].
      * intros y [<-|[<-|Hy]].
        -- apply Hmax. left. reflexivity.
        -- pose proof (Hmax x (or_introl eq_refl)). lra.
        -- apply Hmax. right. exact Hy.
    + assert (L : x < z).
      { apply Qnot_le_lt. intro N. apply Qle_bool_iff in N. congruence. }
      destruct (IH z) as [Hin Hmax]. split.
      * right. exact Hin.
      * intros y [<-|[<-|Hy]].
        -- pose proof (Hmax z (or_introl eq_refl)). lra.
        -- apply Hmax. left. reflexivity.
        -- apply Hmax. right. exact Hy.
Qed.

Lemma index_spec (l : list Q) (x : Q) :
  (exists y, In y l /\ y == x) ->
  exists i y, Py.index l x = Returns i /\ nth_error l i = Some y /\ y == x
              /\ forall j z, (j < i)%nat -> nth_error l j = Some z -> ~ z == x.
Proof.
  induction l as [|a l IH]; intros [y [Hin Hy]]; [destruct Hin|].
  simpl Py.index. destruct (Qeq_bool a x) eqn:E.
  - apply Qeq_bool_iff in E. exists O, a.
    repeat split; try assumption. intros j z Hj. lia.
  - assert (N : ~ a == x).
    { intro N. apply Qeq_bool_iff in N. congruence. }
    destruct Hin as [->|Hin]; [contradiction|].
    destruct IH as [i [b [Hi [Hn [Hb Hfirst]]]]]; [exists y; tauto|].
    exists (S i), b. rewrite Hi. simpl.
    repeat split; try assumption.
    intros [|j] z Hj Hz; simpl in Hz.
    + injection Hz as <-. exact N.
    + apply (Hfirst j z); [lia | exact Hz].
Qed.

(** [l.index(max(l))] is the first position of a largest element. *)
Lemma index_of_max (l : list Q) :
  l <> [] ->
  exists m i w, Py.max l = Returns m /\ Py.index l m = Returns i /\ first_max l i w.
Proof.
  intro Hne. destruct l as [|x rest]; [contradiction|].
  destruct (fold_max_spec rest x) as [Hin Hmax].
  set (m := fold_left (fun m y => if Qle_bool y m then m else y) rest x) in *.
  destruct (index_spec (x :: rest) m) as [i [w [Hi [Hn [Hw Hfirst]]]]].
  { exists m. split; [exact Hin | reflexivity]. }
  exists m, i, w. split; [reflexivity|]. split; [exact Hi|].
  split; [exact Hn|]. split.
  - intros y Hy. rewrite Hw. apply Hmax, Hy.
  - intros j z Hj Hz.
    pose proof (Hfirst j z Hj Hz) as N.
    pose proof (Hmax z (nth_error_In _ _ Hz)) as Le.
    rewrite Hw. apply Qnot_le_lt. intro G. apply N. lra.
Qed.

(** ** [del l[i]] *)

Lemma del_item_inside {A : Type} (l : list A) (i : nat) :
  (i < List.length l)%nat -> del_item l i = Returns (losers l i).
Proof.
  revert i. induction l as [|x l IH]; intros i H; [simpl in H; lia|].
  destruct i as [|i]; simpl.
  - reflexivity.
  - rewrite IH by (simpl in H; lia). reflexivity.
Qed.

Lemma del_item_outside {A : Type} (l : list A) (i : nat) :
  (List.length l <= i)%nat -> del_item l i = Raises IndexError.
Proof.
  revert i. induction l as [|x l IH]; intros i H; [reflexivity|].
  destruct i as [|i]; simpl in *; [lia|].
  rewrite IH by lia. reflexivity.
Qed.

Lemma in_losers {A : Type} (l : list A) (i : nat) (p : A) :
  In p (losers l i) <-> exists j, j <> i /\ nth_error l j = Some p.
Proof.
  unfold losers. revert i. induction l as [|x l IH]; intro i.
  - rewrite firstn_nil, skipn_nil. simpl. split; [tauto|].
    intros [j [_ H]]. destruct j; discriminate.
  - destruct i as [|i].
    + simpl. split.
      * intro H. apply In_nth_error in H. destruct H as [j Hj].
        exists (S j). split; [lia | exact Hj].
      * intros [[|j] [N H]]; [lia|]. simpl in H. eapply nth_error_In, H.
    + simpl firstn. simpl skipn. simpl In. rewrite IH. split.
      * intros [<-|[j [N H]]].
        -- exists O. split; [lia | reflexivity].
        -- exists (S j). split; [lia | exact H].
      * intros [[|j] [N H]]; simpl in H.
        -- left. congruence.
        -- right. exists j. split; [lia | exact H].
Qed.

End StatisticsFacts.


(* ------------------------------------------------------------------ *)
(** * Properties of the bubble simplifier *)
(* ------------------------------------------------------------------ *)

Section Removal.

Implicit Types (g : DiGraph) (n m a b : string) (w : Z).

Lemma remove_node_nodes g m n :
  In n (nodes (remove_node g m)) <-> In n (nodes g) /\ n <> m.
Proof.
  unfold remove_node. simpl. rewrite filter_In.
  destruct (String.eqb_spec n m); simpl; intuition congruence.
Qed.

Lemma remove_node_edges g m a b w :
  In (a, b, w) (edges (remove_node g m))
  <-> In (a, b, w) (edges g) /\ a <> m /\ b <> m.
Proof.
  unfold remove_node. simpl. rewrite filter_In.
  destruct (String.eqb_spec a m); destruct (String.eqb_spec b m); simpl;
    intuition congruence.
Qed.

Lemma remove_nodes_from_nodes g (ns : list string) n :
  In n (nodes (remove_nodes_from g ns)) <-> In n (nodes g) /\ ~ In n ns.
Proof.
  unfold remove_nodes_from. revert g.
  induction ns as [|m ns IH]; intro g; simpl.
  - tauto.
  - rewrite IH, remove_node_nodes. intuition congruence.
Qed.

Lemma remove_nodes_from_edges g (ns : list string) a b w :
  In (a, b, w) (edges (remove_nodes_from g ns))
  <-> In (a, b, w) (edges g) /\ ~ In a ns /\ ~ In b ns.
Proof.
  unfold remove_nodes_from. revert g.
  induction ns as [|m ns IH]; intro g; simpl.
  - tauto.
  - rewrite IH, remove_node_edges. intuition congruence.
Qed.

(** [remove_paths] keeps exactly the nodes that no path hits, and the
    edges between them. *)
Lemma remove_paths_nodes g (paths : list (list string)) (entry sink : bool) n :
  In n (nodes (remove_paths g paths entry sink))
  <-> In n (nodes g) /\ ~ hit paths entry sink n.
Proof.
  unfold remove_paths, hit. revert g.
  induction paths as [|p paths IH]; intro g; simpl.
  - split; [|tauto]. intro H. split; [exact H|]. intros [p [[] _]].
  - rewrite IH, remove_nodes_from_nodes. split.
    + intros [[Hn Np] Nh]. split; [exact Hn|].
      intros [q [[<-|Hq] Hin]]; [contradiction|].
      apply Nh. exists q. tauto.
    + intros [Hn Nh]. split; [split; [exact Hn|]|].
      * intro Hin. apply Nh. exists p. tauto.
      * intros [q [Hq Hin]]. apply Nh. exists q. tauto.
Qed.

Lemma remove_paths_edges g (paths : list (list string)) (entry sink : bool) a b w :
  In (a, b, w) (edges (remove_paths g paths entry sink))
  <-> In (a, b, w) (edges g)
      /\ ~ hit paths entry sink a /\ ~ hit paths entry sink b.
Proof.
  unfold remove_paths, hit. revert g.
  induction paths as [|p paths IH]; intro g; simpl.
  - split; [|tauto]. intro H. split; [exact H|].
    split; intros [p [[] _]].
  - rewrite IH, remove_nodes_from_edges. split.
    + intros [[He [Na Nb]] [Ha Hb]]. split; [exact He|].
      split; intros [q [[<-|Hq] Hin]]; try contradiction.
      * apply Ha. exists q. tauto.
      * apply Hb. exists q. tauto.
    + intros [He [Ha Hb]]. repeat split; try exact He.
      * intro Hin. apply Ha. exists p. tauto.
      * intro Hin. apply Hb. exists p. tauto.
      * intros [q [Hq Hin]]. apply Ha. exists q. tauto.
      * intros [q [Hq Hin]]. apply Hb. exists q. tauto.
Qed.

End Removal.

Section Selection.

Local Open Scope Q_scope.

Variable graph : DiGraph.
Variable path_list : list (list string).
Variables path_length weight_avg_list : list Q.
Variables delete_entry_node delete_sink_node : bool.

Lemma spread_two (l : list Q) : spread l -> (2 <= List.length l)%nat.
Proof.
  intros [x [y [Hx [Hy N]]]].
  destruct l as [|a [|b l]]; simpl in *; [tauto | | lia].
  exfalso. apply N.
  destruct Hx as [<-|[]]. destruct Hy as [<-|[]]. reflexivity.
Qed.

(** The two branches that go through [max] and [index]: the path at the
    first position of a largest number is taken off the list, and the
    others are removed from the graph. *)
Lemma delete_first_max (l : list Q) :
  List.length l = List.length path_list -> l <> [] ->
  exists i w best,
    first_max l i w /\ nth_error path_list i = Some best
    /\ (m <- Py.max l ;; i <- Py.index l m ;; del_item path_list i)
       = Returns (losers path_list i).
Proof.
  intros Hlen Hne.
  destruct (index_of_max l Hne) as [m [i [w [Hm [Hi Hfm]]]]].
  assert (Hlt : (i < List.length path_list)%nat).
  { rewrite <- Hlen. apply nth_error_Some. destruct Hfm as [E _]. congruence. }
  destruct (nth_error path_list i) as [best|] eqn:Hb;
    [|apply nth_error_None in Hb; lia].
  exists i, w, best. split; [exact Hfm|]. split; [exact Hb|].
  rewrite Hm. simpl. rewrite Hi. simpl. apply del_item_inside, Hlt.
Qed.

Lemma select_by_weight (draw : nat) :
  List.length weight_avg_list = List.length path_list ->
  spread weight_avg_list ->
  exists i w best,
    first_max weight_avg_list i w /\ nth_error path_list i = Some best
    /\ select_best_path graph path_list path_length weight_avg_list
                        delete_entry_node delete_sink_node draw
       = Returns (remove_paths graph (losers path_list i)
                               delete_entry_node delete_sink_node).
Proof.
  intros Hlen Hs.
  pose proof (spread_two _ Hs) as H2.
  destruct (delete_first_max weight_avg_list Hlen) as [i [w [best [Hfm [Hb Hd]]]]].
  { intro E. rewrite E in H2. simpl in H2. lia. }
  exists i, w, best. split; [exact Hfm|]. split; [exact Hb|].
  unfold select_best_path, std_gt0.
  rewrite (stdev_gt0_spread _ H2 Hs). simpl.
  rewrite Hd. reflexivity.
Qed.

Lemma select_by_length (draw : nat) :
  List.length weight_avg_list = List.length path_list ->
  List.length path_length = List.length path_list ->
  tied weight_avg_list -> spread path_length ->
  exists i w best,
    first_max path_length i w /\ nth_error path_list i = Some best
    /\ select_best_path graph path_list path_length weight_avg_list
                        delete_entry_node delete_sink_node draw
       = Returns (remove_paths graph (losers path_list i)
                               delete_entry_node delete_sink_node).
Proof.
  intros Hw Hl Ht Hs.
  pose proof (spread_two _ Hs) as H2.
  destruct (delete_first_max path_length Hl) as [i [w [best [Hfm [Hb Hd]]]]].
  { intro E. rewrite E in H2. simpl in H2. lia. }
  exists i, w, best. split; [exact Hfm|]. split; [exact Hb|].
  unfold select_best_path, std_gt0.
  rewrite (stdev_gt0_tied weight_avg_list) by (try exact Ht; lia).
  simpl.
  rewrite (stdev_gt0_spread _ H2 Hs). simpl.
  rewrite Hd. reflexivity.
Qed.

Lemma select_by_draw (draw : nat) :
  List.length weight_avg_list = List.length path_list ->
  List.length path_length = List.length path_list ->
  (2 <= List.length path_list)%nat ->
  tied weight_avg_list -> tied path_length ->
  select_best_path graph path_list path_length weight_avg_list
                   delete_entry_node delete_sink_node draw
  = (path_list <- del_item path_list draw ;;
     Returns (remove_paths graph path_list delete_entry_node delete_sink_node)).
Proof.
  intros Hw Hl H2 Tw Tl.
  unfold select_best_path, std_gt0.
  rewrite (stdev_gt0_tied weight_avg_list) by (try exact Tw; lia).
  simpl.
  rewrite (stdev_gt0_tied path_length) by (try exact Tl; lia).
  reflexivity.
Qed.

Lemma select_short (draw : nat) :
  (List.length weight_avg_list < 2)%nat ->
  select_best_path graph path_list path_length weight_avg_list
                   delete_entry_node delete_sink_node draw
  = Raises StatisticsError.
Proof.
  intro H. unfold select_best_path, std_gt0.
  rewrite (stdev_gt0_short _ H). reflexivity.
Qed.

End Selection.

(** C3, counterexample.  The two simple paths from "S" to "T" of
    [Samples.shared_stem] have average weights 5 and 7/3 and both go
    through "B".  Removing the lighter one deletes its interior nodes "B"
    and "E": the heavier path loses "B" and with it its first two edges. *)
Lemma select_best_path_breaks_winner :
  all_simple_paths Samples.shared_stem "S" "T" = Returns [Samples.heavy; Samples.light]
  /\ comprehension (path_average_weight Samples.shared_stem) [Samples.heavy; Samples.light]
     = Returns [5; 7 # 3]%Q
  /\ select_best_path Samples.shared_stem [Samples.heavy; Samples.light]
                      [4; 4]%Q [5; 7 # 3]%Q false false 0
     = Returns (mkDiGraph ["S"; "C"; "T"]%string [("C", "T", 5)]%string)
  /\ In "B"%string Samples.heavy.
Proof.
  repeat split; try (vm_compute; reflexivity).
  right. left. reflexivity.
Qed.

(** C3 (as amended).  When the average weights of the candidates have
    non-zero variance, [select_best_path] keeps the candidate at the first
    position of largest average weight and hands all the others to
    [remove_paths].  The graph it returns has exactly the nodes of the
    input graph that are not trimmed off another candidate (with the
    default flags: that are not interior nodes of another candidate) and
    the edges between them.  Hence every interior node of a losing path is
    removed, and the kept path survives with all its nodes and edges when
    none of its nodes is hit by another candidate. *)
Theorem select_best_path_by_weight
        (graph : DiGraph) (path_list : list (list string))
        (path_length weight_avg_list : list Q)
        (delete_entry_node delete_sink_node : bool) (draw : nat) :
  List.length weight_avg_list = List.length path_list ->
  spread weight_avg_list ->
  exists i w best graph',
    first_max weight_avg_list i w /\ nth_error path_list i = Some best
    /\ select_best_path graph path_list path_length weight_avg_list
                        delete_entry_node delete_sink_node draw
       = Returns graph'
    /\ (forall n, In n (nodes graph')
                  <-> In n (nodes graph)
                      /\ ~ hit (losers path_list i) delete_entry_node delete_sink_node n)
    /\ (forall a b c, In (a, b, c) (edges graph')
                      <-> In (a, b, c) (edges graph)
                          /\ ~ hit (losers path_list i) delete_entry_node delete_sink_node a
                          /\ ~ hit (losers path_list i) delete_entry_node delete_sink_node b)
    /\ ((forall n, In n best ->
                   ~ hit (losers path_list i) delete_entry_node delete_sink_node n) ->
        (forall n, In n best -> In n (nodes graph) -> In n (nodes graph'))
        /\ (forall a b c, In a best -> In b best -> In (a, b, c) (edges graph) ->
                          In (a, b, c) (edges graph'))).
Proof.
  intros Hlen Hs.
  destruct (select_by_weight graph path_list path_length weight_avg_list
                             delete_entry_node delete_sink_node draw Hlen Hs)
    as [i [w [best [Hfm [Hb Hsel]]]]].
  exists i, w, best,
    (remove_paths graph (losers path_list i) delete_entry_node delete_sink_node).
  split; [exact Hfm|]. split; [exact Hb|]. split; [exact Hsel|].
  split; [intro n; apply remove_paths_nodes|].
  split; [intros a b c; apply remove_paths_edges|].
  intro Hfree. split.
  - intros n Hn Hg. apply remove_paths_nodes. split; [exact Hg | apply Hfree, Hn].
  - intros a b c Ha Hb' He. apply remove_paths_edges.
    split; [exact He|]. split; apply Hfree; assumption.
Qed.

Lemma select_best_path_by_weight_witness :
  exists i w best graph',
    first_max [1; 1; 2]%Q i w
    /\ nth_error [Samples.twin_a; Samples.twin_b; ["S"; "T"]%string] i = Some best
    /\ select_best_path Samples.twins [Samples.twin_a; Samples.twin_b; ["S"; "T"]%string]
                        [3; 3; 2]%Q [1; 1; 2]%Q false false 0
       = Returns graph'.
Proof.
  destruct (select_best_path_by_weight
              Samples.twins [Samples.twin_a; Samples.twin_b; ["S"; "T"]%string]
              [3; 3; 2]%Q [1; 1; 2]%Q false false 0)
    as [i [w [best [graph' [H1 [H2 [H3 _]]]]]]].
  - reflexivity.
  - exists 1%Q, 2%Q. simpl. split; [tauto|]. split; [tauto|]. intro H. discriminate H.
  - exists i, w, best, graph'. tauto.
Defined.

(** C1, counterexample.  The two arms of [Samples.bubble_3_5] have the
    same average weight 1 and 3 and 5 nodes.  [select_best_path] deletes
    "A", the interior node of the arm of 3 nodes, and leaves the arm of 5
    nodes whole. *)
Lemma select_best_path_removes_shorter_arm :
  all_simple_paths Samples.bubble_3_5 "S" "T" = Returns [Samples.arm3; Samples.arm5]
  /\ comprehension (path_average_weight Samples.bubble_3_5) [Samples.arm3; Samples.arm5]
     = Returns [1; 1]%Q
  /\ select_best_path Samples.bubble_3_5 [Samples.arm3; Samples.arm5]
                      [3; 5]%Q [1; 1]%Q false false 0
     = Returns (mkDiGraph
                  ["S"; "T"; "B1"; "B2"; "B3"]%string
                  [("S", "B1", 1); ("B1", "B2", 1); ("B2", "B3", 1); ("B3", "T", 1)]%string).
Proof. repeat split; vm_compute; reflexivity. Qed.

(** C1 (as amended).  When all candidates have the same average weight
    and their lengths have non-zero variance, [select_best_path] keeps the
    candidate at the first position of largest length, that is a longest
    path, and hands all the others to [remove_paths]: the graph it returns
    has exactly the nodes of the input graph that are not trimmed off
    another candidate, and the edges between them.  Of two arms of equal
    average weight with 3 and 5 nodes, the one of 3 nodes is removed. *)
Theorem select_best_path_by_length
        (graph : DiGraph) (path_list : list (list string))
        (path_length weight_avg_list : list Q)
        (delete_entry_node delete_sink_node : bool) (draw : nat) :
  List.length weight_avg_list = List.length path_list ->
  List.length path_length = List.length path_list ->
  tied weight_avg_list -> spread path_length ->
  exists i w best graph',
    first_max path_length i w /\ nth_error path_list i = Some best
    /\ select_best_path graph path_list path_length weight_avg_list
                        delete_entry_node delete_sink_node draw
       = Returns graph'
    /\ (forall n, In n (nodes graph')
                  <-> In n (nodes graph)
                      /\ ~ hit (losers path_list i) delete_entry_node delete_sink_node n)
    /\ (forall a b c, In (a, b, c) (edges graph')
                      <-> In (a, b, c) (edges graph)
                          /\ ~ hit (losers path_list i) delete_entry_node delete_sink_node a
                          /\ ~ hit (losers path_list i) delete_entry_node delete_sink_node b).
Proof.
  intros Hw Hl Ht Hs.
  destruct (select_by_length graph path_list path_length weight_avg_list
                             delete_entry_node delete_sink_node draw Hw Hl Ht Hs)
    as [i [w [best [Hfm [Hb Hsel]]]]].
  exists i, w, best,
    (remove_paths graph (losers path_list i) delete_entry_node delete_sink_node).
  split; [exact Hfm|]. split; [exact Hb|]. split; [exact Hsel|].
  split; [intro n; apply remove_paths_nodes | intros a b c; apply remove_paths_edges].
Qed.

Lemma select_best_path_by_length_witness :
  exists i w best graph',
    first_max [3; 5]%Q i w
    /\ nth_error [Samples.arm3; Samples.arm5] i = Some best
    /\ select_best_path Samples.bubble_3_5 [Samples.arm3; Samples.arm5]
                        [3; 5]%Q [1; 1]%Q false false 0
       = Returns graph'.
Proof.
  destruct (select_best_path_by_length
              Samples.bubble_3_5 [Samples.arm3; Samples.arm5]
              [3; 5]%Q [1; 1]%Q false false 0)
    as [i [w [best [graph' [H1 [H2 [H3 _]]]]]]].
  - reflexivity.
  - reflexivity.
  - intros x y [<-|[<-|[]]] [<-|[<-|[]]]; reflexivity.
  - exists 3%Q, 5%Q. simpl. split; [tauto|]. split; [tauto|]. intro H. discriminate H.
  - exists i, w, best, graph'. tauto.
Defined.

(** C9.  When the candidates are tied on average weight and on length,
    [select_best_path] deletes position [draw] of the candidate list,
    where [draw] is what [randint(0, len(path_list))] returned.  A draw
    below [len(path_list)] keeps that candidate and removes the others;
    but [randint] includes its upper bound, and on the draw
    [len(path_list)] the deletion raises IndexError. *)
Theorem select_best_path_random_draw
        (graph : DiGraph) (path_list : list (list string))
        (path_length weight_avg_list : list Q)
        (delete_entry_node delete_sink_node : bool) (draw : nat) :
  List.length weight_avg_list = List.length path_list ->
  List.length path_length = List.length path_list ->
  (2 <= List.length path_list)%nat ->
  tied weight_avg_list -> tied path_length ->
  ((draw < List.length path_list)%nat ->
   select_best_path graph path_list path_length weight_avg_list
                    delete_entry_node delete_sink_node draw
   = Returns (remove_paths graph (losers path_list draw)
                           delete_entry_node delete_sink_node))
  /\ (draw = List.length path_list ->
      randint_range 0 (List.length path_list) draw
      /\ select_best_path graph path_list path_length weight_avg_list
                          delete_entry_node delete_sink_node draw
         = Raises IndexError).
Proof.
  intros Hw Hl H2 Tw Tl.
  rewrite (select_by_draw graph path_list path_length weight_avg_list
                          delete_entry_node delete_sink_node draw Hw Hl H2 Tw Tl).
  split.
  - intro Hlt. rewrite (del_item_inside path_list draw Hlt). reflexivity.
  - intros ->. split; [unfold randint_range; lia|].
    rewrite del_item_outside by lia. reflexivity.
Qed.

Lemma select_best_path_random_draw_witness :
  randint_range 0 2 2
  /\ select_best_path Samples.twins [Samples.twin_a; Samples.twin_b]
                      [3; 3]%Q [1; 1]%Q false false 2
     = Raises IndexError.
Proof.
  apply (select_best_path_random_draw
           Samples.twins [Samples.twin_a; Samples.twin_b] [3; 3]%Q [1; 1]%Q
           false false 2).
  - reflexivity.
  - reflexivity.
  - simpl. lia.
  - intros x y [<-|[<-|[]]] [<-|[<-|[]]]; reflexivity.
  - intros x y [<-|[<-|[]]] [<-|[<-|[]]]; reflexivity.
  - reflexivity.
Defined.

Lemma path_average_weight_raises (graph : DiGraph) (path : list string) (e : exn) :
  path_average_weight graph path = Raises e -> e = StatisticsError.
Proof.
  unfold path_average_weight, Statistics.mean.
  destruct (map _ _); intro H; [congruence | discriminate].
Qed.

(** C10, counterexample.  The standard deviation is taken over the
    weight list, not over the candidate list: called with one candidate
    path and two weights, [select_best_path] raises nothing; it deletes the
    only candidate from the list and returns the graph. *)
Lemma select_best_path_one_path_two_weights :
  select_best_path Samples.linear [["AAT"; "ATC"; "TCG"]%string] [3]%Q [2; 1]%Q
                   false false 0
  = Returns Samples.linear.
Proof. vm_compute. reflexivity. Qed.

(** C10 (as amended).  [select_best_path] raises StatisticsError, from the
    standard deviation of the weight list, instead of returning a graph,
    for any call whose weight list has fewer than two numbers, whatever the
    candidate list; [solve_bubble] computes one weight per candidate, so it
    raises StatisticsError whenever the enumeration of the simple paths
    yields fewer than two paths: such a bubble cannot be resolved. *)
Theorem select_best_path_needs_two_paths :
  (forall (graph : DiGraph) (path_list : list (list string))
          (path_length weight_avg_list : list Q)
          (delete_entry_node delete_sink_node : bool) (draw : nat),
      (List.length weight_avg_list < 2)%nat ->
      select_best_path graph path_list path_length weight_avg_list
                       delete_entry_node delete_sink_node draw
      = Raises StatisticsError)
  /\ (forall (graph : DiGraph) (ancestor_node descendant_node : string) (draw : nat)
             (paths : list (list string)),
         all_simple_paths graph ancestor_node descendant_node = Returns paths ->
         (List.length paths < 2)%nat ->
         solve_bubble graph ancestor_node descendant_node draw = Raises StatisticsError).
Proof.
  split.
  - intros graph path_list path_length weight_avg_list den dsn draw Hlt.
    apply select_short. exact Hlt.
  - intros graph a d draw paths Hp Hlt. unfold solve_bubble. rewrite Hp. simpl.
    destruct paths as [|p [|q rest]]; [| |simpl in Hlt; lia].
    + reflexivity.
    + simpl. destruct (path_average_weight graph p) as [w|e] eqn:E; simpl.
      * reflexivity.
      * rewrite (path_average_weight_raises graph p e E). reflexivity.
Qed.

Lemma select_best_path_needs_two_paths_witness :
  solve_bubble Samples.linear "AAT" "TCG" 0 = Raises StatisticsError.
Proof.
  apply (proj2 select_best_path_needs_two_paths
               Samples.linear "AAT"%string "TCG"%string 0%nat
               [["AAT"; "ATC"; "TCG"]%string]).
  - reflexivity.
  - simpl. lia.
Defined.

(** C2.  On the graph of the 3-mers of the reads "CAAT", "CAT", "CAT",
    "CAT", the simple path "CA" -> "AA" -> "AT" has two edges, both of
    weight 1, so the mean of its edges is 1; [path_average_weight] also
    counts the edge "CA" -> "AT" of weight 3, which links the two ends of
    the path, and returns 5/3. *)
Theorem path_average_weight_counts_chord :
  all_simple_paths Samples.chord "CA" "AT"
  = Returns [Samples.chord_path; ["CA"; "AT"]%string]
  /\ path_average_weight Samples.chord Samples.chord_path = Returns (5 # 3)%Q
  /\ spec_path_weight Samples.chord Samples.chord_path = Returns 1%Q.
Proof. repeat split; vm_compute; reflexivity. Qed.

(* ------------------------------------------------------------------ *)
(** * Properties of the contig extractor *)
(* ------------------------------------------------------------------ *)

Section Contigs.

Variable graph : DiGraph.

(** Every edge of the graph ends on a node of at least one character. *)
Hypothesis targets_nonempty :
  forall u v w, In (u, v, w) (edges graph) -> v <> EmptyString.

Lemma for_each_cons {A S : Type} (x : A) (rest : list A)
      (body : S -> A -> result S) (acc : S) :
  for_each (x :: rest) body acc = Py.bind (body acc x) (for_each rest body).
Proof. reflexivity. Qed.

Lemma string_app_empty (s : string) : (s ++ EmptyString)%string = s.
Proof. induction s as [|c s IH]; simpl; congruence. Qed.

Lemma string_app_assoc (s1 s2 s3 : string) :
  ((s1 ++ s2) ++ s3)%string = (s1 ++ s2 ++ s3)%string.
Proof. induction s1 as [|c s1 IH]; simpl; congruence. Qed.

Lemma concat_empty_cons (x : string) (xs : list string) :
  String.concat EmptyString (x :: xs)
  = (x ++ String.concat EmptyString xs)%string.
Proof.
  destruct xs as [|y ys]; simpl.
  - symmetry. apply string_app_empty.
  - reflexivity.
Qed.

(** [node[-1]] and [node[-1:]] of a node with a last character. *)
Lemma last_of_nonempty (node : string) :
  node <> EmptyString ->
  exists c, last_char node = Returns c /\ last_of node = String c EmptyString.
Proof.
  intro Hne.
  destruct (chars_snoc (list_ascii_of_string node)) as [front [c E]].
  { destruct node; [contradiction | discriminate]. }
  exists c. split.
  - unfold last_char. rewrite E, rev_app_distr. reflexivity.
  - unfold last_of, slice_from, slice.
    rewrite string_length_chars, E, length_app. simpl List.length.
    rewrite (clamp_from_end _ (-1)) by lia.
    rewrite clamp_inside by lia.
    replace (Z.to_nat (-1 + Z.of_nat (List.length front + 1)))
      with (List.length front + 0)%nat by lia.
    rewrite skipn_app, skipn_all2 by lia.
    replace (List.length front + 0 - List.length front)%nat with 0%nat by lia.
    simpl skipn. simpl app.
    replace (Z.to_nat (Z.of_nat (List.length front + 1)
                       - (-1 + Z.of_nat (List.length front + 1))))
      with 1%nat by lia.
    reflexivity.
Qed.

(** The loop of [get_contigs] over the nodes after the first. *)
Lemma contig_loop (rest : list string) (cont : string) :
  Forall (fun node => node <> EmptyString) rest ->
  for_each rest (fun cont node => c <- last_char node ;; Returns (add_char cont c)) cont
  = Returns (cont ++ String.concat EmptyString (map last_of rest))%string.
Proof.
  revert cont. induction rest as [|node rest IH]; intros cont H.
  - simpl. rewrite string_app_empty. reflexivity.
  - inversion H as [|? ? Hn Hrest]; subst.
    destruct (last_of_nonempty node Hn) as [c [Hc Hl]].
    simpl for_each. rewrite Hc. simpl bind.
    rewrite (IH _ Hrest). simpl map.
    rewrite concat_empty_cons, Hl. unfold add_char.
    rewrite string_app_assoc. reflexivity.
Qed.

Lemma contig_of_path_spec (first : string) (rest : list string) :
  Forall (fun node => node <> EmptyString) rest ->
  contig_of_path (first :: rest) = Returns (spec_contig (first :: rest)).
Proof. intro H. unfold contig_of_path, spec_contig. apply contig_loop, H. Qed.

Lemma successors_nonempty (cur child : string) :
  In child (successors graph cur) -> child <> EmptyString.
Proof.
  unfold successors. rewrite in_map_iff.
  intros [[[u v] w] [E Hin]]. simpl in E. subst v.
  apply filter_In in Hin. destruct Hin as [Hin _].
  exact (targets_nonempty u child w Hin).
Qed.

(** A path of the search extends the current path by nodes that edges
    lead to. *)
Lemma dfs_shape (target : string) (fuel : nat) :
  forall (visited : list string) (cur : string) (path : list string),
    In path (dfs graph target fuel visited cur) ->
    exists ext, path = rev visited ++ ext
                /\ Forall (fun node => node <> EmptyString) ext.
Proof.
  induction fuel as [|fuel IH]; intros visited cur path Hin; simpl in Hin;
    apply in_flat_map in Hin; destruct Hin as [child [Hc Hin]];
    pose proof (successors_nonempty cur child Hc) as Hne;
    destruct (mem child visited); try (destruct Hin; fail);
    destruct (String.eqb child target).
  - destruct Hin as [<-|[]]. exists [child]. simpl. split; [reflexivity|].
    constructor; [exact Hne | constructor].
  - destruct Hin.
  - destruct Hin as [<-|[]]. exists [child]. simpl. split; [reflexivity|].
    constructor; [exact Hne | constructor].
  - destruct (IH _ _ _ Hin) as [ext [E F]].
    exists (child :: ext). split.
    + rewrite E. simpl. rewrite <- app_assoc. reflexivity.
    + constructor; assumption.
Qed.

Lemma simple_paths_shape (source target : string) (path : list string) :
  In path (simple_paths graph source target) ->
  exists rest, path = source :: rest
               /\ Forall (fun node => node <> EmptyString) rest.
Proof.
  unfold simple_paths. intro Hin.
  destruct (String.eqb source target); [destruct Hin|].
  destruct (List.length (nodes graph)) as [|[|fuel]]; try (destruct Hin; fail).
  destruct (dfs_shape _ _ _ _ _ Hin) as [ext [E F]].
  exists ext. split; [exact E | exact F].
Qed.

Lemma contigs_of_paths (paths : list (list string)) (contigs_list : list (string * nat))
      (source target : string) :
  incl paths (simple_paths graph source target) ->
  for_each paths
    (fun contigs_list path =>
       cont <- contig_of_path path ;;
       Returns (contigs_list ++ [(cont, String.length cont)]))
    contigs_list
  = Returns (contigs_list ++ map emitted paths).
Proof.
  revert contigs_list.
  induction paths as [|path paths IH]; intros contigs_list Hincl.
  - simpl. rewrite app_nil_r. reflexivity.
  - destruct (simple_paths_shape source target path) as [rest [-> F]].
    { apply Hincl. left. reflexivity. }
    rewrite for_each_cons. rewrite (contig_of_path_spec _ _ F). simpl bind.
    rewrite IH by (intros p Hp; apply Hincl; right; exact Hp).
    rewrite <- app_assoc. reflexivity.
Qed.

Lemma mem_In (n : string) (l : list string) : In n l -> mem n l = true.
Proof.
  intro H. unfold mem. apply existsb_exists.
  exists n. split; [exact H | apply String.eqb_refl].
Qed.

Lemma all_simple_paths_nodes (source target : string) :
  In source (nodes graph) -> In target (nodes graph) ->
  all_simple_paths graph source target = Returns (simple_paths graph source target).
Proof.
  intros Hs Ht. unfold all_simple_paths.
  rewrite (mem_In _ _ Hs), (mem_In _ _ Ht). reflexivity.
Qed.

Lemma contigs_of_sinks (start : string) (ending_nodes : list string)
      (contigs_list : list (string * nat)) :
  In start (nodes graph) -> incl ending_nodes (nodes graph) ->
  for_each ending_nodes
    (fun contigs_list end_ =>
       paths <- all_simple_paths graph start end_ ;;
       for_each paths
         (fun contigs_list path =>
            cont <- contig_of_path path ;;
            Returns (contigs_list ++ [(cont, String.length cont)]))
         contigs_list)
    contigs_list
  = Returns (contigs_list
             ++ map emitted (flat_map (simple_paths graph start) ending_nodes)).
Proof.
  intros Hs. revert contigs_list.
  induction ending_nodes as [|e ends IH]; intros contigs_list Hincl.
  - simpl. rewrite app_nil_r. reflexivity.
  - rewrite for_each_cons.
    rewrite all_simple_paths_nodes by (try exact Hs; apply Hincl; left; reflexivity).
    simpl bind.
    rewrite (contigs_of_paths _ _ start e) by (intros p Hp; exact Hp).
    simpl bind.
    rewrite IH by (intros n Hn; apply Hincl; right; exact Hn).
    simpl flat_map. rewrite map_app, <- app_assoc. reflexivity.
Qed.

Lemma contigs_of_sources (starting_nodes ending_nodes : list string)
      (contigs_list : list (string * nat)) :
  incl starting_nodes (nodes graph) -> incl ending_nodes (nodes graph) ->
  for_each starting_nodes
    (fun contigs_list start =>
       for_each ending_nodes
         (fun contigs_list end_ =>
            paths <- all_simple_paths graph start end_ ;;
            for_each paths
              (fun contigs_list path =>
                 cont <- contig_of_path path ;;
                 Returns (contigs_list ++ [(cont, String.length cont)]))
              contigs_list)
         contigs_list)
    contigs_list
  = Returns (contigs_list
             ++ map emitted
                  (flat_map (fun start => flat_map (simple_paths graph start) ending_nodes)
                            starting_nodes)).
Proof.
  intros Hst Hen. revert contigs_list.
  induction starting_nodes as [|s starts IH]; intro contigs_list.
  - simpl. rewrite app_nil_r. reflexivity.
  - rewrite for_each_cons.
    rewrite contigs_of_sinks by (try exact Hen; apply Hst; left; reflexivity).
    simpl bind.
    rewrite IH by (intros n Hn; apply Hst; right; exact Hn).
    simpl flat_map. rewrite map_app, <- app_assoc. reflexivity.
Qed.

End Contigs.

Section ContigsReturned.

Variable graph : DiGraph.

Lemma last_char_returns (node : string) (c : ascii) :
  last_char node = Returns c -> last_of node = String c EmptyString.
Proof.
  intro H.
  destruct (last_of_nonempty node) as [c' [Hc Hl]].
  - intros ->. discriminate H.
  - rewrite Hc in H. injection H as <-. exact Hl.
Qed.

Lemma contig_loop_returns (rest : list string) (cont r : string) :
  for_each rest (fun cont node => c <- last_char node ;; Returns (add_char cont c)) cont
  = Returns r ->
  r = (cont ++ String.concat EmptyString (map last_of rest))%string.
Proof.
  revert cont. induction rest as [|node rest IH]; intros cont H.
  - simpl in H. injection H as <-. rewrite string_app_empty. reflexivity.
  - rewrite for_each_cons in H.
    destruct (last_char node) as [c|e] eqn:Hc; [|discriminate H].
    simpl Py.bind in H. rewrite (IH _ H). simpl map.
    rewrite concat_empty_cons, (last_char_returns node c Hc). unfold add_char.
    apply string_app_assoc.
Qed.

Lemma contig_of_path_returns (path : list string) (cont : string) :
  contig_of_path path = Returns cont -> cont = spec_contig path.
Proof.
  destruct path as [|first rest]; [discriminate|].
  apply contig_loop_returns.
Qed.

Lemma contigs_of_paths_returns (paths : list (list string))
      (contigs_list r : list (string * nat)) :
  for_each paths
    (fun contigs_list path =>
       cont <- contig_of_path path ;;
       Returns (contigs_list ++ [(cont, String.length cont)]))
    contigs_list
  = Returns r ->
  r = contigs_list ++ map emitted paths.
Proof.
  revert contigs_list.
  induction paths as [|path paths IH]; intros contigs_list H.
  - simpl in H. injection H as <-. rewrite app_nil_r. reflexivity.
  - rewrite for_each_cons in H.
    destruct (contig_of_path path) as [cont|e] eqn:Hc; [|discriminate H].
    simpl Py.bind in H. rewrite (IH _ H).
    rewrite (contig_of_path_returns path cont Hc).
    rewrite <- app_assoc. reflexivity.
Qed.

Lemma all_simple_paths_returns (source target : string) (paths : list (list string)) :
  all_simple_paths graph source target = Returns paths ->
  paths = simple_paths graph source target.
Proof.
  unfold all_simple_paths.
  destruct (negb (mem source (nodes graph))); [discriminate|].
  destruct (negb (mem target (nodes graph))); [discriminate|].
  intro H. injection H as <-. reflexivity.
Qed.

Lemma contigs_of_sinks_returns (start : string) (ending_nodes : list string)
      (contigs_list r : list (string * nat)) :
  for_each ending_nodes
    (fun contigs_list end_ =>
       paths <- all_simple_paths graph start end_ ;;
       for_each paths
         (fun contigs_list path =>
            cont <- contig_of_path path ;;
            Returns (contigs_list ++ [(cont, String.length cont)]))
         contigs_list)
    contigs_list
  = Returns r ->
  r = contigs_list ++ map emitted (flat_map (simple_paths graph start) ending_nodes).
Proof.
  revert contigs_list.
  induction ending_nodes as [|e ends IH]; intros contigs_list H.
  - simpl in H. injection H as <-. rewrite app_nil_r. reflexivity.
  - rewrite for_each_cons in H.
    destruct (all_simple_paths graph start e) as [paths|x] eqn:Hp; [|discriminate H].
    simpl Py.bind in H.
    match type of H with
    | Py.bind ?inner _ = _ => destruct inner as [acc|x] eqn:Hacc; [|discriminate H]
    end.
    simpl Py.bind in H. rewrite (IH _ H).
    rewrite (contigs_of_paths_returns _ _ _ Hacc).
    rewrite (all_simple_paths_returns _ _ _ Hp).
    simpl flat_map. rewrite map_app, <- app_assoc. reflexivity.
Qed.

(** Whenever [get_contigs] returns, it has emitted the contig of every
    simple path between the sources and the sinks, in order. *)
Lemma get_contigs_returns (starting_nodes ending_nodes : list string)
      (contigs_list r : list (string * nat)) :
  for_each starting_nodes
    (fun contigs_list start =>
       for_each ending_nodes
         (fun contigs_list end_ =>
            paths <- all_simple_paths graph start end_ ;;
            for_each paths
              (fun contigs_list path =>
                 cont <- contig_of_path path ;;
                 Returns (contigs_list ++ [(cont, String.length cont)]))
              contigs_list)
         contigs_list)
    contigs_list
  = Returns r ->
  r = contigs_list
      ++ map emitted
           (flat_map (fun start => flat_map (simple_paths graph start) ending_nodes)
                     starting_nodes).
Proof.
  revert contigs_list.
  induction starting_nodes as [|s starts IH]; intros contigs_list H.
  - simpl in H. injection H as <-. rewrite app_nil_r. reflexivity.
  - rewrite for_each_cons in H.
    match type of H with
    | Py.bind ?inner _ = _ => destruct inner as [acc|x] eqn:Hacc; [|discriminate H]
    end.
    simpl Py.bind in H. rewrite (IH _ H).
    rewrite (contigs_of_sinks_returns _ _ _ _ Hacc).
    simpl flat_map. rewrite map_app, <- app_assoc. reflexivity.
Qed.

End ContigsReturned.

(** C6.  Whenever [get_contigs] returns, it has emitted, for the simple
    paths between each source and each sink in source-then-sink order, the
    contig made of the first node of the path in full followed by the last
    character of every later node, paired with the length of that string.
    It does return when the edges of the graph all end on nodes of at
    least one character and the sources and sinks are nodes of the graph.
    For the linear graph "AAT" -> "ATC" -> "TCG" the contig from "AAT" to
    "TCG" is "AATCG", with length 5. *)
Theorem get_contigs_spec :
  (forall (graph : DiGraph) (starting_nodes ending_nodes : list string)
          (contigs_list : list (string * nat)),
      get_contigs graph starting_nodes ending_nodes = Returns contigs_list ->
      contigs_list
      = map emitted
            (flat_map
               (fun start => flat_map (simple_paths graph start) ending_nodes)
               starting_nodes))
  /\ (forall (graph : DiGraph) (starting_nodes ending_nodes : list string),
      (forall u v w, In (u, v, w) (edges graph) -> v <> EmptyString) ->
      incl starting_nodes (nodes graph) ->
      incl ending_nodes (nodes graph) ->
      get_contigs graph starting_nodes ending_nodes
      = Returns
          (map emitted
               (flat_map
                  (fun start => flat_map (simple_paths graph start) ending_nodes)
                  starting_nodes)))
  /\ get_contigs Samples.linear ["AAT"%string] ["TCG"%string]
     = Returns [("AATCG"%string, 5%nat)]
  /\ get_contigs Samples.linear (get_starting_nodes Samples.linear)
                 (get_sink_nodes Samples.linear)
     = Returns [("AATCG"%string, 5%nat)].
Proof.
  split.
  { intros graph starting_nodes ending_nodes contigs_list H.
    exact (get_contigs_returns graph starting_nodes ending_nodes [] contigs_list H). }
  split.
  - intros graph starting_nodes ending_nodes Hne Hst Hen.
    unfold get_contigs.
    rewrite (contigs_of_sources graph Hne starting_nodes ending_nodes [] Hst Hen).
    reflexivity.
  - split; vm_compute; reflexivity.
Qed.

Lemma get_contigs_spec_witness :
  get_contigs Samples.chord ["CA"%string] ["AT"%string]
  = Returns [("CAAT"%string, 4%nat); ("CAT"%string, 3%nat)].
Proof.
  rewrite (proj1 (proj2 get_contigs_spec) Samples.chord ["CA"%string] ["AT"%string]).
  - vm_compute. reflexivity.
  - vm_compute. intros u v w [H|[H|[H|[]]]]; inversion H; discriminate.
  - vm_compute. intros n [<-|[]]. left. reflexivity.
  - vm_compute. intros n [<-|[]]. right. right. left. reflexivity.
Defined.

(* ------------------------------------------------------------------ *)
(** * Further properties of the k-mer tabulation *)
(* ------------------------------------------------------------------ *)

Section Windows.

Lemma flat_map_none {A B : Type} (p : A -> bool) (f : A -> B) (l : list A) :
  (forall x, In x l -> p x = false) ->
  flat_map (fun x => if p x then [f x] else []) l = [].
Proof.
  induction l as [|x l IH]; intro H; simpl; [reflexivity|].
  rewrite (H x (or_introl eq_refl)), IH by (intros y Hy; apply H; right; exact Hy).
  reflexivity.
Qed.

(** The characters of a window that fits in the read. *)
Lemma window_chars (read : string) (i kmer_size : Z) :
  0 <= i -> 0 <= kmer_size -> i + kmer_size <= Z.of_nat (String.length read) ->
  list_ascii_of_string (slice read i (i + kmer_size))
  = firstn (Z.to_nat kmer_size) (skipn (Z.to_nat i) (list_ascii_of_string read)).
Proof.
  intros Hi Hk Hfit. unfold slice.
  rewrite string_length_chars in Hfit.
  rewrite list_ascii_of_string_of_list_ascii.
  rewrite !clamp_inside by lia.
  f_equal. lia.
Qed.

(** The characters of [s[1:]] and of [s[0:-1]], for every string. *)
Lemma slice_from_1_chars (s : string) :
  list_ascii_of_string (slice_from s 1) = skipn 1 (list_ascii_of_string s).
Proof.
  destruct s as [|a s]; [reflexivity|].
  rewrite slice_drop_first. reflexivity.
Qed.

Lemma slice_init_chars (s : string) :
  list_ascii_of_string (slice s 0 (-1))
  = firstn (List.length (list_ascii_of_string s) - 1) (list_ascii_of_string s).
Proof.
  destruct (list_ascii_of_string s) as [|a l] eqn:E.
  - destruct s; [reflexivity | discriminate].
  - destruct (chars_snoc (a :: l)) as [front [c Ef]]; [discriminate|].
    rewrite <- (string_of_list_ascii_of_string s), E, Ef.
    rewrite slice_drop_last, !list_ascii_of_string_of_list_ascii.
    rewrite length_app. simpl List.length.
    replace (List.length front + 1 - 1)%nat with (List.length front + 0)%nat by lia.
    rewrite firstn_app_2. simpl. rewrite app_nil_r. reflexivity.
Qed.

Lemma chars_injective (s t : string) :
  list_ascii_of_string s = list_ascii_of_string t -> s = t.
Proof.
  intro H.
  rewrite <- (string_of_list_ascii_of_string s), <- (string_of_list_ascii_of_string t), H.
  reflexivity.
Qed.

Lemma skipn_1_firstn {A : Type} (n : nat) (l : list A) :
  skipn 1 (firstn (S n) l) = firstn n (skipn 1 l).
Proof. destruct l; simpl; [rewrite firstn_nil|]; reflexivity. Qed.

Lemma skipn_1_skipn {A : Type} (i : nat) (l : list A) :
  skipn 1 (skipn i l) = skipn (S i) l.
Proof.
  revert l. induction i as [|i IH]; intro l.
  - reflexivity.
  - destruct l as [|x l]; [reflexivity|]. simpl skipn at 2 3. apply IH.
Qed.

End Windows.

Section Counts.

Lemma build_kmer_dict_counts_aux (reads : list string) (kmer_size : Z) (kmer : string) :
  dict_get (build_kmer_dict reads kmer_size) kmer
  = if occurrences reads kmer_size kmer =? 0 then None
    else Some (occurrences reads kmer_size kmer).
Proof.
  unfold build_kmer_dict, occurrences.
  rewrite (fold_left_flat_map count_kmer (fun read => cut_kmer read kmer_size)).
  rewrite dict_get_fold. reflexivity.
Qed.

End Counts.

Lemma cut_kmer_enumeration (read : string) (kmer_size : Z) :
  1 <= kmer_size ->
  cut_kmer read kmer_size
  = map (fun i : nat => slice read (Z.of_nat i) (Z.of_nat i + kmer_size))
        (seq 0 (Z.to_nat (Z.of_nat (String.length read) - kmer_size + 1))).
Proof.
  intro Hk.
  set (L := String.length read).
  set (m := Z.to_nat (Z.of_nat L - kmer_size + 1)).
  unfold cut_kmer. fold L.
  replace (seq 0 L) with (seq 0 m ++ seq (0 + m) (L - m))
    by (rewrite <- seq_app; f_equal; lia).
  rewrite flat_map_app.
  rewrite (flat_map_all (fun i : nat => Z.of_nat i + kmer_size <=? Z.of_nat L)).
  - rewrite (flat_map_none (fun i : nat => Z.of_nat i + kmer_size <=? Z.of_nat L)).
    + apply app_nil_r.
    + intros i Hi. apply in_seq in Hi. apply Z.leb_gt. lia.
  - intros i Hi. apply in_seq in Hi. apply Z.leb_le. lia.
Qed.

(** X1.  For a k-mer size of at least 1, [cut_kmer] yields, in order,
    the slices [read[i:i+k]] for [i] from 0 to [len(read) - k], each of
    exactly [k] characters; a read shorter than [k] yields nothing. *)
Theorem cut_kmer_windows (read : string) (kmer_size : Z) :
  1 <= kmer_size ->
  cut_kmer read kmer_size
  = map (fun i : nat => slice read (Z.of_nat i) (Z.of_nat i + kmer_size))
        (seq 0 (Z.to_nat (Z.of_nat (String.length read) - kmer_size + 1)))
  /\ Forall (fun kmer => String.length kmer = Z.to_nat kmer_size)
            (cut_kmer read kmer_size)
  /\ (Z.of_nat (String.length read) < kmer_size -> cut_kmer read kmer_size = []).
Proof.
  intro Hk.
  pose proof (cut_kmer_enumeration read kmer_size Hk) as E.
  split; [exact E|]. split.
  - apply Forall_forall. intros kmer Hin.
    apply (cut_kmer_lengths read kmer kmer_size); [lia | exact Hin].
  - intro Hshort. rewrite E.
    replace (Z.to_nat (Z.of_nat (String.length read) - kmer_size + 1)) with 0%nat by lia.
    reflexivity.
Qed.

Lemma cut_kmer_windows_witness :
  cut_kmer "AATCGA" 3 = ["AAT"; "ATC"; "TCG"; "CGA"]%string.
Proof.
  rewrite (proj1 (cut_kmer_windows "AATCGA" 3 ltac:(lia))).
  reflexivity.
Defined.

(** X2.  The table built by [build_kmer_dict] maps every k-mer to the
    number of windows of the reads that are equal to it, and has no entry
    for a string that is no window. *)
Theorem build_kmer_dict_counts (reads : list string) (kmer_size : Z) (kmer : string) :
  dict_get (build_kmer_dict reads kmer_size) kmer
  = if occurrences reads kmer_size kmer =? 0 then None
    else Some (occurrences reads kmer_size kmer).
Proof. apply build_kmer_dict_counts_aux. Qed.

(** X3.  The table of [build_kmer_dict] has pairwise distinct keys, every
    key is a window of some read with a count of at least 1, and for a
    non-negative size every key has exactly that many characters. *)
Theorem build_kmer_dict_invariant (reads : list string) (kmer_size : Z) :
  NoDup (dict_keys (build_kmer_dict reads kmer_size))
  /\ (forall kmer n, In (kmer, n) (build_kmer_dict reads kmer_size) ->
        1 <= n /\ exists read, In read reads /\ In kmer (cut_kmer read kmer_size))
  /\ (0 <= kmer_size ->
      forall kmer, In kmer (dict_keys (build_kmer_dict reads kmer_size)) ->
                   String.length kmer = Z.to_nat kmer_size).
Proof.
  pose proof (proj1 (build_kmer_dict_well_formed reads kmer_size)) as ND.
  split; [exact ND|]. split.
  - intros kmer n Hin.
    assert (Hkey : In kmer (dict_keys (build_kmer_dict reads kmer_size))).
    { apply in_map_iff. exists (kmer, n). split; [reflexivity | exact Hin]. }
    split; [|apply dict_keys_build; exact Hkey].
    pose proof (dict_get_in _ kmer n ND Hin) as G.
    rewrite build_kmer_dict_counts_aux in G.
    destruct (Z.eqb_spec (occurrences reads kmer_size kmer) 0); [discriminate|].
    injection G as <-. unfold occurrences in *. lia.
  - intros Hk kmer Hin.
    apply dict_keys_build in Hin. destruct Hin as [read [_ Hin]].
    exact (cut_kmer_lengths read kmer kmer_size Hk Hin).
Qed.

Lemma build_kmer_dict_invariant_witness :
  String.length "TCG" = Z.to_nat 3.
Proof.
  apply (proj2 (proj2 (build_kmer_dict_invariant Samples.reads2 3)) ltac:(lia)).
  vm_compute. right. right. left. reflexivity.
Defined.

(** X4.  The counts do not depend on the order of the reads: two lists of
    reads that are permutations of each other give every k-mer the same
    entry. *)
Theorem build_kmer_dict_order_independent
        (reads reads' : list string) (kmer_size : Z) (kmer : string) :
  Permutation reads reads' ->
  dict_get (build_kmer_dict reads kmer_size) kmer
  = dict_get (build_kmer_dict reads' kmer_size) kmer.
Proof.
  intro P.
  rewrite !build_kmer_dict_counts_aux. unfold occurrences.
  assert (Pf : Permutation (flat_map (fun read => cut_kmer read kmer_size) reads)
                           (flat_map (fun read => cut_kmer read kmer_size) reads')).
  { apply Permutation_flat_map, P. }
  rewrite (proj1 (Permutation_count_occ string_dec _ _) Pf kmer).
  reflexivity.
Qed.

Lemma build_kmer_dict_order_independent_witness :
  dict_get (build_kmer_dict ["AATCGA"; "ATCGAT"]%string 3) "TCG"
  = dict_get (build_kmer_dict ["ATCGAT"; "AATCGA"]%string 3) "TCG".
Proof.
  apply build_kmer_dict_order_independent.
  apply perm_swap.
Defined.

(* ------------------------------------------------------------------ *)
(** * Further properties of the graph builder *)
(* ------------------------------------------------------------------ *)

Section GraphInvariant.

Implicit Types (g : DiGraph) (n u v a b : string) (w c : Z).

Lemma mem_iff n (l : list string) : mem n l = true <-> In n l.
Proof.
  unfold mem. rewrite existsb_exists. split.
  - intros [m [Hin E]]. apply String.eqb_eq in E. subst. exact Hin.
  - intro H. exists n. split; [exact H | apply String.eqb_refl].
Qed.

Lemma add_node_In (ns : list string) n m :
  In n (add_node ns m) <-> In n ns \/ n = m.
Proof.
  unfold add_node. destruct (mem m ns) eqn:E.
  - apply mem_iff in E. intuition congruence.
  - rewrite in_app_iff. simpl. intuition congruence.
Qed.

Lemma add_node_NoDup (ns : list string) m : NoDup ns -> NoDup (add_node ns m).
Proof.
  intro ND. unfold add_node. destruct (mem m ns) eqn:E; [exact ND|].
  apply NoDup_app; [exact ND | constructor; [intros [] | constructor] |].
  intros x Hx [<-|[]]. apply mem_iff in Hx. congruence.
Qed.

Lemma same_edge_iff u v a b c : same_edge u v (a, b, c) = true <-> a = u /\ b = v.
Proof.
  unfold same_edge. rewrite andb_true_iff, !String.eqb_eq. tauto.
Qed.

Lemma add_edge_nodes g u v w n :
  In n (nodes (add_edge g u v w)) <-> In n (nodes g) \/ n = u \/ n = v.
Proof. unfold add_edge. simpl. rewrite !add_node_In. tauto. Qed.

(** After [add_edge] the graph has the new edge, with the new weight, and
    the edges it had between other pairs of nodes. *)
Lemma add_edge_edges g u v w a b c :
  In (a, b, c) (edges (add_edge g u v w))
  <-> (a = u /\ b = v /\ c = w) \/ (~ (a = u /\ b = v) /\ In (a, b, c) (edges g)).
Proof.
  unfold add_edge. simpl.
  destruct (existsb (same_edge u v) (edges g)) eqn:E.
  - rewrite in_map_iff. split.
    + intros [[[x y] z] [He Hin]].
      destruct (same_edge u v (x, y, z)) eqn:S.
      * left. injection He as <- <- <-. tauto.
      * right. injection He as -> -> ->. split; [|exact Hin].
        intro H. apply (proj2 (same_edge_iff u v a b c)) in H. congruence.
    + intros [[-> [-> ->]]|[N Hin]].
      * apply existsb_exists in E. destruct E as [e [Hin S]].
        exists e. rewrite S. tauto.
      * exists (a, b, c). split; [|exact Hin].
        destruct (same_edge u v (a, b, c)) eqn:S; [|reflexivity].
        apply same_edge_iff in S. tauto.
  - rewrite in_app_iff. simpl. split.
    + intros [Hin|[He|[]]].
      * right. split; [|exact Hin]. intro H.
        apply (proj2 (same_edge_iff u v a b c)) in H.
        assert (T : existsb (same_edge u v) (edges g) = true).
        { apply existsb_exists. exists (a, b, c). tauto. }
        congruence.
      * left. injection He as <- <- <-. tauto.
    + intros [[-> [-> ->]]|[_ Hin]]; tauto.
Qed.

Lemma add_edge_pairs g u v w :
  map fst (edges (add_edge g u v w))
  = if existsb (same_edge u v) (edges g) then map fst (edges g)
    else map fst (edges g) ++ [(u, v)].
Proof.
  unfold add_edge. simpl.
  destruct (existsb (same_edge u v) (edges g)).
  - rewrite map_map. apply map_ext_in. intros [[x y] z] _.
    destruct (same_edge u v (x, y, z)) eqn:S; [|reflexivity].
    apply same_edge_iff in S. destruct S as [-> ->]. reflexivity.
  - rewrite map_app. reflexivity.
Qed.

Lemma add_edge_wf g u v w : wf_graph g -> wf_graph (add_edge g u v w).
Proof.
  intros [ND [Hends NDp]]. split; [|split].
  - unfold add_edge. simpl. apply add_node_NoDup, add_node_NoDup, ND.
  - intros a b c Hin. apply add_edge_edges in Hin. rewrite !add_edge_nodes.
    destruct Hin as [[-> [-> ->]]|[_ Hin]]; [tauto|].
    destruct (Hends a b c Hin). tauto.
  - rewrite add_edge_pairs.
    destruct (existsb (same_edge u v) (edges g)) eqn:E; [exact NDp|].
    apply NoDup_app; [exact NDp | constructor; [intros [] | constructor] |].
    intros [x y] Hx [He|[]]. injection He as <- <-.
    apply in_map_iff in Hx. destruct Hx as [[[x y] z] [He Hin]].
    simpl in He. injection He as -> ->.
    assert (T : existsb (same_edge u v) (edges g) = true).
    { apply existsb_exists. exists (u, v, z). split; [exact Hin|].
      apply same_edge_iff. tauto. }
    congruence.
Qed.

Lemma empty_wf : wf_graph Nx.empty.
Proof.
  split; [constructor | split; [intros u v w [] | constructor]].
Qed.

Lemma build_graph_wf (table : dict) : wf_graph (build_graph table).
Proof.
  induction table as [|[kmer n] table IH] using rev_ind.
  - exact empty_wf.
  - rewrite build_graph_snoc. apply add_edge_wf, IH.
Qed.

Lemma of_edges_wf (es : list (string * string * Z)) : wf_graph (Samples.of_edges es).
Proof.
  unfold Samples.of_edges. generalize empty_wf. generalize Nx.empty.
  induction es as [|[[x y] z] es IH]; intros g0 W; [exact W|].
  simpl. apply IH, add_edge_wf, W.
Qed.

Lemma build_graph_nodes_iff (table : dict) n :
  In n (nodes (build_graph table))
  <-> exists kmer, In kmer (dict_keys table)
                   /\ (n = fst (ends kmer) \/ n = snd (ends kmer)).
Proof.
  unfold dict_keys.
  induction table as [|[kmer c] table IH] using rev_ind.
  - simpl. split; [tauto | intros [k [[] _]]].
  - rewrite build_graph_snoc, add_edge_nodes, IH, map_app. simpl. split.
    + intros [[k [Hk Hn]]|Hn].
      * exists k. rewrite in_app_iff. tauto.
      * exists kmer. rewrite in_app_iff. simpl. tauto.
    + intros [k [Hk Hn]]. apply in_app_iff in Hk.
      destruct Hk as [Hk|[<-|[]]]; [left; exists k; tauto | right; exact Hn].
Qed.

Lemma snoc_case {A : Type} (l : list A) :
  l = [] \/ exists x l', l = l' ++ [x].
Proof.
  destruct l as [|y l] using rev_ind; [left; reflexivity|].
  right. exists y, l. reflexivity.
Qed.

(** The edge between two nodes carries the count of the last k-mer of the
    table with these two ends. *)
Lemma build_graph_edges_iff (table : dict) a b c :
  In (a, b, c) (edges (build_graph table))
  <-> exists before kmer after,
        table = before ++ (kmer, c) :: after
        /\ ends kmer = (a, b)
        /\ forall entry, In entry after -> ends (fst entry) <> (a, b).
Proof.
  revert a b c.
  induction table as [|[k n] table IH] using rev_ind; intros a b c.
  - simpl. split; [tauto|].
    intros [before [kmer [after [E _]]]]. destruct before; discriminate.
  - rewrite build_graph_snoc, add_edge_edges, IH. split.
    + intros [[-> [-> ->]]|[N [before [kmer [after [-> [He Hafter]]]]]]].
      * exists table, k, []. split; [reflexivity|]. split; [reflexivity|].
        intros e [].
      * exists before, kmer, (after ++ [(k, n)]).
        split; [rewrite <- app_assoc; reflexivity|]. split; [exact He|].
        intros e Hin. apply in_app_iff in Hin. destruct Hin as [Hin|[<-|[]]].
        -- apply Hafter, Hin.
        -- simpl. unfold ends. intro E. injection E as E1 E2. apply N. split; congruence.
    + intros [before [kmer [after [E [He Hafter]]]]].
      destruct (snoc_case after) as [->|[ent [after' ->]]].
      * apply app_inj_tail in E. destruct E as [_ E]. injection E as -> ->.
        left. unfold ends in He. injection He as <- <-. tauto.
      * change (before ++ (kmer, c) :: after' ++ [ent])
          with (before ++ ((kmer, c) :: after') ++ [ent]) in E.
        rewrite app_assoc in E. apply app_inj_tail in E. destruct E as [-> <-].
        right. split.
        -- intros [-> ->]. apply (Hafter (k, n)).
           ++ apply in_app_iff. right. left. reflexivity.
           ++ reflexivity.
        -- exists before, kmer, after'. split; [reflexivity|]. split; [exact He|].
           intros e Hin. apply Hafter. apply in_app_iff. left. exact Hin.
Qed.

(** Every k-mer of the table has its edge, with some weight. *)
Lemma build_graph_has_edge (table : dict) (kmer : string) :
  In kmer (dict_keys table) ->
  exists w, In (fst (ends kmer), snd (ends kmer), w) (edges (build_graph table)).
Proof.
  unfold dict_keys.
  induction table as [|[k n] table IH] using rev_ind; [intros []|].
  rewrite map_app, in_app_iff. simpl. intro Hin.
  destruct (string_dec (fst (ends k)) (fst (ends kmer))) as [E1|N1];
    [destruct (string_dec (snd (ends k)) (snd (ends kmer))) as [E2|N2]|].
  - exists n. rewrite build_graph_snoc. apply add_edge_edges. left.
    unfold ends in *. simpl in *. split; [congruence|]. split; [congruence|reflexivity].
  - destruct Hin as [Hin|[->|[]]]; [|contradiction].
    destruct (IH Hin) as [w Hw]. exists w.
    rewrite build_graph_snoc. apply add_edge_edges. right. split; [|exact Hw].
    unfold ends in *. simpl in *. intros [_ E]. congruence.
  - destruct Hin as [Hin|[->|[]]]; [|contradiction].
    destruct (IH Hin) as [w Hw]. exists w.
    rewrite build_graph_snoc. apply add_edge_edges. right. split; [|exact Hw].
    unfold ends in *. simpl in *. intros [E _]. congruence.
Qed.

End GraphInvariant.

Section BuiltGraph.

Lemma predecessors_nil (g : DiGraph) (n : string) :
  predecessors g n = [] <-> forall u v w, In (u, v, w) (edges g) -> v <> n.
Proof.
  unfold predecessors. split.
  - intros H u v w Hin E.
    assert (Hf : In (u, v, w) (filter (fun e => String.eqb (snd (fst e)) n) (edges g))).
    { apply filter_In. split; [exact Hin|]. simpl. apply String.eqb_eq, E. }
    apply (in_map (fun e : string * string * Z => fst (fst e))) in Hf.
    rewrite H in Hf. destruct Hf.
  - intro H.
    destruct (filter (fun e => String.eqb (snd (fst e)) n) (edges g))
      as [|[[u v] w] l] eqn:E; [reflexivity|].
    exfalso.
    assert (Hf : In (u, v, w) (filter (fun e => String.eqb (snd (fst e)) n) (edges g))).
    { rewrite E. left. reflexivity. }
    apply filter_In in Hf. destruct Hf as [Hin Hv]. simpl in Hv.
    apply String.eqb_eq in Hv. exact (H u v w Hin Hv).
Qed.

Lemma successors_nil (g : DiGraph) (n : string) :
  successors g n = [] <-> forall u v w, In (u, v, w) (edges g) -> u <> n.
Proof.
  unfold successors. split.
  - intros H u v w Hin E.
    assert (Hf : In (u, v, w) (filter (fun e => String.eqb (fst (fst e)) n) (edges g))).
    { apply filter_In. split; [exact Hin|]. simpl. apply String.eqb_eq, E. }
    apply (in_map (fun e : string * string * Z => snd (fst e))) in Hf.
    rewrite H in Hf. destruct Hf.
  - intro H.
    destruct (filter (fun e => String.eqb (fst (fst e)) n) (edges g))
      as [|[[u v] w] l] eqn:E; [reflexivity|].
    exfalso.
    assert (Hf : In (u, v, w) (filter (fun e => String.eqb (fst (fst e)) n) (edges g))).
    { rewrite E. left. reflexivity. }
    apply filter_In in Hf. destruct Hf as [Hin Hu]. simpl in Hu.
    apply String.eqb_eq in Hu. exact (H u v w Hin Hu).
Qed.

Lemma starting_nodes_iff (g : DiGraph) (n : string) :
  In n (get_starting_nodes g)
  <-> In n (nodes g) /\ forall u v w, In (u, v, w) (edges g) -> v <> n.
Proof.
  unfold get_starting_nodes. rewrite filter_In. split.
  - intros [Hn Hp]. split; [exact Hn|]. apply predecessors_nil.
    destruct (predecessors g n); [reflexivity | discriminate].
  - intros [Hn Hp]. split; [exact Hn|]. apply predecessors_nil in Hp.
    rewrite Hp. reflexivity.
Qed.

Lemma sink_nodes_iff (g : DiGraph) (n : string) :
  In n (get_sink_nodes g)
  <-> In n (nodes g) /\ forall u v w, In (u, v, w) (edges g) -> u <> n.
Proof.
  unfold get_sink_nodes. rewrite filter_In. split.
  - intros [Hn Hp]. split; [exact Hn|]. apply successors_nil.
    destruct (successors g n); [reflexivity | discriminate].
  - intros [Hn Hp]. split; [exact Hn|]. apply successors_nil in Hp.
    rewrite Hp. reflexivity.
Qed.

Lemma edge_key (table : dict) (u v : string) (w : Z) :
  In (u, v, w) (edges (build_graph table)) ->
  exists kmer, In kmer (dict_keys table) /\ ends kmer = (u, v).
Proof.
  intro Hin. apply build_graph_edges_iff in Hin.
  destruct Hin as [before [kmer [after [-> [He _]]]]].
  exists kmer. split; [|exact He].
  unfold dict_keys. rewrite map_app, in_app_iff. right. left. reflexivity.
Qed.

(** Two windows of a read that follow each other overlap: the first
    without its first character is the second without its last one. *)
Lemma window_overlap (read : string) (i kmer_size : Z) :
  0 <= i -> 1 <= kmer_size -> i + 1 + kmer_size <= Z.of_nat (String.length read) ->
  slice_from (slice read i (i + kmer_size)) 1
  = slice (slice read (i + 1) (i + 1 + kmer_size)) 0 (-1).
Proof.
  intros Hi Hk Hfit. apply chars_injective.
  rewrite slice_from_1_chars, slice_init_chars.
  rewrite <- string_length_chars, window_length by lia.
  rewrite !window_chars by lia.
  replace (Z.to_nat kmer_size) with (S (Z.to_nat kmer_size - 1)) at 1 by lia.
  rewrite skipn_1_firstn, skipn_1_skipn.
  rewrite firstn_firstn.
  replace (Z.to_nat (i + 1)) with (S (Z.to_nat i)) by lia.
  f_equal. lia.
Qed.

Lemma nth_error_window (read : string) (kmer_size : Z) (i : nat) (x : string) :
  1 <= kmer_size ->
  nth_error (cut_kmer read kmer_size) i = Some x ->
  x = slice read (Z.of_nat i) (Z.of_nat i + kmer_size)
  /\ Z.of_nat i + kmer_size <= Z.of_nat (String.length read).
Proof.
  intros Hk H. rewrite (cut_kmer_enumeration read kmer_size Hk) in H.
  rewrite nth_error_map in H.
  destruct (nth_error (seq 0 (Z.to_nat (Z.of_nat (String.length read) - kmer_size + 1))) i)
    as [j|] eqn:E; [|discriminate].
  simpl in H. injection H as <-.
  assert (Hlt : (i < List.length
                        (seq 0 (Z.to_nat (Z.of_nat (String.length read) - kmer_size + 1))))%nat).
  { apply nth_error_Some. congruence. }
  rewrite length_seq in Hlt.
  apply (nth_error_nth _ _ 0%nat) in E. rewrite seq_nth in E by exact Hlt.
  simpl in E. subst j. split; [reflexivity | lia].
Qed.

End BuiltGraph.

(** X5.  Whatever the table, the graph of [build_graph] is well formed:
    no node appears twice, every edge joins two nodes of the graph, and
    there is at most one edge from one node to another.  Its nodes are
    exactly the k-mers of the table without their last character and
    without their first character. *)
Theorem build_graph_well_formed (table : dict) :
  wf_graph (build_graph table)
  /\ forall n, In n (nodes (build_graph table))
               <-> exists kmer, In kmer (dict_keys table)
                                /\ (n = slice kmer 0 (-1) \/ n = slice_from kmer 1).
Proof.
  split; [apply build_graph_wf|].
  intro n. apply build_graph_nodes_iff.
Qed.

(** X6.  Whatever the table, the graph of [build_graph] has an edge from
    [a] to [b] with weight [c] exactly when [c] is the count of the last
    k-mer of the table whose two ends are [a] and [b]: a later k-mer with
    the same ends overwrites the weight, it is not added to it. *)
Theorem build_graph_last_count_wins (table : dict) (a b : string) (c : Z) :
  In (a, b, c) (edges (build_graph table))
  <-> exists before kmer after,
        table = before ++ (kmer, c) :: after
        /\ slice kmer 0 (-1) = a /\ slice_from kmer 1 = b
        /\ forall kmer' c', In (kmer', c') after ->
                            ~ (slice kmer' 0 (-1) = a /\ slice_from kmer' 1 = b).
Proof.
  rewrite build_graph_edges_iff. split.
  - intros [before [kmer [after [E [He Hafter]]]]].
    exists before, kmer, after. unfold ends in He. injection He as Ha Hb.
    split; [exact E|]. split; [exact Ha|]. split; [exact Hb|].
    intros kmer' c' Hin [Ha' Hb']. apply (Hafter (kmer', c') Hin).
    unfold ends. simpl. congruence.
  - intros [before [kmer [after [E [Ha [Hb Hafter]]]]]].
    exists before, kmer, after. split; [exact E|].
    split; [unfold ends; congruence|].
    intros [kmer' c'] Hin He. apply (Hafter kmer' c' Hin).
    unfold ends in He. simpl in He. injection He as Ha' Hb'. tauto.
Qed.

(** X7.  Every read spells a walk in the graph built from the table of
    the reads: for two windows of a read that follow each other, both have
    their edge in the graph, and the edge of the first ends on the node
    that the edge of the second starts from. *)
Theorem reads_spell_walks
        (reads : list string) (kmer_size : Z) (read : string) (i : nat) (x y : string) :
  1 <= kmer_size ->
  In read reads ->
  nth_error (cut_kmer read kmer_size) i = Some x ->
  nth_error (cut_kmer read kmer_size) (S i) = Some y ->
  slice_from x 1 = slice y 0 (-1)
  /\ exists w w',
      In (slice x 0 (-1), slice_from x 1, w)
         (edges (build_graph (build_kmer_dict reads kmer_size)))
      /\ In (slice y 0 (-1), slice_from y 1, w')
            (edges (build_graph (build_kmer_dict reads kmer_size))).
Proof.
  intros Hk Hread Hx Hy. split.
  - destruct (nth_error_window read kmer_size i x Hk Hx) as [-> _].
    destruct (nth_error_window read kmer_size (S i) y Hk Hy) as [-> Hfit].
    replace (Z.of_nat (S i)) with (Z.of_nat i + 1) in * by lia.
    apply window_overlap; lia.
  - assert (Kx : In x (dict_keys (build_kmer_dict reads kmer_size))).
    { apply dict_keys_build. exists read. split; [exact Hread|].
      exact (nth_error_In _ _ Hx). }
    assert (Ky : In y (dict_keys (build_kmer_dict reads kmer_size))).
    { apply dict_keys_build. exists read. split; [exact Hread|].
      exact (nth_error_In _ _ Hy). }
    destruct (build_graph_has_edge _ x Kx) as [w Hw].
    destruct (build_graph_has_edge _ y Ky) as [w' Hw'].
    exists w, w'. split; [exact Hw | exact Hw'].
Qed.

Lemma reads_spell_walks_witness :
  slice_from "AAT" 1 = slice "ATC" 0 (-1).
Proof.
  apply (reads_spell_walks Samples.reads2 3 "AATCGA" 0 "AAT" "ATC").
  - lia.
  - left. reflexivity.
  - reflexivity.
  - reflexivity.
Defined.

(** X8.  In the graph built from a table, the starting nodes are the
    nodes that begin a k-mer (the k-mer without its last character) and
    end none (no k-mer without its first character is that node); the sink
    nodes are those that end a k-mer and begin none. *)
Theorem built_graph_sources_and_sinks (table : dict) (n : string) :
  (In n (get_starting_nodes (build_graph table))
   <-> (exists kmer, In kmer (dict_keys table) /\ n = slice kmer 0 (-1))
       /\ forall kmer, In kmer (dict_keys table) -> n <> slice_from kmer 1)
  /\ (In n (get_sink_nodes (build_graph table))
      <-> (exists kmer, In kmer (dict_keys table) /\ n = slice_from kmer 1)
          /\ forall kmer, In kmer (dict_keys table) -> n <> slice kmer 0 (-1)).
Proof.
  split.
  - rewrite starting_nodes_iff, build_graph_nodes_iff. split.
    + intros [[kmer [Hk Hn]] Hno].
      assert (Hnone : forall k, In k (dict_keys table) -> n <> slice_from k 1).
      { intros k Hin E. destruct (build_graph_has_edge table k Hin) as [w Hw].
        apply (Hno _ _ _ Hw). simpl. congruence. }
      split; [|exact Hnone].
      exists kmer. split; [exact Hk|].
      destruct Hn as [Hn|Hn]; [exact Hn|].
      exfalso. exact (Hnone kmer Hk Hn).
    + intros [[kmer [Hk Hn]] Hnone]. split.
      * exists kmer. split; [exact Hk | left; exact Hn].
      * intros u v w Hin E. destruct (edge_key table u v w Hin) as [k [Hin' He]].
        apply (Hnone k Hin'). unfold ends in He. injection He as _ Hv. congruence.
  - rewrite sink_nodes_iff, build_graph_nodes_iff. split.
    + intros [[kmer [Hk Hn]] Hno].
      assert (Hnone : forall k, In k (dict_keys table) -> n <> slice k 0 (-1)).
      { intros k Hin E. destruct (build_graph_has_edge table k Hin) as [w Hw].
        apply (Hno _ _ _ Hw). simpl. congruence. }
      split; [|exact Hnone].
      exists kmer. split; [exact Hk|].
      destruct Hn as [Hn|Hn]; [|exact Hn].
      exfalso. exact (Hnone kmer Hk Hn).
    + intros [[kmer [Hk Hn]] Hnone]. split.
      * exists kmer. split; [exact Hk | right; exact Hn].
      * intros u v w Hin E. destruct (edge_key table u v w Hin) as [k [Hin' He]].
        apply (Hnone k Hin'). unfold ends in He. injection He as Hu _. congruence.
Qed.

(* ------------------------------------------------------------------ *)
(** * Further properties of path removal and path selection *)
(* ------------------------------------------------------------------ *)

Section RemovalInvariant.

(** Dropping edges keeps the pairs of ends distinct. *)
Lemma kept_pairs_distinct (keep : string * string * Z -> bool)
      (es : list (string * string * Z)) :
  NoDup (map fst es) -> NoDup (map fst (filter keep es)).
Proof.
  intro Hd. induction es as [|e es IH]; simpl; [constructor|].
  simpl in Hd. apply NoDup_cons_iff in Hd. destruct Hd as [Hfresh Hd].
  destruct (keep e); [|exact (IH Hd)].
  simpl. apply NoDup_cons_iff. split; [|exact (IH Hd)].
  rewrite in_map_iff. intros [e' [Heq Hin]]. apply Hfresh.
  rewrite filter_In in Hin. rewrite in_map_iff. exists e'. tauto.
Qed.

Lemma remove_node_wf (g : DiGraph) (n : string) :
  wf_graph g -> wf_graph (remove_node g n).
Proof.
  intros [ND [Hends NDp]]. split; [|split].
  - unfold remove_node. simpl. apply NoDup_filter, ND.
  - intros u v w Hin. apply remove_node_edges in Hin.
    destruct Hin as [Hin [Hu Hv]]. destruct (Hends u v w Hin).
    rewrite !remove_node_nodes. tauto.
  - unfold remove_node. simpl. apply kept_pairs_distinct, NDp.
Qed.

Lemma remove_nodes_from_wf (ns : list string) (g : DiGraph) :
  wf_graph g -> wf_graph (remove_nodes_from g ns).
Proof.
  unfold remove_nodes_from. revert g.
  induction ns as [|n ns IH]; intros g W; [exact W|].
  simpl. apply IH, remove_node_wf, W.
Qed.

Lemma remove_paths_wf (paths : list (list string)) (entry sink : bool) (g : DiGraph) :
  wf_graph g -> wf_graph (remove_paths g paths entry sink).
Proof.
  unfold remove_paths. revert g.
  induction paths as [|p paths IH]; intros g W; [exact W|].
  simpl. apply IH, remove_nodes_from_wf, W.
Qed.

Lemma remove_paths_incl (paths : list (list string)) (entry sink : bool) (g : DiGraph) :
  incl (nodes (remove_paths g paths entry sink)) (nodes g)
  /\ incl (edges (remove_paths g paths entry sink)) (edges g).
Proof.
  split.
  - intros n Hn. apply remove_paths_nodes in Hn. tauto.
  - intros [[a b] w] He. apply remove_paths_edges in He. tauto.
Qed.

Lemma del_item_returns {A : Type} (l l' : list A) (i : nat) :
  del_item l i = Returns l' -> (i < List.length l)%nat /\ l' = losers l i.
Proof.
  intro H. destruct (Nat.lt_ge_cases i (List.length l)) as [Hlt|Hge].
  - rewrite (del_item_inside l i Hlt) in H. injection H as <-. tauto.
  - rewrite (del_item_outside l i Hge) in H. discriminate.
Qed.

Lemma stdev_gt0_returns (data : list Q) (b : bool) :
  Statistics.stdev_gt0 data = Returns b -> (2 <= List.length data)%nat.
Proof.
  intro H. destruct (Nat.lt_ge_cases (List.length data) 2) as [Hlt|Hge]; [|exact Hge].
  rewrite (stdev_gt0_short data Hlt) in H. discriminate.
Qed.

(** Whenever [select_best_path] returns, it has taken one candidate off
    the list and removed the others. *)
Lemma select_best_path_returns
      (graph graph' : DiGraph) (path_list : list (list string))
      (path_length weight_avg_list : list Q)
      (delete_entry_node delete_sink_node : bool) (draw : nat) :
  select_best_path graph path_list path_length weight_avg_list
                   delete_entry_node delete_sink_node draw = Returns graph' ->
  (2 <= List.length weight_avg_list)%nat
  /\ exists i, (i < List.length path_list)%nat
               /\ graph' = remove_paths graph (losers path_list i)
                                        delete_entry_node delete_sink_node.
Proof.
  unfold select_best_path, std_gt0. intro H.
  destruct (Statistics.stdev_gt0 weight_avg_list) as [bw|e] eqn:Ew; [|discriminate H].
  split; [exact (stdev_gt0_returns _ _ Ew)|].
  simpl in H. destruct bw.
  - destruct (Py.max weight_avg_list) as [m|e]; [|discriminate H]. simpl in H.
    destruct (Py.index weight_avg_list m) as [i|e]; [|discriminate H]. simpl in H.
    destruct (del_item path_list i) as [l'|e] eqn:Ed; [|discriminate H].
    simpl in H. injection H as <-.
    apply del_item_returns in Ed. destruct Ed as [Hlt ->]. exists i. tauto.
  - destruct (Statistics.stdev_gt0 path_length) as [bl|e]; [|discriminate H].
    simpl in H. destruct bl.
    + destruct (Py.max path_length) as [m|e]; [|discriminate H]. simpl in H.
      destruct (Py.index path_length m) as [i|e]; [|discriminate H]. simpl in H.
      destruct (del_item path_list i) as [l'|e] eqn:Ed; [|discriminate H].
      simpl in H. injection H as <-.
      apply del_item_returns in Ed. destruct Ed as [Hlt ->]. exists i. tauto.
    + destruct (del_item path_list draw) as [l'|e] eqn:Ed; [|discriminate H].
      simpl in H. injection H as <-.
      apply del_item_returns in Ed. destruct Ed as [Hlt ->]. exists draw. tauto.
Qed.

Lemma tied_or_spread (l : list Q) : tied l \/ spread l.
Proof.
  destruct l as [|x0 l]; [left; intros x y []|].
  destruct (Forall_Exists_dec (fun y => (y == x0)%Q) (fun y => Qeq_dec y x0) (x0 :: l))
    as [Hall|Hex].
  - left. rewrite Forall_forall in Hall. intros x y Hx Hy.
    rewrite (Hall x Hx), (Hall y Hy). reflexivity.
  - right. apply Exists_exists in Hex. destruct Hex as [y [Hy Ny]].
    exists y, x0. split; [exact Hy|]. split; [left; reflexivity | exact Ny].
Qed.

Lemma tied_not_spread (l : list Q) : tied l -> spread l -> False.
Proof. intros T [x [y [Hx [Hy N]]]]. exact (N (T x y Hx Hy)). Qed.

End RemovalInvariant.

(** X9.  [remove_paths] keeps exactly the nodes that are not trimmed off
    one of the paths and the edges between two kept nodes; it adds nothing,
    and a well-formed graph stays well formed. *)
Theorem remove_paths_keeps_the_rest
        (graph : DiGraph) (path_list : list (list string))
        (delete_entry_node delete_sink_node : bool) :
  (forall n, In n (nodes (remove_paths graph path_list delete_entry_node delete_sink_node))
             <-> In n (nodes graph)
                 /\ ~ hit path_list delete_entry_node delete_sink_node n)
  /\ (forall a b w,
         In (a, b, w)
            (edges (remove_paths graph path_list delete_entry_node delete_sink_node))
         <-> In (a, b, w) (edges graph)
             /\ ~ hit path_list delete_entry_node delete_sink_node a
             /\ ~ hit path_list delete_entry_node delete_sink_node b)
  /\ (wf_graph graph ->
      wf_graph (remove_paths graph path_list delete_entry_node delete_sink_node)).
Proof.
  split; [intro n; apply remove_paths_nodes|].
  split; [intros a b w; apply remove_paths_edges|].
  apply remove_paths_wf.
Qed.

Lemma remove_paths_keeps_the_rest_witness :
  wf_graph (remove_paths Samples.twins [Samples.twin_b] false false).
Proof.
  apply (proj2 (proj2 (remove_paths_keeps_the_rest
                         Samples.twins [Samples.twin_b] false false))).
  apply of_edges_wf.
Defined.

(** X10.  With the default flags a path of at most two nodes has nothing
    between its ends: [remove_paths] on such paths returns the graph
    unchanged, so a losing candidate that is a single edge stays in the
    graph. *)
Theorem remove_paths_short_paths (graph : DiGraph) (path_list : list (list string)) :
  Forall (fun path => (List.length path <= 2)%nat) path_list ->
  remove_paths graph path_list false false = graph.
Proof.
  unfold remove_paths. revert graph.
  induction path_list as [|p paths IH]; intros graph H; [reflexivity|].
  inversion H as [|? ? Hp Hrest]; subst.
  assert (E : trim_path p false false = []).
  { destruct p as [|a [|b [|c p]]]; try reflexivity. simpl in Hp. lia. }
  cbn [fold_left]. rewrite E. apply IH, Hrest.
Qed.

Lemma remove_paths_short_paths_witness :
  remove_paths Samples.chord [["CA"; "AT"]%string] false false = Samples.chord.
Proof.
  apply remove_paths_short_paths.
  constructor; [simpl; lia | constructor].
Defined.

(** X11.  The test [std(data) > 0] raises StatisticsError on fewer than
    two numbers; on two or more it is true exactly when two of the numbers
    differ and false exactly when they are all equal. *)
Theorem std_gt0_spec (data : list Q) :
  ((List.length data < 2)%nat -> std_gt0 data = Raises StatisticsError)
  /\ ((2 <= List.length data)%nat ->
      (std_gt0 data = Returns true <-> spread data)
      /\ (std_gt0 data = Returns false <-> tied data)).
Proof.
  unfold std_gt0. split; [apply stdev_gt0_short|].
  intro H2. split; split.
  - intro E. destruct (tied_or_spread data) as [T|S]; [|exact S].
    rewrite (stdev_gt0_tied data H2 T) in E. discriminate.
  - apply stdev_gt0_spread, H2.
  - intro E. destruct (tied_or_spread data) as [T|S]; [exact T|].
    rewrite (stdev_gt0_spread data H2 S) in E. discriminate.
  - apply stdev_gt0_tied, H2.
Qed.

Lemma std_gt0_spec_witness :
  std_gt0 [1; 1; 2]%Q = Returns true /\ std_gt0 [3]%Q = Raises StatisticsError.
Proof.
  split.
  - apply (proj2 (std_gt0_spec [1; 1; 2]%Q)); [simpl; lia|].
    exists 1%Q, 2%Q. simpl. split; [tauto|]. split; [tauto|]. intro H. discriminate H.
  - apply (proj1 (std_gt0_spec [3]%Q)). simpl. lia.
Defined.

(** X12.  Whenever [select_best_path] returns a graph, there were at least
    two weights, exactly one candidate was taken off the list, and the
    graph is the input graph after [remove_paths] on the other candidates:
    it has no node and no edge that the input graph did not have, and it
    is well formed if the input graph was. *)
Theorem select_best_path_only_removes
        (graph graph' : DiGraph) (path_list : list (list string))
        (path_length weight_avg_list : list Q)
        (delete_entry_node delete_sink_node : bool) (draw : nat) :
  select_best_path graph path_list path_length weight_avg_list
                   delete_entry_node delete_sink_node draw = Returns graph' ->
  (2 <= List.length weight_avg_list)%nat
  /\ (exists i, (i < List.length path_list)%nat
                /\ graph' = remove_paths graph (losers path_list i)
                                         delete_entry_node delete_sink_node)
  /\ incl (nodes graph') (nodes graph)
  /\ incl (edges graph') (edges graph)
  /\ (wf_graph graph -> wf_graph graph').
Proof.
  intro H. destruct (select_best_path_returns _ _ _ _ _ _ _ _ H) as [H2 [i [Hi ->]]].
  split; [exact H2|]. split; [exists i; tauto|].
  split; [apply remove_paths_incl|]. split; [apply remove_paths_incl|].
  apply remove_paths_wf.
Qed.

Lemma select_best_path_only_removes_witness :
  incl (nodes (mkDiGraph ["S"; "C"; "T"]%string [("C", "T", 5)]%string))
       (nodes Samples.shared_stem).
Proof.
  apply (select_best_path_only_removes
           Samples.shared_stem _ [Samples.heavy; Samples.light]
           [4; 4]%Q [5; 7 # 3]%Q false false 0).
  vm_compute. reflexivity.
Defined.

(* ------------------------------------------------------------------ *)
(** * Further properties of path enumeration, bubbles and contigs *)
(* ------------------------------------------------------------------ *)

Section Enumeration.

Variable g : DiGraph.

Lemma successors_edge (cur child : string) :
  In child (successors g cur) -> exists w, In (cur, child, w) (edges g).
Proof.
  unfold successors. rewrite in_map_iff.
  intros [[[u v] w] [E Hin]]. simpl in E. subst v.
  apply filter_In in Hin. destruct Hin as [Hin Hu]. simpl in Hu.
  apply String.eqb_eq in Hu. subst u. exists w. exact Hin.
Qed.

Lemma walk_snoc (l : list string) (u v : string) :
  walk g (l ++ [u]) -> (exists w, In (u, v, w) (edges g)) ->
  walk g ((l ++ [u]) ++ [v]).
Proof.
  intros W E. induction l as [|a l IH].
  - simpl. tauto.
  - destruct l as [|b l].
    + simpl in *. tauto.
    + simpl in W. destruct W as [Eab W]. simpl. split; [exact Eab|].
      apply IH. exact W.
Qed.

Lemma dfs_unfold (target : string) (fuel : nat) (visited : list string) (cur : string) :
  dfs g target fuel visited cur
  = flat_map
      (fun child =>
         if mem child visited then []
         else if String.eqb child target then [rev (child :: visited)]
         else match fuel with
              | O => []
              | S fuel' => dfs g target fuel' (child :: visited) child
              end)
      (successors g cur).
Proof. destruct fuel; reflexivity. Qed.

(** What the search returns extends the current path into a path without
    repetition that follows edges and stops at the target. *)
Lemma dfs_sound (target : string) (fuel : nat) :
  forall (visited : list string) (cur : string) (path : list string),
    In path (dfs g target fuel (cur :: visited) cur) ->
    NoDup (cur :: visited) -> ~ In target (cur :: visited) ->
    walk g (rev (cur :: visited)) ->
    (exists ext, path = rev (cur :: visited) ++ ext)
    /\ (exists front, path = front ++ [target])
    /\ NoDup path /\ walk g path.
Proof.
  induction fuel as [|fuel IH]; intros visited cur path Hin ND Nt W;
    rewrite dfs_unfold in Hin;
    apply in_flat_map in Hin; destruct Hin as [child [Hc Hin]];
    pose proof (successors_edge cur child Hc) as He;
    destruct (mem child (cur :: visited)) eqn:Em; try (destruct Hin; fail);
    assert (Nc : ~ In child (cur :: visited))
      by (intro Hm; apply (proj2 (mem_iff _ _)) in Hm; congruence);
    assert (Wc : walk g (rev (child :: cur :: visited)))
      by (change (rev (child :: cur :: visited))
            with ((rev visited ++ [cur]) ++ [child]);
          apply walk_snoc; [exact W | exact He]);
    destruct (String.eqb_spec child target) as [Et|Nt'].
  - destruct Hin as [<-|[]]. subst child.
    split; [exists [target]; reflexivity|].
    split; [exists (rev (cur :: visited)); reflexivity|].
    split; [|exact Wc].
    apply NoDup_rev. constructor; [exact Nc | exact ND].
  - destruct Hin.
  - destruct Hin as [<-|[]]. subst child.
    split; [exists [target]; reflexivity|].
    split; [exists (rev (cur :: visited)); reflexivity|].
    split; [|exact Wc].
    apply NoDup_rev. constructor; [exact Nc | exact ND].
  - destruct (IH (cur :: visited) child path Hin) as [[ext E] [Hlast [NDp Wp]]].
    + constructor; [exact Nc | exact ND].
    + intros [E|E]; [congruence | exact (Nt E)].
    + exact Wc.
    + split; [|tauto].
      exists (child :: ext). rewrite E.
      change (rev (child :: cur :: visited)) with (rev (cur :: visited) ++ [child]).
      rewrite <- app_assoc. reflexivity.
Qed.

(** The enumeration is sound: it only returns simple paths of the graph
    from the source to the target. *)
Lemma simple_paths_sound (source target : string) (path : list string) :
  In path (simple_paths g source target) -> simple_path g source target path.
Proof.
  unfold simple_paths. intro Hin.
  destruct (String.eqb_spec source target) as [E|N]; [destruct Hin|].
  destruct (List.length (nodes g)) as [|[|fuel]]; try (destruct Hin; fail).
  destruct (dfs_sound target fuel [] source path Hin) as [[ext E] [Hlast [ND W]]].
  - constructor; [intros [] | constructor].
  - intros [E|[]]. congruence.
  - exact I.
  - split; [exact N|]. split; [exists ext; exact E|]. tauto.
Qed.

Lemma in_removelast {A : Type} (x : A) (l : list A) : In x (removelast l) -> In x l.
Proof.
  induction l as [|a l IH]; [intros []|].
  destruct l as [|b l]; [intros []|].
  intros [<-|H]; [left; reflexivity | right; apply IH, H].
Qed.

(** The two ends of a simple path are not among its interior nodes. *)
Lemma ends_not_interior (source target : string) (path : list string) :
  simple_path g source target path ->
  ~ In source (interior path) /\ ~ In target (interior path).
Proof.
  intros [N [[rest ->] [[front E] [ND _]]]].
  unfold interior, trim_path. simpl tl.
  inversion ND as [|? ? Hs NDr]; subst. split.
  - intro H. apply Hs, in_removelast, H.
  - destruct front as [|a front].
    + simpl in E. injection E as -> ->. intros [].
    + simpl in E. injection E as <- ->.
      rewrite removelast_last. intro H.
      apply NoDup_remove_2 in NDr. apply NDr. rewrite app_nil_r. exact H.
Qed.

End Enumeration.

Section BubblesAndContigs.

Lemma comprehension_length {A B : Type} (f : A -> result B) (xs : list A) (ys : list B) :
  comprehension f xs = Returns ys -> List.length ys = List.length xs.
Proof.
  revert ys. induction xs as [|x xs IH]; intros ys H.
  - simpl in H. injection H as <-. reflexivity.
  - simpl in H. destruct (f x) as [y|e]; [|discriminate H]. simpl in H.
    destruct (comprehension f xs) as [zs|e]; [|discriminate H]. simpl in H.
    injection H as <-. simpl. rewrite (IH zs eq_refl). reflexivity.
Qed.

Lemma all_simple_paths_nodes_known (g : DiGraph) (source target : string)
      (paths : list (list string)) :
  all_simple_paths g source target = Returns paths ->
  In source (nodes g) /\ In target (nodes g).
Proof.
  unfold all_simple_paths.
  destruct (mem source (nodes g)) eqn:Es; [|discriminate].
  destruct (mem target (nodes g)) eqn:Et; [|discriminate].
  intros _. split; apply mem_iff; assumption.
Qed.

Lemma losers_incl {A : Type} (l : list A) (i : nat) : incl (losers l i) l.
Proof.
  intros x Hx. apply in_losers in Hx. destruct Hx as [j [_ Hj]].
  exact (nth_error_In _ _ Hj).
Qed.

Lemma string_app_length (s t : string) :
  String.length (s ++ t) = (String.length s + String.length t)%nat.
Proof. induction s as [|c s IH]; simpl; congruence. Qed.

Lemma tail_length (rest : list string) :
  Forall (fun node => node <> EmptyString) rest ->
  String.length (String.concat EmptyString (map last_of rest)) = List.length rest.
Proof.
  induction rest as [|node rest IH]; intro H; [reflexivity|].
  inversion H as [|? ? Hn Hrest]; subst.
  destruct (last_of_nonempty node Hn) as [c [_ Hl]].
  simpl map. rewrite concat_empty_cons, string_app_length, Hl, (IH Hrest).
  reflexivity.
Qed.

End BubblesAndContigs.

Lemma solve_bubble_returns
        (graph graph' : DiGraph) (ancestor_node descendant_node : string) (draw : nat) :
  solve_bubble graph ancestor_node descendant_node draw = Returns graph' ->
  In ancestor_node (nodes graph') /\ In descendant_node (nodes graph')
  /\ incl (nodes graph') (nodes graph)
  /\ incl (edges graph') (edges graph)
  /\ (wf_graph graph -> wf_graph graph')
  /\ exists paths i,
      all_simple_paths graph ancestor_node descendant_node = Returns paths
      /\ (2 <= List.length paths)%nat /\ (i < List.length paths)%nat
      /\ graph' = remove_paths graph (losers paths i) false false.
Proof.
  unfold solve_bubble. intro H.
  destruct (all_simple_paths graph ancestor_node descendant_node) as [paths|e] eqn:Ep;
    [|discriminate H].
  simpl in H.
  destruct (comprehension (path_average_weight graph) paths) as [wl|e] eqn:Ec;
    [|discriminate H].
  simpl in H.
  destruct (select_best_path_returns _ _ _ _ _ _ _ _ H) as [H2 [i [Hi ->]]].
  rewrite (comprehension_length _ _ _ Ec) in H2.
  destruct (all_simple_paths_nodes_known _ _ _ _ Ep) as [Ha Hd].
  apply all_simple_paths_returns in Ep. subst paths.
  assert (Free : forall n, n = ancestor_node \/ n = descendant_node ->
                           ~ hit (losers (simple_paths graph ancestor_node descendant_node) i)
                                 false false n).
  { intros n Hn [p [Hp Hin]].
    apply losers_incl, simple_paths_sound, ends_not_interior in Hp.
    unfold interior in Hp. destruct Hn as [->| ->]; tauto. }
  split; [apply remove_paths_nodes; split; [exact Ha | apply Free; tauto]|].
  split; [apply remove_paths_nodes; split; [exact Hd | apply Free; tauto]|].
  split; [apply remove_paths_incl|]. split; [apply remove_paths_incl|].
  split; [apply remove_paths_wf|].
  exists (simple_paths graph ancestor_node descendant_node), i. tauto.
Qed.

(** X13.  Whenever [solve_bubble] returns a graph, at least two simple
    paths led from the ancestor to the descendant, one of them was kept and
    the interior nodes of the others were removed; the ancestor and the
    descendant are still nodes of the graph, nothing was added, and the
    graph is well formed if it was. *)
Theorem solve_bubble_keeps_ends
        (graph graph' : DiGraph) (ancestor_node descendant_node : string) (draw : nat) :
  solve_bubble graph ancestor_node descendant_node draw = Returns graph' ->
  In ancestor_node (nodes graph') /\ In descendant_node (nodes graph')
  /\ incl (nodes graph') (nodes graph)
  /\ incl (edges graph') (edges graph)
  /\ (wf_graph graph -> wf_graph graph')
  /\ exists paths i,
      all_simple_paths graph ancestor_node descendant_node = Returns paths
      /\ (2 <= List.length paths)%nat /\ (i < List.length paths)%nat
      /\ graph' = remove_paths graph (losers paths i) false false.
Proof. apply solve_bubble_returns. Qed.

Lemma solve_bubble_keeps_ends_witness :
  In "S"%string (nodes (mkDiGraph ["S"; "A"; "T"]%string
                                  [("S", "A", 1); ("A", "T", 1)]%string)).
Proof.
  apply (solve_bubble_keeps_ends Samples.twins _ "S" "T" 0).
  vm_compute. reflexivity.
Defined.

(** X14.  On a graph whose edges all end on nodes of at least one
    character, and for sources and sinks that are nodes of the graph, no
    source being also a sink, [get_contigs] returns, and every pair it
    emits comes from a simple path from a source to a sink: the contig
    begins with the source node in full, continues with one character per
    later node, and the emitted length is the length of the source node
    plus the number of edges of the path.  A node that is both a source and
    a sink is left out: what [all_simple_paths] yields from a node to
    itself depends on the version of networkx. *)
Theorem get_contigs_lengths
        (graph : DiGraph) (starting_nodes ending_nodes : list string) :
  (forall u v w, In (u, v, w) (edges graph) -> v <> EmptyString) ->
  incl starting_nodes (nodes graph) ->
  incl ending_nodes (nodes graph) ->
  (forall start end_, In start starting_nodes -> In end_ ending_nodes -> start <> end_) ->
  exists contigs_list,
    get_contigs graph starting_nodes ending_nodes = Returns contigs_list
    /\ forall cont size, In (cont, size) contigs_list ->
         exists start end_ path tail,
           In start starting_nodes /\ In end_ ending_nodes
           /\ simple_path graph start end_ path
           /\ cont = (start ++ tail)%string
           /\ String.length tail = (List.length path - 1)%nat
           /\ size = (String.length start + (List.length path - 1))%nat.
Proof.
  intros Hne Hst Hen _.
  eexists. split.
  { unfold get_contigs.
    rewrite (contigs_of_sources graph Hne starting_nodes ending_nodes [] Hst Hen).
    reflexivity. }
  intros cont size Hin. simpl in Hin.
  apply in_map_iff in Hin. destruct Hin as [path [E Hp]].
  apply in_flat_map in Hp. destruct Hp as [start [Hs Hp]].
  apply in_flat_map in Hp. destruct Hp as [end_ [He Hp]].
  destruct (simple_paths_shape graph Hne start end_ path Hp) as [rest [-> F]].
  exists start, end_, (start :: rest), (String.concat EmptyString (map last_of rest)).
  unfold emitted, spec_contig in E. injection E as <- <-.
  split; [exact Hs|]. split; [exact He|].
  split; [apply simple_paths_sound, Hp|].
  split; [reflexivity|].
  rewrite string_app_length, (tail_length rest F). simpl List.length.
  split; lia.
Qed.

Lemma get_contigs_lengths_witness :
  exists contigs_list,
    get_contigs Samples.linear ["AAT"%string] ["TCG"%string] = Returns contigs_list.
Proof.
  destruct (get_contigs_lengths Samples.linear ["AAT"%string] ["TCG"%string])
    as [contigs_list [H _]].
  - vm_compute. intros u v w [H|[H|[]]]; inversion H; discriminate.
  - vm_compute. intros n [<-|[]]. left. reflexivity.
  - vm_compute. intros n [<-|[]]. right. right. left. reflexivity.
  - intros start end_ [<-|[]] [<-|[]]. discriminate.
  - exists contigs_list. exact H.
Defined.

(** X15.  [get_contigs] does not skip a starting node that is not in the
    graph: when the first starting node is unknown and there is an ending
    node to pair it with, it raises NodeNotFound; without ending nodes, or
    without starting nodes, it returns the empty list. *)
Theorem get_contigs_unknown_start
        (graph : DiGraph) (start : string) (starting_nodes ending_nodes : list string) :
  ~ In start (nodes graph) ->
  (ending_nodes <> [] ->
   get_contigs graph (start :: starting_nodes) ending_nodes = Raises NodeNotFound)
  /\ get_contigs graph (start :: starting_nodes) [] = Returns []
  /\ get_contigs graph [] ending_nodes = Returns [].
Proof.
  intro Hs. split; [|split].
  - intro Hne. destruct ending_nodes as [|e ends]; [contradiction|].
    unfold get_contigs. rewrite !for_each_cons.
    unfold all_simple_paths.
    destruct (mem start (nodes graph)) eqn:E; [apply mem_iff in E; contradiction|].
    reflexivity.
  - unfold get_contigs.
    induction (start :: starting_nodes) as [|s l IH]; [reflexivity|].
    rewrite for_each_cons. simpl. exact IH.
  - reflexivity.
Qed.

Lemma get_contigs_unknown_start_witness :
  get_contigs Samples.linear ["GGG"; "AAT"]%string ["TCG"%string] = Raises NodeNotFound.
Proof.
  apply (get_contigs_unknown_start Samples.linear "GGG" ["AAT"%string] ["TCG"%string]).
  - vm_compute. intros [H|[H|[H|[]]]]; discriminate.
  - discriminate.
Defined.

Section PathWeight.

Variable g : DiGraph.

Local Open Scope Q_scope.

Lemma consecutive_weights_map (path : list string) :
  consecutive_weights g path
  = map (fun e : string * string * Z => inject_Z (snd e)) (consecutive_edges g path).
Proof.
  induction path as [|u path IH]; [reflexivity|].
  destruct path as [|v rest]; [reflexivity|].
  change (consecutive_weights g (u :: v :: rest))
    with (map (fun e : string * string * Z => inject_Z (snd e))
              (filter (same_edge u v) (edges g))
          ++ consecutive_weights g (v :: rest)).
  change (consecutive_edges g (u :: v :: rest))
    with (filter (same_edge u v) (edges g) ++ consecutive_edges g (v :: rest)).
  rewrite IH, map_app. reflexivity.
Qed.

Lemma consecutive_cons (u : string) (path : list string) (a b : string) :
  consecutive path a b -> consecutive (u :: path) a b.
Proof.
  intros [before [after ->]]. exists (u :: before), after. reflexivity.
Qed.

Lemma consecutive_in (path : list string) (a b : string) :
  consecutive path a b -> In a path /\ In b path.
Proof.
  intros [before [after ->]]. rewrite !in_app_iff. simpl. tauto.
Qed.

Lemma consecutive_head (u v : string) (rest : list string) (a b : string) :
  consecutive (u :: v :: rest) a b <->
  (a = u /\ b = v) \/ consecutive (v :: rest) a b.
Proof.
  split.
  - intros [before [after E]]. destruct before as [|x before].
    + simpl in E. injection E as -> -> _. tauto.
    + simpl in E. injection E as _ E. right. exists before, after. exact E.
  - intros [[-> ->]|H].
    + exists [], rest. reflexivity.
    + apply consecutive_cons, H.
Qed.

Lemma in_consecutive_edges (path : list string) (a b : string) (w : Z) :
  In (a, b, w) (consecutive_edges g path)
  <-> In (a, b, w) (edges g) /\ consecutive path a b.
Proof.
  induction path as [|u path IH].
  - simpl. split; [tauto|]. intros [_ [before [after E]]]. destruct before; discriminate.
  - destruct path as [|v rest].
    + simpl. split; [tauto|]. intros [_ [before [after E]]].
      destruct before as [|x [|y before]]; discriminate.
    + change (consecutive_edges g (u :: v :: rest))
        with (filter (same_edge u v) (edges g) ++ consecutive_edges g (v :: rest)).
      rewrite in_app_iff, filter_In, same_edge_iff, IH, consecutive_head. tauto.
Qed.

Lemma consecutive_edges_NoDup (path : list string) :
  NoDup (edges g) -> NoDup path -> NoDup (consecutive_edges g path).
Proof.
  intro NDe. induction path as [|u path IH]; intro ND; [constructor|].
  destruct path as [|v rest]; [constructor|].
  change (consecutive_edges g (u :: v :: rest))
    with (filter (same_edge u v) (edges g) ++ consecutive_edges g (v :: rest)).
  inversion ND as [|? ? Hu NDr]; subst.
  apply NoDup_app; [apply NoDup_filter, NDe | apply IH, NDr |].
  intros [[a b] w] H1 H2.
  apply filter_In in H1. destruct H1 as [_ S]. apply same_edge_iff in S.
  destruct S as [-> ->].
  apply in_consecutive_edges in H2. destruct H2 as [_ C].
  apply consecutive_in in C. tauto.
Qed.

Lemma in_subgraph_edges (path : list string) (a b : string) (w : Z) :
  In (a, b, w) (edges (subgraph g path))
  <-> In (a, b, w) (edges g) /\ In a path /\ In b path.
Proof.
  unfold subgraph. simpl. rewrite filter_In, andb_true_iff, !mem_iff. tauto.
Qed.

Lemma Qsum_permutation (l l' : list Q) :
  Permutation l l' -> Statistics.Qsum l == Statistics.Qsum l'.
Proof.
  induction 1 as [|x l l' _ IH|x y l|l l' l'' _ IH1 _ IH2]; simpl.
  - reflexivity.
  - rewrite IH. reflexivity.
  - ring.
  - rewrite IH1. exact IH2.
Qed.

Lemma mean_permutation (l l' : list Q) :
  Permutation l l' -> Statistics.mean l = Statistics.mean l'.
Proof.
  intro P. pose proof (Permutation_length P) as Hlen.
  destruct l as [|x l]; destruct l' as [|y l']; try discriminate; [reflexivity|].
  unfold Statistics.mean. f_equal. apply Qred_complete.
  unfold Statistics.count. rewrite Hlen, (Qsum_permutation _ _ P). reflexivity.
Qed.

End PathWeight.

(** X16.  On a well-formed graph, for a path without repeated node such
    that the only edges between its nodes link a node to the next one,
    [path_average_weight] is the arithmetic mean of the weights of the
    edges that link consecutive nodes of the path (and raises
    StatisticsError when there is no such edge). *)
Theorem path_average_weight_chord_free (graph : DiGraph) (path : list string) :
  wf_graph graph -> NoDup path -> chord_free graph path ->
  path_average_weight graph path = spec_path_weight graph path.
Proof.
  intros [_ [_ NDp]] ND CF.
  assert (NDe : NoDup (edges graph)) by exact (NoDup_map_inv fst _ NDp).
  unfold path_average_weight, spec_path_weight.
  rewrite consecutive_weights_map.
  apply mean_permutation, Permutation_map.
  apply NoDup_Permutation.
  - unfold subgraph. simpl. apply NoDup_filter, NDe.
  - apply consecutive_edges_NoDup; assumption.
  - intros [[a b] w]. rewrite in_subgraph_edges, in_consecutive_edges. split.
    + intros [He [Ha Hb]]. split; [exact He | exact (CF a b w He Ha Hb)].
    + intros [He C]. split; [exact He | exact (consecutive_in _ _ _ C)].
Qed.

Lemma path_average_weight_chord_free_witness :
  path_average_weight Samples.bubble_3_5 Samples.arm5
  = spec_path_weight Samples.bubble_3_5 Samples.arm5.
Proof.
  apply path_average_weight_chord_free.
  - apply of_edges_wf.
  - vm_compute. repeat (constructor; [simpl; intuition discriminate|]). constructor.
  - intros a b w He Ha Hb. vm_compute in He.
    destruct He as [E|[E|[E|[E|[E|[E|[]]]]]]]; injection E as <- <- <-.
    + vm_compute in Hb. intuition discriminate.
    + vm_compute in Ha. intuition discriminate.
    + exists [], ["B2"; "B3"; "T"]%string. reflexivity.
    + exists ["S"%string], ["B3"; "T"]%string. reflexivity.
    + exists ["S"; "B1"]%string, ["T"%string]. reflexivity.
    + exists ["S"; "B1"; "B2"]%string, []. reflexivity.
Defined.

(** X17.  [path_average_weight] raises StatisticsError exactly when no
    edge of the graph has both its ends among the nodes of the path, as
    for a path of one node without a loop or a path outside the graph;
    otherwise it returns a number. *)
Theorem path_average_weight_no_edge (graph : DiGraph) (path : list string) :
  (path_average_weight graph path = Raises StatisticsError
   <-> forall a b w, In (a, b, w) (edges graph) -> ~ (In a path /\ In b path))
  /\ ((exists a b w, In (a, b, w) (edges graph) /\ In a path /\ In b path)
      -> exists mean_weight, path_average_weight graph path = Returns mean_weight).
Proof.
  unfold path_average_weight, Statistics.mean.
  destruct (edges (subgraph graph path)) as [|[[x y] z] l] eqn:E.
  - assert (None : forall a b w, In (a, b, w) (edges graph) -> ~ (In a path /\ In b path)).
    { intros a b w He [Ha Hb].
      assert (Hin : In (a, b, w) (edges (subgraph graph path)))
        by (apply in_subgraph_edges; tauto).
      rewrite E in Hin. destruct Hin. }
    simpl. split; [tauto|].
    intros [a [b [w [He H]]]]. exfalso. exact (None a b w He H).
  - simpl. split.
    + split; [discriminate|]. intro H. exfalso.
      assert (Hin : In (x, y, z) (edges (subgraph graph path)))
        by (rewrite E; left; reflexivity).
      apply in_subgraph_edges in Hin. destruct Hin as [He Hxy].
      exact (H x y z He Hxy).
    + intros _. eexists. reflexivity.
Qed.

Lemma path_average_weight_no_edge_witness :
  exists mean_weight,
    path_average_weight Samples.chord Samples.chord_path = Returns mean_weight.
Proof.
  apply (proj2 (path_average_weight_no_edge Samples.chord Samples.chord_path)).
  exists "CA"%string, "AA"%string, 1%Z. vm_compute. tauto.
Defined.

(* ------------------------------------------------------------------ *)
(** * Properties of [fill] *)
(* ------------------------------------------------------------------ *)

Section Fill.

Lemma clamp_beyond (len i : Z) : 0 <= len -> len <= i -> clamp len i = len.
Proof.
  intros H0 H. unfold clamp.
  destruct (Z.ltb_spec i 0); [lia|].
  destruct (Z.ltb_spec i 0); [lia|].
  destruct (Z.ltb_spec len i); lia.
Qed.

(** The characters of [s[lo:hi]] for [0 <= lo <= hi]. *)
Lemma slice_chars (s : string) (lo hi : Z) :
  0 <= lo <= hi ->
  list_ascii_of_string (slice s lo hi)
  = firstn (Z.to_nat (hi - lo)) (skipn (Z.to_nat lo) (list_ascii_of_string s)).
Proof.
  intro H. unfold slice. rewrite list_ascii_of_string_of_list_ascii.
  set (l := list_ascii_of_string s).
  destruct (Z.le_gt_cases hi (Z.of_nat (List.length l))) as [Hfit|Hover].
  - rewrite !clamp_inside by lia. reflexivity.
  - rewrite (clamp_beyond _ hi) by lia.
    destruct (Z.le_gt_cases lo (Z.of_nat (List.length l))) as [Hlo|Hlo].
    + rewrite clamp_inside by lia.
      rewrite !firstn_all2; [reflexivity| |]; rewrite length_skipn; lia.
    + rewrite (clamp_beyond _ lo) by lia.
      rewrite !skipn_all2 by lia. rewrite !firstn_nil. reflexivity.
Qed.

(** Cutting a list into pieces of [w] elements and gluing them back. *)
Lemma chunks_concat {A : Type} (w n : nat) :
  forall l : list A,
    (List.length l <= n * w)%nat ->
    List.concat (map (fun j => firstn w (skipn (j * w) l)) (seq 0 n)) = l.
Proof.
  induction n as [|n IH]; intros l H.
  - destruct l; [reflexivity | simpl in H; lia].
  - change (seq 0 (S n)) with (0%nat :: seq 1 n).
    rewrite <- seq_shift. cbn [map]. rewrite map_map. cbn [List.concat].
    change (0 * w)%nat with 0%nat. cbn [skipn].
    rewrite (map_ext _ (fun j => firstn w (skipn (j * w) (skipn w l)))).
    + rewrite IH; [apply firstn_skipn|]. rewrite length_skipn. simpl in H. lia.
    + intro j. rewrite skipn_skipn. f_equal. f_equal. lia.
Qed.

Lemma concat_strings (chunks : list (list ascii)) :
  String.concat EmptyString (map string_of_list_ascii chunks)
  = string_of_list_ascii (List.concat chunks).
Proof.
  induction chunks as [|c chunks IH]; [reflexivity|].
  simpl map. rewrite concat_empty_cons, IH. simpl List.concat.
  symmetry. apply string_of_chars_app.
Qed.

(** The number of lines: the length divided by the width, rounded up. *)
Lemma line_count (len width : Z) :
  0 <= len -> 1 <= width ->
  let n := (len + width - 1) / width in
  0 <= n /\ len <= n * width /\ (n - 1) * width < len.
Proof.
  intros Hl Hw n.
  pose proof (Z.mul_div_le (len + width - 1) width ltac:(lia)) as H1.
  pose proof (Z.mul_succ_div_gt (len + width - 1) width ltac:(lia)) as H2.
  fold n in H1, H2.
  assert (0 <= n) by (apply Z.div_pos; lia).
  clearbody n. repeat split; nia.
Qed.

Lemma fill_lines_returns (text : string) (width : Z) :
  1 <= width ->
  fill_lines text width
  = Returns
      (map (fun j : nat =>
              string_of_list_ascii
                (firstn (Z.to_nat width)
                        (skipn (j * Z.to_nat width) (list_ascii_of_string text))))
           (seq 0 (Z.to_nat ((Z.of_nat (String.length text) + width - 1) / width)))).
Proof.
  intro Hw. unfold fill_lines, range0.
  destruct (Z.eqb_spec width 0); [lia|].
  destruct (Z.ltb_spec 0 width); [|lia].
  simpl. f_equal. rewrite map_map. apply map_ext. intro j.
  apply chars_injective.
  rewrite slice_chars by lia. rewrite list_ascii_of_string_of_list_ascii.
  f_equal; [lia|]. f_equal. lia.
Qed.

End Fill.

(** X18.  For a width of at least 1, [fill] joins with the line separator
    the pieces of the text cut every [width] characters: put end to end
    the lines give back the text, there are [ceil(len(text) / width)] of
    them, none is empty or longer than [width], and all but the last have
    exactly [width] characters. *)
Theorem fill_lines_round_trip (linesep text : string) (width : Z) :
  1 <= width ->
  exists lines,
    fill linesep text width = Returns (String.concat linesep lines)
    /\ String.concat EmptyString lines = text
    /\ Z.of_nat (List.length lines)
       = (Z.of_nat (String.length text) + width - 1) / width
    /\ Forall (fun line => 1 <= Z.of_nat (String.length line) <= width) lines
    /\ forall i line, (S i < List.length lines)%nat ->
                      nth_error lines i = Some line ->
                      Z.of_nat (String.length line) = width.
Proof.
  intro Hw.
  set (l := list_ascii_of_string text).
  set (w := Z.to_nat width).
  assert (Hw' : Z.of_nat w = width) by (unfold w; lia).
  assert (Hl : Z.of_nat (String.length text) = Z.of_nat (List.length l))
    by (unfold l; rewrite string_length_chars; reflexivity).
  destruct (line_count (Z.of_nat (String.length text)) width ltac:(lia) Hw)
    as [Hq [Hcover Hlast]].
  pose proof (fill_lines_returns text width Hw) as Hfill. fold l w in Hfill.
  revert Hq Hcover Hlast Hfill.
  generalize ((Z.of_nat (String.length text) + width - 1) / width). intros q Hq Hcover Hlast Hfill.
  rewrite Hl in Hcover, Hlast.
  assert (Hmul : forall j : nat, Z.of_nat (j * w) = Z.of_nat j * width)
    by (intro j; rewrite Nat2Z.inj_mul, Hw'; reflexivity).
  eexists. split; [|split; [|split; [|split]]].
  - unfold fill. rewrite Hfill. reflexivity.
  - rewrite <- map_map with (g := string_of_list_ascii)
                            (f := fun j => firstn w (skipn (j * w) l)).
    rewrite concat_strings, chunks_concat.
    + apply string_of_list_ascii_of_string.
    + apply Nat2Z.inj_le. rewrite Hmul. lia.
  - rewrite length_map, length_seq. lia.
  - apply Forall_forall. intros line Hin.
    apply in_map_iff in Hin. destruct Hin as [j [<- Hj]].
    apply in_seq in Hj.
    rewrite string_of_chars_length, length_firstn, length_skipn.
    pose proof (Hmul j) as Hjw.
    assert (Z.of_nat j * width <= (q - 1) * width) by nia.
    lia.
  - intros i line Hi Hline.
    rewrite length_map, length_seq in Hi.
    rewrite nth_error_map in Hline.
    destruct (nth_error (seq 0 (Z.to_nat q)) i) as [j|] eqn:E; [|discriminate].
    simpl in Hline. injection Hline as <-.
    apply (nth_error_nth _ _ 0%nat) in E.
    rewrite seq_nth in E by lia. simpl in E. subst j.
    rewrite string_of_chars_length, length_firstn, length_skipn.
    pose proof (Hmul i) as Hiw.
    assert ((Z.of_nat i + 1) * width <= (q - 1) * width) by nia.
    lia.
Qed.

Lemma fill_lines_round_trip_witness :
  exists lines,
    fill "|" "AATCGAT" 3 = Returns (String.concat "|" lines)
    /\ String.concat EmptyString lines = "AATCGAT"%string.
Proof.
  destruct (fill_lines_round_trip "|" "AATCGAT" 3 ltac:(lia)) as [lines [H1 [H2 _]]].
  exists lines. split; assumption.
Defined.

(** X19.  [fill] raises ValueError for a width of 0, and for a negative
    width returns the empty string, whatever the text. *)
Theorem fill_bad_width (linesep text : string) (width : Z) :
  (width = 0 -> fill linesep text width = Raises ValueError)
  /\ (width < 0 -> fill linesep text width = Returns EmptyString).
Proof.
  unfold fill, fill_lines, range0. split.
  - intros ->. reflexivity.
  - intro Hw.
    destruct (Z.eqb_spec width 0); [lia|].
    destruct (Z.ltb_spec 0 width); [lia|].
    replace (Z.to_nat ((Z.of_nat (String.length text) + width + 1) / width))
      with 0%nat; [reflexivity|].
    assert ((Z.of_nat (String.length text) + width + 1) / width <= 0); [|lia].
    rewrite <- Z.div_opp_opp by lia.
    destruct (Z_lt_le_dec 0 (- (Z.of_nat (String.length text) + width + 1))) as [P|N].
    + rewrite Z.div_small; lia.
    + apply Z.div_le_upper_bound; lia.
Qed.

Lemma fill_bad_width_witness :
  fill "|" "AATCGAT" 0 = Raises ValueError
  /\ fill "|" "AATCGAT" (-3) = Returns EmptyString.
Proof.
  split.
  - apply (proj1 (fill_bad_width "|" "AATCGAT" 0)). reflexivity.
  - apply (proj2 (fill_bad_width "|" "AATCGAT" (-3))). lia.
Defined.

(* ------------------------------------------------------------------ *)
(** * Properties of [read_fastq] *)
(* ------------------------------------------------------------------ *)

Section Fastq.

Lemma read_fastq_record (header sequence plus quality : string) (rest : list string) :
  read_fastq (header :: sequence :: plus :: quality :: rest)
  = (strip sequence :: fst (read_fastq rest), snd (read_fastq rest)).
Proof.
  cbn [read_fastq]. destruct (read_fastq rest). reflexivity.
Qed.

Lemma lstrip_chars_all (p : ascii -> bool) (pre l : list ascii) :
  Forall (fun c => p c = true) pre -> lstrip_chars p (pre ++ l) = lstrip_chars p l.
Proof.
  induction 1 as [|c pre Hc _ IH]; [reflexivity|].
  simpl. rewrite Hc. exact IH.
Qed.

Lemma lstrip_chars_head (p : ascii -> bool) (c : ascii) (l : list ascii) :
  p c = false -> lstrip_chars p (c :: l) = c :: l.
Proof. intro H. simpl. rewrite H. reflexivity. Qed.

Lemma lstrip_chars_suffix (p : ascii -> bool) (l : list ascii) :
  exists pre, l = pre ++ lstrip_chars p l /\ Forall (fun c => p c = true) pre.
Proof.
  induction l as [|c l [pre [E F]]].
  - exists []. split; [reflexivity | constructor].
  - simpl. destruct (p c) eqn:Hc.
    + exists (c :: pre). split; [simpl; congruence | constructor; assumption].
    + exists []. split; [reflexivity | constructor].
Qed.

Lemma lstrip_chars_starts (p : ascii -> bool) (l : list ascii) (c : ascii) (rest : list ascii) :
  lstrip_chars p l = c :: rest -> p c = false.
Proof.
  induction l as [|a l IH]; [discriminate|].
  simpl. destruct (p a) eqn:Ha; [exact IH|].
  intro E. injection E as <- _. exact Ha.
Qed.

End Fastq.

(** X20.  On a file made of complete four-line records, [read_fastq]
    yields one read per record, the second line of the record stripped, in
    file order, and ends normally. *)
Theorem read_fastq_records (records : list (string * string * string * string)) :
  read_fastq (flat_map record_lines records)
  = (map (fun record => strip (snd (fst (fst record)))) records, Exhausted).
Proof.
  induction records as [|[[[header sequence] plus] quality] records IH].
  - reflexivity.
  - cbn [flat_map record_lines app]. rewrite read_fastq_record, IH. reflexivity.
Qed.

(** X21.  Whatever the lines, [read_fastq] yields [(n + 2) // 4] reads for
    a file of [n] lines, and it ends normally exactly when [n] is a
    multiple of 4: a truncated last record makes the generator fail, after
    its read was yielded if the sequence line is there. *)
Theorem read_fastq_count (lines : list string) :
  Z.of_nat (List.length (fst (read_fastq lines)))
  = (Z.of_nat (List.length lines) + 2) / 4
  /\ (snd (read_fastq lines) = Exhausted <-> Z.of_nat (List.length lines) mod 4 = 0).
Proof.
  assert (G : forall n (l : list string), (List.length l <= n)%nat ->
              Z.of_nat (List.length (fst (read_fastq l)))
              = (Z.of_nat (List.length l) + 2) / 4
              /\ (snd (read_fastq l) = Exhausted <-> Z.of_nat (List.length l) mod 4 = 0)).
  { induction n as [|n IH]; intros l Hl.
    - destruct l; [|simpl in Hl; lia]. simpl. split; [reflexivity | tauto].
    - destruct l as [|a [|b [|c [|d l]]]].
      + simpl. split; [reflexivity | tauto].
      + simpl. split; [reflexivity|]. split; [discriminate | intro H; discriminate H].
      + simpl. split; [reflexivity|]. split; [discriminate | intro H; discriminate H].
      + simpl. split; [reflexivity|]. split; [discriminate | intro H; discriminate H].
      + rewrite read_fastq_record. cbn [fst snd List.length].
        destruct (IH l ltac:(simpl in Hl; lia)) as [Hc He].
        rewrite He. rewrite !Nat2Z.inj_succ, Hc.
        replace (Z.succ (Z.succ (Z.succ (Z.succ (Z.of_nat (List.length l))))) + 2)
          with ((Z.of_nat (List.length l) + 2) + 1 * 4) by lia.
        replace (Z.succ (Z.succ (Z.succ (Z.succ (Z.of_nat (List.length l))))))
          with (Z.of_nat (List.length l) + 1 * 4) by lia.
        rewrite Z.div_add, Z.mod_add by lia. split; [lia | tauto]. }
  apply (G (List.length lines)). lia.
Qed.

(** X22.  [strip] removes the whitespace around a text that neither
    begins nor ends with a whitespace character, whatever whitespace is
    put before and after it; in particular the read of a sequence line
    ["ACGT\n"] is ["ACGT"].  What [strip] returns never begins nor ends
    with a whitespace character. *)
Theorem strip_spec :
  (forall (before after : list ascii) (first last : ascii) (middle : list ascii),
      Forall (fun c => isspace c = true) before ->
      Forall (fun c => isspace c = true) after ->
      isspace first = false -> isspace last = false ->
      strip (string_of_list_ascii (before ++ (first :: middle ++ [last]) ++ after))
      = string_of_list_ascii (first :: middle ++ [last]))
  /\ (forall (s : string) (c : ascii) (rest : list ascii),
         list_ascii_of_string (strip s) = c :: rest -> isspace c = false)
  /\ (forall (s : string) (front : list ascii) (c : ascii),
         list_ascii_of_string (strip s) = front ++ [c] -> isspace c = false).
Proof.
  split; [|split].
  - intros before after first last middle Hb Ha Hf Hl.
    unfold strip. rewrite list_ascii_of_string_of_list_ascii.
    rewrite (lstrip_chars_all _ _ _ Hb).
    set (core := first :: middle ++ [last]).
    assert (E1 : lstrip_chars isspace (core ++ after) = core ++ after)
      by (apply (lstrip_chars_head _ _ _ Hf)).
    assert (E2 : rev core = last :: rev (first :: middle)).
    { unfold core. change (first :: middle ++ [last]) with ((first :: middle) ++ [last]).
      rewrite rev_app_distr. reflexivity. }
    rewrite E1, rev_app_distr.
    rewrite lstrip_chars_all by (apply Forall_rev, Ha).
    rewrite E2, (lstrip_chars_head _ _ _ Hl), <- E2, rev_involutive.
    reflexivity.
  - intros s c rest H. unfold strip in H.
    rewrite list_ascii_of_string_of_list_ascii in H.
    set (l := lstrip_chars isspace (list_ascii_of_string s)) in *.
    destruct (lstrip_chars_suffix isspace (rev l)) as [pre [E F]].
    set (t := lstrip_chars isspace (rev l)) in *.
    assert (El : l = rev t ++ rev pre).
    { rewrite <- (rev_involutive l), E, rev_app_distr. reflexivity. }
    rewrite H in El.
    destruct l as [|a l'] eqn:Hl'; [discriminate|].
    injection El as Ea _.
    subst a. exact (lstrip_chars_starts _ _ _ _ Hl').
  - intros s front c H. unfold strip in H.
    rewrite list_ascii_of_string_of_list_ascii in H.
    set (t := lstrip_chars isspace
                (rev (lstrip_chars isspace (list_ascii_of_string s)))) in *.
    assert (Et : t = c :: rev front).
    { rewrite <- (rev_involutive t), H, rev_app_distr. reflexivity. }
    exact (lstrip_chars_starts _ _ _ _ Et).
Qed.

Lemma strip_spec_witness :
  strip "ACGT
" = "ACGT"%string.
Proof.
  apply (proj1 strip_spec [] ["010"%char] "A"%char "T"%char ["C"; "G"]%char).
  - constructor.
  - constructor; [reflexivity | constructor].
  - reflexivity.
  - reflexivity.
Defined.

(* ------------------------------------------------------------------ *)
(** * Properties of [simplify_bubbles] *)
(* ------------------------------------------------------------------ *)

Section Simplification.

Variable lca : DiGraph -> string -> string -> lca_answer.

Lemma simplify_bubbles_unfold (draws : nat -> nat) (fuel level : nat) (graph : DiGraph) :
  simplify_bubbles lca draws fuel level graph
  = match find_bubble lca graph (nodes graph) with
    | NoBubble => Done graph
    | LcaRaised => LcaFailed
    | Bubble ancestor node =>
        match match ancestor with
              | Some ancestor_node => solve_bubble graph ancestor_node node (draws level)
              | None => Raises NodeNotFound
              end with
        | Raises e => Failed e
        | Returns graph' =>
            match fuel with
            | O => TooDeep
            | S fuel' => simplify_bubbles lca draws fuel' (S level) graph'
            end
        end
    end.
Proof. destruct fuel; reflexivity. Qed.

(** Without a truthy answer the inner loop runs to its end: it leaves
    [bubble] as it was. *)
Lemma scan_second_preds_falsy (graph : DiGraph) (first_pred : string)
      (seconds : list string) (st : scan_state) :
  (forall s, In s seconds ->
             lca graph first_pred s = LcaNone
             \/ lca graph first_pred s = LcaNode EmptyString) ->
  exists st', scan_second_preds lca graph first_pred seconds st = Some st'
              /\ bubble st' = bubble st.
Proof.
  revert st. induction seconds as [|s seconds IH]; intros st H.
  - exists st. split; reflexivity.
  - simpl. destruct (H s (or_introl eq_refl)) as [E|E]; rewrite E.
    + destruct (IH (mkScan (bubble st) None)) as [st' [E' B]].
      * intros x Hx. apply H. right. exact Hx.
      * exists st'. split; [exact E' | exact B].
    + simpl truthy. cbn [negb].
      destruct (IH (mkScan (bubble st) (Some EmptyString))) as [st' [E' B]].
      * intros x Hx. apply H. right. exact Hx.
      * exists st'. split; [exact E' | exact B].
Qed.

(** When every answer is [None], a non-empty inner loop leaves [None] in
    [ancestor_node]. *)
Lemma scan_second_preds_none (graph : DiGraph) (first_pred : string)
      (seconds : list string) (st : scan_state) :
  seconds <> [] ->
  (forall s, In s seconds -> lca graph first_pred s = LcaNone) ->
  scan_second_preds lca graph first_pred seconds st = Some (mkScan (bubble st) None).
Proof.
  revert st. induction seconds as [|s seconds IH]; intros st Hne H; [contradiction|].
  simpl. rewrite (H s (or_introl eq_refl)).
  destruct seconds as [|s' seconds]; [reflexivity|].
  rewrite IH; [reflexivity | discriminate |].
  intros x Hx. apply H. right. exact Hx.
Qed.

(** Once [bubble] is set it stays set, and a truthy answer sets it; the
    ancestor computation apart, nothing fails. *)
Lemma scan_second_preds_total (graph : DiGraph) (first_pred : string)
      (seconds : list string) (st : scan_state) :
  (forall s, In s seconds -> lca graph first_pred s <> LcaError) ->
  exists st', scan_second_preds lca graph first_pred seconds st = Some st'
              /\ (bubble st = true -> bubble st' = true)
              /\ ((exists s n, In s seconds /\ lca graph first_pred s = LcaNode n
                               /\ truthy n = true) -> bubble st' = true).
Proof.
  revert st. induction seconds as [|s seconds IH]; intros st H.
  - exists st. split; [reflexivity|]. split; [tauto|].
    intros [s [n [[] _]]].
  - simpl. destruct (lca graph first_pred s) as [n| |] eqn:E.
    + destruct (truthy n) eqn:T.
      * eexists. split; [reflexivity|]. split; reflexivity.
      * destruct (IH (mkScan (bubble st) (Some n))) as [st' [E' [B1 B2]]].
        { intros x Hx. apply H. right. exact Hx. }
        exists st'. split; [exact E'|]. split; [exact B1|].
        intros [x [m [[<-|Hx] [Ex Tm]]]].
        -- rewrite E in Ex. injection Ex as <-. congruence.
        -- apply B2. exists x, m. tauto.
    + destruct (IH (mkScan (bubble st) None)) as [st' [E' [B1 B2]]].
      { intros x Hx. apply H. right. exact Hx. }
      exists st'. split; [exact E'|]. split; [exact B1|].
      intros [x [m [[<-|Hx] [Ex Tm]]]].
      * rewrite E in Ex. discriminate.
      * apply B2. exists x, m. tauto.
    + exfalso. exact (H s (or_introl eq_refl) E).
Qed.

Lemma scan_first_preds_app (graph : DiGraph) (list_preds : list string)
      (r1 r2 : list string) (i : nat) (st : scan_state) :
  scan_first_preds lca graph list_preds i (r1 ++ r2) st
  = match scan_first_preds lca graph list_preds i r1 st with
    | None => None
    | Some st' => scan_first_preds lca graph list_preds (i + List.length r1) r2 st'
    end.
Proof.
  revert i st. induction r1 as [|first r1 IH]; intros i st.
  - simpl. rewrite Nat.add_0_r. reflexivity.
  - simpl.
    destruct (scan_second_preds lca graph first (losers list_preds i) st); [|reflexivity].
    rewrite IH. replace (S i + List.length r1)%nat with (i + S (List.length r1))%nat by lia.
    reflexivity.
Qed.

Lemma scan_first_preds_falsy (graph : DiGraph) (list_preds remaining : list string)
      (i : nat) (st : scan_state) :
  (forall a b, lca graph a b = LcaNone \/ lca graph a b = LcaNode EmptyString) ->
  exists st', scan_first_preds lca graph list_preds i remaining st = Some st'
              /\ bubble st' = bubble st.
Proof.
  intro H. revert i st. induction remaining as [|first remaining IH]; intros i st.
  - exists st. split; reflexivity.
  - simpl.
    destruct (scan_second_preds_falsy graph first (losers list_preds i) st)
      as [st1 [E1 B1]]; [intros s _; apply H|].
    rewrite E1. destruct (IH (S i) st1) as [st' [E' B']].
    exists st'. split; [exact E' | congruence].
Qed.

Lemma scan_first_preds_total (graph : DiGraph) (list_preds remaining : list string)
      (i : nat) (st : scan_state) :
  (forall a b, lca graph a b <> LcaError) ->
  exists st', scan_first_preds lca graph list_preds i remaining st = Some st'
              /\ (bubble st = true -> bubble st' = true)
              /\ ((exists k first s n,
                      nth_error remaining k = Some first
                      /\ In s (losers list_preds (i + k))
                      /\ lca graph first s = LcaNode n /\ truthy n = true)
                  -> bubble st' = true).
Proof.
  intro H. revert i st. induction remaining as [|first remaining IH]; intros i st.
  - exists st. split; [reflexivity|]. split; [tauto|].
    intros [k [f [s [n [E _]]]]]. destruct k; discriminate.
  - simpl.
    destruct (scan_second_preds_total graph first (losers list_preds i) st)
      as [st1 [E1 [M1 T1]]]; [intros s _; apply H|].
    rewrite E1. destruct (IH (S i) st1) as [st' [E' [M' T']]].
    exists st'. split; [exact E'|]. split; [tauto|].
    intros [k [f [s [n [Ef [Hs [El Tn]]]]]]].
    destruct k as [|k].
    + simpl in Ef. injection Ef as <-. rewrite Nat.add_0_r in Hs.
      apply M', T1. exists s, n. tauto.
    + simpl in Ef. apply T'. exists k, f, s, n.
      replace (S i + k)%nat with (i + S k)%nat by lia. tauto.
Qed.

(** A graph where no node has two predecessors has no bubble to find, and
    the ancestors are never computed. *)
Lemma find_bubble_no_branching (graph : DiGraph) (ns : list string) :
  (forall node, In node ns -> (List.length (predecessors graph node) <= 1)%nat) ->
  find_bubble lca graph ns = NoBubble.
Proof.
  induction ns as [|node ns IH]; intro H; [reflexivity|].
  simpl.
  destruct (Nat.ltb_spec 1 (List.length (predecessors graph node))) as [Hlt|_].
  - specialize (H node (or_introl eq_refl)). lia.
  - apply IH. intros m Hm. apply H. right. exact Hm.
Qed.

Lemma find_bubble_falsy (graph : DiGraph) (ns : list string) :
  (forall a b, lca graph a b = LcaNone \/ lca graph a b = LcaNode EmptyString) ->
  find_bubble lca graph ns = NoBubble.
Proof.
  intro H. induction ns as [|node ns IH]; [reflexivity|].
  simpl. destruct (1 <? List.length (predecessors graph node))%nat; [|exact IH].
  destruct (scan_first_preds_falsy graph (predecessors graph node)
                                   (predecessors graph node) 0 (mkScan false None) H)
    as [st' [E B]].
  rewrite E. simpl in B. rewrite B. exact IH.
Qed.

Lemma find_bubble_skip (graph : DiGraph) (before rest : list string) :
  (forall node, In node before -> (List.length (predecessors graph node) <= 1)%nat) ->
  find_bubble lca graph (before ++ rest) = find_bubble lca graph rest.
Proof.
  induction before as [|node before IH]; intro H; [reflexivity|].
  simpl.
  destruct (Nat.ltb_spec 1 (List.length (predecessors graph node))) as [Hlt|_].
  - specialize (H node (or_introl eq_refl)). lia.
  - apply IH. intros m Hm. apply H. right. exact Hm.
Qed.

Lemma losers_last {A : Type} (l : list A) (x : A) :
  losers (l ++ [x]) (List.length l) = l.
Proof.
  unfold losers.
  rewrite firstn_app, firstn_all, Nat.sub_diag, skipn_all2
    by (rewrite length_app; simpl; lia).
  simpl. rewrite !app_nil_r. reflexivity.
Qed.

(** The scan of a node whose last predecessor has no common ancestor with
    the others, after a bubble was seen among the others. *)
Lemma find_bubble_stale (graph : DiGraph) (node : string) (rest preds : list string)
      (last_pred : string) :
  predecessors graph node = preds ++ [last_pred] ->
  (forall a b, lca graph a b <> LcaError) ->
  (exists k first s n,
      nth_error preds k = Some first
      /\ In s (losers (preds ++ [last_pred]) k)
      /\ lca graph first s = LcaNode n /\ truthy n = true) ->
  (forall s, In s preds -> lca graph last_pred s = LcaNone) ->
  find_bubble lca graph (node :: rest) = Bubble None node.
Proof.
  intros Ep Hok Hex Hnone.
  assert (Hne : preds <> []).
  { destruct Hex as [k [f [_ [_ [E _]]]]]. intros ->. destruct k; discriminate. }
  simpl. rewrite Ep.
  destruct (Nat.ltb_spec 1 (List.length (preds ++ [last_pred]))) as [_|Hle].
  - rewrite scan_first_preds_app.
    destruct (scan_first_preds_total graph (preds ++ [last_pred]) preds 0
                                     (mkScan false None) Hok) as [st1 [E1 [_ T1]]].
    rewrite E1. simpl Nat.add. cbn [scan_first_preds].
    rewrite losers_last, (scan_second_preds_none graph last_pred preds st1 Hne Hnone).
    rewrite (T1 Hex). reflexivity.
  - rewrite length_app in Hle. simpl in Hle.
    destruct preds; [contradiction | simpl in Hle; lia].
Qed.

(** What a returned graph went through. *)
Lemma simplify_bubbles_done (draws : nat -> nat) (fuel : nat) :
  forall (level : nat) (graph graph' : DiGraph),
    simplify_bubbles lca draws fuel level graph = Done graph' ->
    incl (nodes graph') (nodes graph)
    /\ incl (edges graph') (edges graph)
    /\ (wf_graph graph -> wf_graph graph')
    /\ find_bubble lca graph' (nodes graph') = NoBubble.
Proof.
  induction fuel as [|fuel IH]; intros level graph graph' H;
    rewrite simplify_bubbles_unfold in H;
    destruct (find_bubble lca graph (nodes graph)) as [|ancestor node|] eqn:Ef;
    try discriminate H.
  - injection H as <-.
    split; [apply incl_refl|]. split; [apply incl_refl|]. split; [tauto | exact Ef].
  - destruct ancestor as [a|]; [|discriminate H].
    destruct (solve_bubble graph a node (draws level)); discriminate H.
  - injection H as <-.
    split; [apply incl_refl|]. split; [apply incl_refl|]. split; [tauto | exact Ef].
  - destruct ancestor as [a|]; [|discriminate H].
    destruct (solve_bubble graph a node (draws level)) as [g1|e] eqn:Es;
      [|discriminate H].
    destruct (solve_bubble_returns _ _ _ _ _ Es) as [_ [_ [In1 [Ie1 [W1 _]]]]].
    destruct (IH _ _ _ H) as [In2 [Ie2 [W2 F]]].
    split; [exact (incl_tran In2 In1)|].
    split; [exact (incl_tran Ie2 Ie1)|].
    split; [tauto | exact F].
Qed.

End Simplification.

(** X23.  On a graph where no node has more than one predecessor,
    [simplify_bubbles] returns the graph as it is, without computing any
    ancestor; it also does when no pair of predecessors has a common
    ancestor (every answer is [None] or the empty node). *)
Theorem simplify_bubbles_nothing_to_do
        (lca : DiGraph -> string -> string -> lca_answer)
        (draws : nat -> nat) (fuel level : nat) (graph : DiGraph) :
  ((forall node, In node (nodes graph) ->
                 (List.length (predecessors graph node) <= 1)%nat)
   -> simplify_bubbles lca draws fuel level graph = Done graph)
  /\ ((forall a b, lca graph a b = LcaNone \/ lca graph a b = LcaNode EmptyString)
      -> simplify_bubbles lca draws fuel level graph = Done graph).
Proof.
  split; intro H; rewrite simplify_bubbles_unfold.
  - rewrite (find_bubble_no_branching lca graph (nodes graph) H). reflexivity.
  - rewrite (find_bubble_falsy lca graph (nodes graph) H). reflexivity.
Qed.

Lemma simplify_bubbles_nothing_to_do_witness :
  simplify_bubbles (fun _ _ _ => LcaError) (fun _ => 0%nat) 0 0 Samples.linear
  = Done Samples.linear.
Proof.
  apply (proj1 (simplify_bubbles_nothing_to_do
                  (fun _ _ _ => LcaError) (fun _ => 0%nat) 0 0 Samples.linear)).
  intros node Hin. vm_compute in Hin.
  destruct Hin as [<-|[<-|[<-|[]]]]; vm_compute; lia.
Defined.

(** X24.  Whenever [simplify_bubbles] returns a graph, every node and
    every edge of it was in the input graph, it is well formed if the input
    was, and a new scan finds no bubble in it. *)
Theorem simplify_bubbles_only_removes
        (lca : DiGraph -> string -> string -> lca_answer)
        (draws : nat -> nat) (fuel level : nat) (graph graph' : DiGraph) :
  simplify_bubbles lca draws fuel level graph = Done graph' ->
  incl (nodes graph') (nodes graph)
  /\ incl (edges graph') (edges graph)
  /\ (wf_graph graph -> wf_graph graph')
  /\ find_bubble lca graph' (nodes graph') = NoBubble.
Proof. apply simplify_bubbles_done. Qed.

Lemma simplify_bubbles_only_removes_witness :
  incl (nodes (mkDiGraph ["S"; "A"; "T"]%string [("S", "A", 1); ("A", "T", 1)]%string))
       (nodes Samples.twins).
Proof.
  apply (simplify_bubbles_only_removes
           (fun _ _ _ => LcaNode "S") (fun _ => 0%nat) 5 0 Samples.twins).
  vm_compute. reflexivity.
Defined.

(** X25.  When the first node with several predecessors has a bubble among
    its predecessors and a last predecessor that has no common ancestor
    with any of the others, the scan leaves [None] in [ancestor_node] while
    [bubble] is set: [simplify_bubbles] calls [solve_bubble] with [None] as
    the ancestor and fails with NodeNotFound instead of resolving the
    bubble. *)
Theorem simplify_bubbles_unrelated_predecessor
        (lca : DiGraph -> string -> string -> lca_answer)
        (draws : nat -> nat) (fuel level : nat) (graph : DiGraph)
        (before after preds : list string) (node last_pred : string) :
  nodes graph = before ++ node :: after ->
  (forall m, In m before -> (List.length (predecessors graph m) <= 1)%nat) ->
  predecessors graph node = preds ++ [last_pred] ->
  (forall a b, lca graph a b <> LcaError) ->
  (exists k first s n,
      nth_error preds k = Some first
      /\ In s (losers (preds ++ [last_pred]) k)
      /\ lca graph first s = LcaNode n /\ truthy n = true) ->
  (forall s, In s preds -> lca graph last_pred s = LcaNone) ->
  simplify_bubbles lca draws fuel level graph = Failed NodeNotFound.
Proof.
  intros En Hbefore Ep Hok Hex Hnone.
  rewrite simplify_bubbles_unfold, En.
  rewrite (find_bubble_skip lca graph before (node :: after) Hbefore).
  rewrite (find_bubble_stale lca graph node after preds last_pred Ep Hok Hex Hnone).
  reflexivity.
Qed.

Lemma simplify_bubbles_unrelated_predecessor_witness :
  simplify_bubbles tip_at_bubble_lca (fun _ => 0%nat) 5 0 tip_at_bubble
  = Failed NodeNotFound.
Proof.
  apply (simplify_bubbles_unrelated_predecessor
           tip_at_bubble_lca (fun _ => 0%nat) 5 0 tip_at_bubble
           ["S"; "A"; "B"]%string ["R"%string] ["A"; "B"]%string "T" "R").
  - reflexivity.
  - intros m [<-|[<-|[<-|[]]]]; vm_compute; lia.
  - reflexivity.
  - intros a b. unfold tip_at_bubble_lca.
    destruct ((String.eqb a "A" && String.eqb b "B")
              || (String.eqb a "B" && String.eqb b "A")); discriminate.
  - exists 0%nat, "A"%string, "B"%string, "S"%string.
    split; [reflexivity|]. split; [left; reflexivity|]. split; reflexivity.
  - intros s [<-|[<-|[]]]; reflexivity.
Defined.

(* ------------------------------------------------------------------ *)
(** * From reads to contigs *)
(* ------------------------------------------------------------------ *)

Section Pipeline.

Lemma slice_init_length (s : string) :
  String.length (slice s 0 (-1)) = (String.length s - 1)%nat.
Proof.
  rewrite (string_length_chars (slice s 0 (-1))), slice_init_chars, length_firstn.
  rewrite <- string_length_chars. lia.
Qed.

Lemma slice_from_1_length (s : string) :
  String.length (slice_from s 1) = (String.length s - 1)%nat.
Proof.
  rewrite (string_length_chars (slice_from s 1)), slice_from_1_chars, length_skipn.
  rewrite <- string_length_chars. reflexivity.
Qed.

Lemma concat_empty_app (xs ys : list string) :
  String.concat EmptyString (xs ++ ys)
  = (String.concat EmptyString xs ++ String.concat EmptyString ys)%string.
Proof.
  induction xs as [|x xs IH]; [reflexivity|].
  change ((x :: xs) ++ ys) with (x :: (xs ++ ys)).
  rewrite !concat_empty_cons, IH, string_app_assoc. reflexivity.
Qed.

(** The characters of [s[-1:]]. *)
Lemma last_of_chars (s : string) :
  list_ascii_of_string (last_of s)
  = skipn (List.length (list_ascii_of_string s) - 1) (list_ascii_of_string s).
Proof.
  unfold last_of, slice_from, slice.
  rewrite list_ascii_of_string_of_list_ascii, string_length_chars.
  set (l := list_ascii_of_string s).
  destruct l as [|a l'] eqn:E; [reflexivity|].
  rewrite (clamp_from_end _ (-1)) by (simpl List.length; lia).
  rewrite clamp_inside by lia.
  replace (Z.to_nat (-1 + Z.of_nat (List.length (a :: l'))))
    with (List.length (a :: l') - 1)%nat by lia.
  apply firstn_all2. rewrite length_skipn. lia.
Qed.

Lemma firstn_add {A : Type} (a b : nat) (l : list A) :
  firstn (a + b) l = firstn a l ++ firstn b (skipn a l).
Proof.
  revert l. induction a as [|a IH]; intro l; [reflexivity|].
  destruct l as [|x l]; simpl.
  - rewrite firstn_nil. reflexivity.
  - rewrite IH. reflexivity.
Qed.

(** The last characters of the nodes that the first [j] windows of a read
    lead to are the characters of the read from position [k - 1] on. *)
Lemma walk_tail (read : string) (kmer_size : Z) (j : nat) :
  2 <= kmer_size ->
  Z.of_nat j + kmer_size <= Z.of_nat (String.length read) + 1 ->
  String.concat EmptyString
    (map (fun i : nat =>
            last_of (slice_from (slice read (Z.of_nat i) (Z.of_nat i + kmer_size)) 1))
         (seq 0 j))
  = string_of_list_ascii
      (firstn j (skipn (Z.to_nat (kmer_size - 1)) (list_ascii_of_string read))).
Proof.
  intro Hk. induction j as [|j IH]; intro Hfit; [reflexivity|].
  rewrite seq_S, map_app, concat_empty_app, IH by lia.
  simpl map. simpl String.concat. simpl Nat.add.
  replace (S j) with (j + 1)%nat by lia.
  rewrite firstn_add, string_of_chars_app. f_equal.
  apply chars_injective.
  rewrite last_of_chars, slice_from_1_chars, window_chars by lia.
  rewrite list_ascii_of_string_of_list_ascii.
  set (l := list_ascii_of_string read).
  assert (Hl : Z.of_nat (List.length l) = Z.of_nat (String.length read))
    by (unfold l; rewrite string_length_chars; reflexivity).
  rewrite length_skipn, length_firstn, length_skipn, Nat2Z.id.
  replace (Init.Nat.min (Z.to_nat kmer_size) (List.length l - j) - 1 - 1)%nat
    with (Z.to_nat kmer_size - 2)%nat by lia.
  rewrite skipn_skipn.
  replace (Z.to_nat kmer_size - 2 + 1)%nat with (Z.to_nat (kmer_size - 1)) by lia.
  rewrite skipn_skipn.
  replace (Z.to_nat kmer_size) with (Z.to_nat (kmer_size - 1) + 1)%nat at 1 by lia.
  rewrite <- firstn_skipn_comm, skipn_skipn.
  f_equal. f_equal. lia.
Qed.

End Pipeline.

(** X26.  For a k-mer size of at least 1, every node of the graph built
    from the table of the reads has exactly [k - 1] characters. *)
Theorem built_graph_node_lengths (reads : list string) (kmer_size : Z) (n : string) :
  1 <= kmer_size ->
  In n (nodes (build_graph (build_kmer_dict reads kmer_size))) ->
  String.length n = Z.to_nat (kmer_size - 1).
Proof.
  intros Hk Hin. apply build_graph_nodes_iff in Hin.
  destruct Hin as [kmer [Hkey Hn]].
  apply dict_keys_build in Hkey. destruct Hkey as [read [_ Hw]].
  pose proof (cut_kmer_lengths read kmer kmer_size ltac:(lia) Hw) as Hlen.
  unfold ends in Hn. simpl in Hn. destruct Hn as [-> | ->].
  - rewrite slice_init_length. lia.
  - rewrite slice_from_1_length. lia.
Qed.

Lemma built_graph_node_lengths_witness :
  String.length "AT" = Z.to_nat (3 - 1).
Proof.
  apply (built_graph_node_lengths Samples.reads2 3 "AT").
  - lia.
  - vm_compute. right. left. reflexivity.
Defined.

(** X27.  The contig reconstruction inverts the cutting into k-mers: for
    a k-mer size of at least 2 and a read of at least [k] characters, the
    path that the windows of the read follow in the graph, from the first
    window without its last character through every window without its
    first character, has the read itself as its contig. *)
Theorem contig_of_read (read : string) (kmer_size : Z) (first : string) (rest : list string) :
  2 <= kmer_size ->
  cut_kmer read kmer_size = first :: rest ->
  contig_of_path
    (slice first 0 (-1) :: map (fun kmer => slice_from kmer 1) (first :: rest))
  = Returns read.
Proof.
  intros Hk Hcut.
  pose proof (cut_kmer_enumeration read kmer_size ltac:(lia)) as En.
  set (m := Z.to_nat (Z.of_nat (String.length read) - kmer_size + 1)) in *.
  assert (Hm : (1 <= m)%nat).
  { destruct m; [|lia]. rewrite En in Hcut. discriminate. }
  assert (Hfirst : first = slice read 0 (0 + kmer_size)).
  { rewrite En in Hcut. destruct m; [lia|]. simpl in Hcut. injection Hcut as <- _.
    reflexivity. }
  rewrite contig_of_path_spec.
  - unfold spec_contig. rewrite <- Hcut, En, !map_map.
    rewrite (walk_tail read kmer_size m Hk) by (unfold m; lia).
    rewrite Hfirst. f_equal. apply chars_injective.
    rewrite <- (string_of_list_ascii_of_string (slice (slice read 0 (0 + kmer_size)) 0 (-1))).
    rewrite <- string_of_chars_app, list_ascii_of_string_of_list_ascii.
    rewrite slice_init_chars, window_chars by lia.
    set (l := list_ascii_of_string read).
    assert (Hl : Z.of_nat (List.length l) = Z.of_nat (String.length read))
      by (unfold l; rewrite string_length_chars; reflexivity).
    simpl skipn at 1 2.
    rewrite length_firstn, firstn_firstn.
    replace (Init.Nat.min (Init.Nat.min (Z.to_nat kmer_size) (List.length l) - 1)
                          (Z.to_nat kmer_size))
      with (Z.to_nat (kmer_size - 1)) by (unfold m in Hm; lia).
    rewrite (firstn_all2 (n := m)) by (rewrite length_skipn; unfold m; lia).
    apply firstn_skipn.
  - apply Forall_forall. intros node Hin.
    apply in_map_iff in Hin. destruct Hin as [kmer [<- Hin]].
    rewrite <- Hcut in Hin.
    pose proof (cut_kmer_lengths read kmer kmer_size ltac:(lia) Hin) as Hlen.
    intro E. pose proof (slice_from_1_length kmer) as Hs. rewrite E in Hs.
    simpl in Hs. lia.
Qed.

Lemma contig_of_read_witness :
  contig_of_path ["AA"; "AT"; "TC"; "CG"; "GA"]%string = Returns "AATCGA"%string.
Proof.
  apply (contig_of_read "AATCGA" 3 "AAT" ["ATC"; "TCG"; "CGA"]%string).
  - lia.
  - reflexivity.
Defined.

Section Completeness.

Variable g : DiGraph.

Lemma edge_successor (u v : string) (w : Z) :
  In (u, v, w) (edges g) -> In v (successors g u).
Proof.
  intro H. unfold successors.
  apply (in_map (fun e : string * string * Z => snd (fst e)) _ (u, v, w)).
  apply filter_In. split; [exact H | apply String.eqb_refl].
Qed.

(** The search finds every way to extend the current path into a simple
    path to the target that the cutoff allows. *)
Lemma dfs_complete (target : string) :
  forall (ext : list string) (fuel : nat) (visited : list string) (cur : string),
    walk g (cur :: ext) ->
    NoDup (rev visited ++ ext) ->
    (exists front, ext = front ++ [target]) ->
    (List.length ext <= S fuel)%nat ->
    In (rev visited ++ ext) (dfs g target fuel visited cur).
Proof.
  induction ext as [|child ext IH]; intros fuel visited cur W ND [front Ef] Hlen.
  - destruct front; discriminate.
  - destruct W as [[w Hw] W].
    rewrite dfs_unfold. apply in_flat_map. exists child.
    split; [exact (edge_successor _ _ _ Hw)|].
    assert (Nv : mem child visited = false).
    { destruct (mem child visited) eqn:E; [|reflexivity].
      apply mem_iff in E. apply NoDup_remove_2 in ND. exfalso. apply ND.
      apply in_app_iff. left. apply in_rev in E. exact E. }
    rewrite Nv.
    destruct ext as [|next ext'].
    + destruct front as [|a [|b front]]; try discriminate.
      injection Ef as ->. rewrite String.eqb_refl. left. reflexivity.
    + assert (Nt : child <> target).
      { intros ->. destruct front as [|a front]; [discriminate|].
        simpl in Ef. injection Ef as <- Ef.
        apply NoDup_remove_2 in ND. apply ND. apply in_app_iff. right.
        rewrite Ef. apply in_app_iff. right. left. reflexivity. }
      destruct (String.eqb_spec child target) as [E|_]; [contradiction|].
      destruct fuel as [|fuel]; [simpl in Hlen; lia|].
      replace (rev visited ++ child :: next :: ext')
        with (rev (child :: visited) ++ next :: ext')
        by (simpl; rewrite <- app_assoc; reflexivity).
      apply IH.
      * exact W.
      * simpl. rewrite <- app_assoc. exact ND.
      * destruct front as [|a front]; [discriminate|].
        simpl in Ef. injection Ef as _ Ef. exists front. exact Ef.
      * simpl in Hlen. simpl. lia.
Qed.

Lemma walk_nodes (path : list string) :
  wf_graph g -> walk g path ->
  forall first rest, path = first :: rest -> In first (nodes g) -> incl path (nodes g).
Proof.
  intros [_ [Hends _]] W.
  induction path as [|u path IH]; intros first rest E Hf; [discriminate|].
  injection E as -> ->. intros n [<-|Hn]; [exact Hf|].
  destruct rest as [|v rest]; [destruct Hn|].
  destruct W as [[w Hw] W].
  apply (IH W v rest eq_refl); [|exact Hn].
  exact (proj2 (Hends _ _ _ Hw)).
Qed.

(** The enumeration is complete: on a well-formed graph it returns every
    simple path from a node of the graph to the target. *)
Lemma simple_paths_complete (source target : string) (path : list string) :
  wf_graph g -> In source (nodes g) ->
  simple_path g source target path ->
  In path (simple_paths g source target).
Proof.
  intros Wf Hs [N [[ext ->] [[front Ef] [ND W]]]].
  pose proof (walk_nodes _ Wf W source ext eq_refl Hs) as Hincl.
  pose proof (NoDup_incl_length ND Hincl) as Hlen.
  assert (Hext : exists front', ext = front' ++ [target]).
  { destruct front as [|a front].
    - simpl in Ef. injection Ef as E _. contradiction.
    - simpl in Ef. injection Ef as _ Ef. exists front. exact Ef. }
  unfold simple_paths.
  destruct (String.eqb_spec source target) as [E|_]; [contradiction|].
  destruct Hext as [front' Ef'].
  destruct (List.length (nodes g)) as [|[|fuel]] eqn:En.
  - simpl in Hlen. lia.
  - simpl in Hlen. rewrite Ef', length_app in Hlen. simpl in Hlen. lia.
  - apply (dfs_complete target ext fuel [source] source).
    + exact W.
    + exact ND.
    + exists front'. exact Ef'.
    + simpl in Hlen. lia.
Qed.

End Completeness.

(** X28.  On a well-formed graph whose edges all end on non-empty nodes,
    and for sources and sinks that are nodes of the graph, no source being
    also a sink, [get_contigs] emits the contig of every simple path from a
    source to a sink, and nothing else: a pair is in its result exactly
    when it is the contig, with its length, of such a path.  A node that is
    both a source and a sink, as an isolated node is, is left out: what
    [all_simple_paths] yields from a node to itself depends on the version
    of networkx. *)
Theorem get_contigs_complete
        (graph : DiGraph) (starting_nodes ending_nodes : list string) :
  wf_graph graph ->
  (forall u v w, In (u, v, w) (edges graph) -> v <> EmptyString) ->
  incl starting_nodes (nodes graph) ->
  incl ending_nodes (nodes graph) ->
  (forall start end_, In start starting_nodes -> In end_ ending_nodes -> start <> end_) ->
  exists contigs_list,
    get_contigs graph starting_nodes ending_nodes = Returns contigs_list
    /\ forall cont size,
        In (cont, size) contigs_list
        <-> exists start end_ path,
              In start starting_nodes /\ In end_ ending_nodes
              /\ simple_path graph start end_ path
              /\ cont = spec_contig path /\ size = String.length cont.
Proof.
  intros Wf Hne Hst Hen _.
  eexists. split.
  { unfold get_contigs.
    rewrite (contigs_of_sources graph Hne starting_nodes ending_nodes [] Hst Hen).
    reflexivity. }
  intros cont size. simpl. rewrite in_map_iff. split.
  - intros [path [E Hp]].
    apply in_flat_map in Hp. destruct Hp as [start [Hs Hp]].
    apply in_flat_map in Hp. destruct Hp as [end_ [He Hp]].
    unfold emitted in E. injection E as <- <-.
    exists start, end_, path.
    split; [exact Hs|]. split; [exact He|].
    split; [apply simple_paths_sound, Hp|]. split; reflexivity.
  - intros [start [end_ [path [Hs [He [Hp [-> ->]]]]]]].
    exists path. split; [reflexivity|].
    apply in_flat_map. exists start. split; [exact Hs|].
    apply in_flat_map. exists end_. split; [exact He|].
    apply simple_paths_complete; [exact Wf | apply Hst, Hs | exact Hp].
Qed.

Lemma get_contigs_complete_witness :
  exists contigs_list,
    get_contigs Samples.twins ["S"%string] ["T"%string] = Returns contigs_list.
Proof.
  destruct (get_contigs_complete Samples.twins ["S"%string] ["T"%string])
    as [contigs_list [H _]].
  - apply of_edges_wf.
  - vm_compute. intros u v w [H|[H|[H|[H|[]]]]]; inversion H; discriminate.
  - vm_compute. intros n [<-|[]]. left. reflexivity.
  - vm_compute. intros n [<-|[]]. right. right. left. reflexivity.
  - intros start end_ [<-|[]] [<-|[]]. discriminate.
  - exists contigs_list. exact H.
Defined.

(** X29.  When the scan finds a bubble and resolving it leaves the graph
    as it was (as when every losing candidate is a single edge, which has
    no interior node to remove), [simplify_bubbles] finds the same bubble
    again at every depth of its recursion: it never returns, whatever the
    recursion limit. *)
Theorem simplify_bubbles_no_progress
        (lca : DiGraph -> string -> string -> lca_answer)
        (draws : nat -> nat) (graph : DiGraph) (ancestor node : string) :
  find_bubble lca graph (nodes graph) = Bubble (Some ancestor) node ->
  (forall level, solve_bubble graph ancestor node (draws level) = Returns graph) ->
  forall fuel level, simplify_bubbles lca draws fuel level graph = TooDeep.
Proof.
  intros Hf Hs fuel.
  induction fuel as [|fuel IH]; intro level;
    rewrite simplify_bubbles_unfold, Hf, Hs.
  - reflexivity.
  - apply IH.
Qed.

Lemma simplify_bubbles_no_progress_witness :
  simplify_bubbles (fun _ _ _ => LcaNode "S") (fun _ => 0%nat) 1000 0 edge_bubble
  = TooDeep.
Proof.
  apply (simplify_bubbles_no_progress
           (fun _ _ _ => LcaNode "S") (fun _ => 0%nat) edge_bubble "S" "T").
  - vm_compute. reflexivity.
  - intro level. vm_compute. reflexivity.
Defined.
